(** * Street routing back end: street-routing-app/backend/app.py

    A shallow embedding of the routing service and the proofs of its
    specification.  Python floats are read as real numbers (exact
    arithmetic, no NaN, no rounding); Python dicts whose iteration order
    matters are association lists, the dicts of the A-star search are finite
    maps; exceptions are [option] results or explicit error constructors. *)

From Stdlib Require Import Reals Lra Lia ZArith String List Permutation.
From stdpp Require Import gmap strings list.

Open Scope R_scope.

(** ** Python numbers and the [math] module *)

Module PyFloat.

#[global] Instance Rlt_decision : RelDecision Rlt := Rlt_dec.
#[global] Instance Rle_decision : RelDecision Rle := Rle_dec.
#[global] Instance Rgt_decision : RelDecision Rgt := fun x y => Rlt_dec y x.
#[global] Instance Rge_decision : RelDecision Rge := Rge_dec.
#[global] Instance Req_decision : EqDecision R := Req_dec_T.

(** [max(a, b)] and [min(a, b)] of Python: the first argument wins ties. *)
Definition py_max (a b : R) : R := if decide (b > a) then b else a.
Definition py_min (a b : R) : R := if decide (b < a) then b else a.

(** [int(x)] truncates towards zero. *)
Definition py_int (x : R) : Z :=
  if decide (0 <= x) then Int_part x else (- Int_part (- x))%Z.

(** [math.radians], [math.hypot]. *)
Definition radians (x : R) : R := x * PI / 180.
Definition hypot (x y : R) : R := sqrt (x * x + y * y).

(** [math.atan2(y, x)], by quadrant. *)
Definition atan2 (y x : R) : R :=
  if decide (0 < x) then atan (y / x)
  else if decide (x < 0) then
         (if decide (0 <= y) then atan (y / x) + PI else atan (y / x) - PI)
  else if decide (0 < y) then PI / 2
  else if decide (y < 0) then - PI / 2
  else 0.

(** The values a JSON property can hold, as far as [float()] tells them
    apart.  A string carries the number [float()] reads in it, if any. *)
Inductive pyval : Type :=
| VNone
| VBool (b : bool)
| VNum (r : R)
| VStr (s : string) (parsed : option R)
| VOther.

(** [float(v)]: [None] stands for the TypeError or ValueError. *)
Definition py_float (v : pyval) : option R :=
  match v with
  | VNone => None
  | VBool b => Some (if b then 1 else 0)
  | VNum r => Some r
  | VStr _ p => p
  | VOther => None
  end.

(** A key of a JSON object: absent, [null], or a value. *)
Inductive field (A : Type) : Type :=
| Absent
| Null
| Val (a : A).
Arguments Absent {A}.
Arguments Null {A}.
Arguments Val {A} a.

(** [d.get(k)] on an association list; [d.get(k, dflt)]. *)
Fixpoint dict_get {V : Type} (d : list (string * V)) (k : string) : option V :=
  match d with
  | [] => None
  | (k', v) :: rest => if String.eqb k' k then Some v else dict_get rest k
  end.

Definition dict_get_default {V : Type} (d : list (string * V)) (k : string) (dflt : V) : V :=
  match dict_get d k with Some v => v | None => dflt end.

End PyFloat.
Export PyFloat.

(** ** Great-circle distance *)

Module Geo.

(** [_haversine(u, v)], points as (lat, lon) in degrees. *)
Definition _haversine (u v : R * R) : R :=
  let R0 := 6371000 in
  let lat1 := radians (fst u) in
  let lon1 := radians (snd u) in
  let lat2 := radians (fst v) in
  let lon2 := radians (snd v) in
  let dlat := lat2 - lat1 in
  let dlon := lon2 - lon1 in
  let a := (sin (dlat / 2)) ^ 2 + cos lat1 * cos lat2 * (sin (dlon / 2)) ^ 2 in
  let c := 2 * atan2 (sqrt a) (sqrt (1 - a)) in
  R0 * c.

End Geo.
Export Geo.

(** ** GeoJSON documents, the files and the in-process caches *)

Module Store.

(** A geometry, with coordinates that are numbers. *)
Record geometry : Type := {
  g_type : field string;
  g_coordinates : field (list R)
}.

Record feature : Type := {
  f_geometry : field geometry;
  f_properties : field (list (string * pyval))
}.

(** What [json.loads] makes of a file or of a request body: [Unreadable]
    when it raises, else the object with its ["features"] key. *)
Inductive document : Type :=
| Unreadable
| Doc (features : field (list feature)).

(** A hazard point [(lat, lon, score)] and a lighting point [(lat, lon)]. *)
Definition hazard : Type := R * R * R.
Definition light : Type := R * R.

(** [f.get("geometry") or {}] followed by [.get("type")]. *)
Definition geometry_type (f : feature) : field string :=
  match f_geometry f with
  | Val g => g_type g
  | _ => Absent
  end.

Definition is_Point (t : field string) : bool :=
  match t with
  | Val s => String.eqb s "Point"
  | _ => false
  end.

(** *** The three clamps of the source, on a score that is a number *)

(** Line 210: [sc = 0.0 if sc < 0 else (1.0 if sc > 1.0 else sc)]. *)
Definition clamp_cond (sc : R) : R :=
  if decide (sc < 0) then 0 else if decide (sc > 1) then 1 else sc.

(** Lines 375-378 and 558-559: [if sc < 0: sc = 0.0] then [if sc > 1: sc = 1.0]. *)
Definition clamp_seq (sc : R) : R :=
  let sc1 := if decide (sc < 0) then 0 else sc in
  if decide (sc1 > 1) then 1 else sc1.

(** Line 228: [max(0.0, min(1.0, sc))]. *)
Definition clamp_maxmin (sc : R) : R := py_max 0 (py_min 1 sc).

(** *** [_load_hazards] *)

Inductive step (A : Type) : Type :=
| Skip
| Raise
| Emit (a : A).
Arguments Skip {A}.
Arguments Raise {A}.
Arguments Emit {A} a.

(** The raw score of a hazards feature:
    [props.get("safety_score", props.get("score", 1.0))]. *)
Definition hazard_raw_score (f : feature) : pyval :=
  let props := match f_properties f with Val d => d | _ => [] end in
  dict_get_default props "safety_score" (dict_get_default props "score" (VNum 1)).

(** The coordinates read by [f["geometry"].get("coordinates") or []]. *)
Definition hazard_coords (f : feature) : list R :=
  match f_geometry f with
  | Val g => match g_coordinates g with Val l => l | _ => [] end
  | _ => []
  end.

(** One round of the loop of lines 201-211. *)
Definition hazard_of_feature (f : feature) : step hazard :=
  if negb (is_Point (geometry_type f)) then Skip
  else match hazard_coords f with
       | lon :: lat :: _ =>
           match py_float (hazard_raw_score f) with
           | Some sc => Emit (lat, lon, clamp_cond sc)
           | None => Raise
           end
       | _ => Skip
       end.

(** The loop: an exception leaves it and the points read so far are returned. *)
Fixpoint load_hazard_features (feats : list feature) (pts : list hazard) : list hazard :=
  match feats with
  | [] => pts
  | f :: rest =>
      match hazard_of_feature f with
      | Skip => load_hazard_features rest pts
      | Raise => pts
      | Emit p => load_hazard_features rest (pts ++ [p])
      end
  end.

Definition _load_hazards (hazards_file : option document) : list hazard :=
  match hazards_file with
  | None => []
  | Some Unreadable => []
  | Some (Doc Absent) => []
  | Some (Doc Null) => []
  | Some (Doc (Val feats)) => load_hazard_features feats []
  end.

(** *** [_save_hazards] and the hazards endpoints *)

Record item : Type := { it_lat : R; it_lon : R; it_score : R }.

Definition saved_feature (it : item) : feature :=
  {| f_geometry := Val {| g_type := Val "Point"%string;
                          g_coordinates := Val [it_lon it; it_lat it] |};
     f_properties := Val [("score"%string, VNum (clamp_maxmin (it_score it)))] |}.

(** The FeatureCollection written to HAZARDS_FILE and returned. *)
Definition _save_hazards (items : list item) : document :=
  Doc (Val (map saved_feature items)).

Record HazardPoint : Type := { hp_lat : R; hp_lon : R; hp_score : R }.

(** An element of a list payload: a validated [HazardPoint], or a plain dict
    (the [isinstance(hp, dict)] branch). *)
Inductive hazard_item : Type :=
| HPModel (p : HazardPoint)
| HPDict (d : list (string * pyval)).

Inductive payload : Type :=
| PList (l : list hazard_item)
| PDict (features : field (list feature)).

Definition item_of_hazard_item (hp : hazard_item) : option item :=
  match hp with
  | HPModel p => Some {| it_lat := hp_lat p; it_lon := hp_lon p; it_score := hp_score p |}
  | HPDict d =>
      match py_float (dict_get_default d "lat" VNone),
            py_float (dict_get_default d "lon" VNone),
            py_float (dict_get_default d "score" (VNum 1)) with
      | Some lat, Some lon, Some sc => Some {| it_lat := lat; it_lon := lon; it_score := sc |}
      | _, _, _ => None
      end
  end.

(** One round of the loop of lines 266-275. *)
Definition item_of_feature (f : feature) : step item :=
  if negb (is_Point (geometry_type f)) then Skip
  else match hazard_coords f with
       | lon :: lat :: _ =>
           match py_float (hazard_raw_score f) with
           | Some sc => Emit {| it_lat := lat; it_lon := lon; it_score := sc |}
           | None => Raise
           end
       | _ => Skip
       end.

(** A loop in which an exception aborts the whole call. *)
Fixpoint collect {A B : Type} (f : A -> step B) (l : list A) : option (list B) :=
  match l with
  | [] => Some []
  | a :: rest =>
      match f a with
      | Skip => collect f rest
      | Raise => None
      | Emit b => match collect f rest with Some bs => Some (b :: bs) | None => None end
      end
  end.

Definition payload_items (p : payload) : option (list item) :=
  match p with
  | PList l => collect (fun hp => match item_of_hazard_item hp with
                                  | Some it => Emit it | None => Raise end) l
  | PDict (Val feats) => collect item_of_feature feats
  | PDict _ => Some []
  end.

(** The HTTP outcome of an endpoint: the body, or the status of the HTTPException. *)
Inductive response (A : Type) : Type :=
| Ok (body : A)
| Http (status : Z).
Arguments Ok {A} body.
Arguments Http {A} status.

(** [post_hazards]: the new content of HAZARDS_FILE and the response. *)
Definition post_hazards (p : payload) (hazards_file : option document)
  : option document * response document :=
  match payload_items p with
  | Some items => let data := _save_hazards items in (Some data, Ok data)
  | None => (hazards_file, Http 400)
  end.

Definition get_hazards (hazards_file : option document) : response document :=
  match hazards_file with
  | None => Ok (Doc (Val []))
  | Some Unreadable => Http 500
  | Some d => Ok d
  end.

Definition delete_hazards (hazards_file : option document) : option document := None.

End Store.
Export Store.

(** ** The process state: list objects, [_PED_CACHE], the lighting memo *)

Module Process.

(** The files under DATA_DIR and UI_DIR, each with its modification time
    where the code reads it. *)
Record files : Type := {
  hazards_file : option document;
  pedestrians_files : list (option (R * document));
  lighting_cache_file : option (R * document)
}.

(** Python list objects are shared by reference: [heap] maps a reference to
    the current content of the list it names. *)
Record proc : Type := {
  heap : gmap nat (list hazard);
  next_ref : nat;
  ped_cache_pts : option nat;
  ped_cache_mtime : option R;
  lighting_memo : option (option R * document)
}.

Definition proc_init : proc :=
  {| heap := ∅; next_ref := 0; ped_cache_pts := None; ped_cache_mtime := None;
     lighting_memo := None |}.

(** A new list object. *)
Definition alloc (l : list hazard) (p : proc) : nat * proc :=
  (next_ref p,
   {| heap := <[next_ref p := l]> (heap p); next_ref := S (next_ref p);
      ped_cache_pts := ped_cache_pts p; ped_cache_mtime := ped_cache_mtime p;
      lighting_memo := lighting_memo p |}).

Definition deref (r : nat) (p : proc) : list hazard := default [] (heap p !! r).

(** [lst += more] and [lst.append(x)]: the object named [r] grows in place. *)
Definition extend (r : nat) (more : list hazard) (p : proc) : proc :=
  {| heap := <[r := deref r p ++ more]> (heap p); next_ref := next_ref p;
     ped_cache_pts := ped_cache_pts p; ped_cache_mtime := ped_cache_mtime p;
     lighting_memo := lighting_memo p |}.

Definition set_ped_cache (r : nat) (mtime : R) (p : proc) : proc :=
  {| heap := heap p; next_ref := next_ref p;
     ped_cache_pts := Some r; ped_cache_mtime := Some mtime;
     lighting_memo := lighting_memo p |}.

Definition set_lighting_memo (key : option R) (d : document) (p : proc) : proc :=
  {| heap := heap p; next_ref := next_ref p;
     ped_cache_pts := ped_cache_pts p; ped_cache_mtime := ped_cache_mtime p;
     lighting_memo := Some (key, d) |}.

(** *** [_load_pedestrians] *)

(** [float(score)] inside its own try: 0.0 when it raises. *)
Definition float_or_zero (v : pyval) : R := default 0 (py_float v).

(** One round of the loop of lines 548-561. *)
Definition ped_of_feature (f : feature) : step hazard :=
  if is_Point (geometry_type f) then
    match f_geometry f with
    | Val g =>
        match g_coordinates g with
        | Null => Raise
        | Absent => match f_properties f with Null => Raise | _ => Skip end
        | Val (lon :: lat :: _) =>
            match f_properties f with
            | Null => Raise
            | Absent => Emit (lat, lon, clamp_seq (float_or_zero (VNum 0)))
            | Val d =>
                Emit (lat, lon, clamp_seq (float_or_zero (dict_get_default d "safety_score" (VNum 0))))
            end
        | Val _ => Raise
        end
    | _ => Skip
    end
  else Skip.

(** The first file of PEDESTRIANS_FILES that exists. *)
Fixpoint first_existing {A : Type} (l : list (option A)) : option A :=
  match l with
  | [] => None
  | Some a :: _ => Some a
  | None :: rest => first_existing rest
  end.

(** [_load_pedestrians]: the reference of the list it returns.  [return []]
    makes a new list; the other two returns hand out the cached list itself. *)
Definition _load_pedestrians (fs : files) (p : proc) : nat * proc :=
  match first_existing (pedestrians_files fs) with
  | None => alloc [] p
  | Some (mtime, doc) =>
      match ped_cache_pts p with
      | Some r =>
          if decide (ped_cache_mtime p = Some mtime) then (r, p)
          else match doc with
               | Doc Absent => let '(r', p') := alloc [] p in (r', set_ped_cache r' mtime p')
               | Doc (Val feats) =>
                   match collect ped_of_feature feats with
                   | Some pts => let '(r', p') := alloc pts p in (r', set_ped_cache r' mtime p')
                   | None => alloc [] p
                   end
               | _ => alloc [] p
               end
      | None =>
          match doc with
          | Doc Absent => let '(r', p') := alloc [] p in (r', set_ped_cache r' mtime p')
          | Doc (Val feats) =>
              match collect ped_of_feature feats with
              | Some pts => let '(r', p') := alloc pts p in (r', set_ped_cache r' mtime p')
              | None => alloc [] p
              end
          | _ => alloc [] p
          end
      end
  end.

(** *** Lighting points (lines 336-347 of [route]) *)

Definition empty_collection : document := Doc (Val []).

(** [_load_lighting_cached(cache_mtime)] under [lru_cache(maxsize=1)]. *)
Definition _load_lighting_cached (fs : files) (p : proc) : document * proc :=
  let key := fst <$> lighting_cache_file fs in
  let fresh :=
    match lighting_cache_file fs with
    | None => empty_collection
    | Some (_, Unreadable) => empty_collection
    | Some (_, d) => d
    end in
  match lighting_memo p with
  | Some (k, d) => if decide (k = key) then (d, p) else (fresh, set_lighting_memo key fresh p)
  | None => (fresh, set_lighting_memo key fresh p)
  end.

Definition light_of_feature (f : feature) : step light :=
  if is_Point (geometry_type f) then
    match f_geometry f with
    | Val g =>
        match g_coordinates g with
        | Null => Raise
        | Absent => Skip
        | Val (lon :: lat :: _) => Emit (lat, lon)
        | Val _ => Raise
        end
    | _ => Skip
    end
  else Skip.

Definition lights_of_document (d : document) : list light :=
  match d with
  | Doc Absent => []
  | Doc (Val feats) => default [] (collect light_of_feature feats)
  | _ => []
  end.

(** *** The danger set of a request (lines 365-381 of [route]) *)

Record DangerPoint : Type := { dp_lat : R; dp_lon : R; dp_score : R }.

(** An element of [extra_danger]: the pydantic model the request type
    declares, or a dict. *)
Inductive danger_item : Type :=
| DPModel (p : DangerPoint)
| DPDict (d : list (string * pyval)).

(** [dp.get]: a dict has the method, a [DangerPoint] has the attributes
    [lat], [lon] and [score] and no [get] (AttributeError). *)
Definition dp_get (dp : danger_item) : option (string -> option pyval) :=
  match dp with
  | DPModel _ => None
  | DPDict d => Some (dict_get d)
  end.

(** [getattr(dp, name, dflt)]. *)
Definition dp_getattr (dp : danger_item) (name : string) (dflt : pyval) : pyval :=
  match dp with
  | DPModel p =>
      if String.eqb name "lat" then VNum (dp_lat p)
      else if String.eqb name "lon" then VNum (dp_lon p)
      else if String.eqb name "score" then VNum (dp_score p)
      else dflt
  | DPDict _ => dflt
  end.

(** One round of the loop of lines 371-379; [None] is the exception.  The
    default [dp.get(name)] is an argument of [getattr], so it is evaluated
    before [getattr] is called. *)
Definition danger_point_of (dp : danger_item) : option hazard :=
  match dp_get dp with
  | None => None
  | Some get =>
      match py_float (dp_getattr dp "lat" (default VNone (get "lat"%string))),
            py_float (dp_getattr dp "lon" (default VNone (get "lon"%string))),
            py_float (dp_getattr dp "score" (default (VNum 1) (get "score"%string))) with
      | Some lat, Some lon, Some sc => Some (lat, lon, clamp_seq sc)
      | _, _, _ => None
      end
  end.

(** The points the loop appends before it ends or raises ([except: pass]). *)
Fixpoint extra_danger_points (l : list danger_item) : list hazard :=
  match l with
  | [] => []
  | dp :: rest =>
      match danger_point_of dp with
      | Some h => h :: extra_danger_points rest
      | None => []
      end
  end.

(** Lines 366-381: the reference of [ped_pts] after the three steps. *)
Definition gather_danger (extra : option (list danger_item)) (fs : files) (p : proc)
  : nat * proc :=
  let '(r, p1) := _load_pedestrians fs p in
  let p2 := extend r (_load_hazards (hazards_file fs)) p1 in
  let p3 := extend r (extra_danger_points (default [] extra)) p2 in
  (r, p3).

End Process.
Export Process.

(** ** The street graph *)

Module Graph.

(** Node identifiers (OSM ids). *)
Abbreviation node := Z.

(** [G.nodes[u]]: the keys ["y"] and ["x"] (lat and lon in [G], northing and
    easting in the projected graph). *)
Record node_attrs : Type := { n_y : option R; n_x : option R }.

(** The attribute dict of one edge. *)
Record edge_attrs : Type := { length : option R; name : option string }.

(** A key of a Python dict: the keys of parallel edges are integers, the
    keys of attribute dicts are strings. *)
Inductive pykey : Type :=
| KInt (k : Z)
| KStr (s : string).

Definition pykey_eqb (a b : pykey) : bool :=
  match a, b with
  | KInt x, KInt y => Z.eqb x y
  | KStr x, KStr y => String.eqb x y
  | _, _ => false
  end.

(** [G[u][v]] of a MultiDiGraph: the dict from edge key to attribute dict of
    the parallel edges from [u] to [v]. *)
Definition multi_edge : Type := list (pykey * edge_attrs).

Fixpoint medge_get (d : multi_edge) (k : pykey) : option edge_attrs :=
  match d with
  | [] => None
  | (k', a) :: rest => if pykey_eqb k' k then Some a else medge_get rest k
  end.

(** A MultiDiGraph: [g_succ u] is [G._adj[u]] in insertion order. *)
Record street_graph : Type := {
  g_succ : node -> list (node * multi_edge);
  g_nodes : node -> node_attrs
}.

(** [G.get_edge_data(u, v)]. *)
Fixpoint assoc_node {A : Type} (l : list (node * A)) (v : node) : option A :=
  match l with
  | [] => None
  | (v', a) :: rest => if Z.eqb v' v then Some a else assoc_node rest v
  end.

Definition get_edge_data (G : street_graph) (u v : node) : option multi_edge :=
  assoc_node (g_succ G u) v.

End Graph.
Export Graph.

(** ** The edge cost model (lines 349-471 of [route]) *)

Module CostModel.

Definition SAFE_SIGMA : R := 40.
Definition SAMPLE_STEP : R := 15.
Definition SAFE_ALPHA : R := 3.
Definition SAFE_EPS : R := 1 / 1000000.

Definition PEDS_SIGMA : R := 30.
Definition PEDS_GAMMA : R := 2.
Definition PEDS_RADIUS : R := 100.
Definition PEDS_WEIGHT : R := 6.
Definition HIGH_RISK_THRESHOLD : R := 85 / 100.
Definition HIGH_RISK_RADIUS : R := PEDS_RADIUS.
Definition HIGH_RISK_JUMP : R := 20.

Definition MIN_DENSITY : R := 5 / 100.
Definition DARKNESS_PENALTY : R := 2.

Definition ped_inv_twosig2 : R := 1 / (2 * (PEDS_SIGMA * PEDS_SIGMA)).
Definition inv_twosig2 : R := 1 / (2 * (SAFE_SIGMA * SAFE_SIGMA)).

(** [n = max(1, int(L / SAMPLE_STEP))]. *)
Definition sample_count (L : R) : nat := Z.to_nat (Z.max 1 (py_int (L / SAMPLE_STEP))).

(** The sample of round [i] of [for i in range(n + 1)]. *)
Definition sample_point (uy ux vy vx : R) (n i : nat) : R * R :=
  let t := INR i / INR n in
  (uy + (vy - uy) * t, ux + (vx - ux) * t).

Definition samples (uy ux vy vx : R) (n : nat) : list (R * R) :=
  map (sample_point uy ux vy vx n) (seq 0 (n + 1)).

(** The four coordinates of an edge, when none is [None]. *)
Definition edge_coords (G : street_graph) (u v : node) : option (R * R * R * R) :=
  match n_y (g_nodes G u), n_x (g_nodes G u), n_y (g_nodes G v), n_x (g_nodes G v) with
  | Some uy, Some ux, Some vy, Some vx => Some (uy, ux, vy, vx)
  | _, _, _, _ => None
  end.

(** *** [_edge_density] *)

(** One round of the loop over the lights (lines 445-449). *)
Definition light_round (loc : R * R) (s : R) (l : light) : R :=
  let d := _haversine loc l in
  if decide (d > SAFE_SIGMA * 4) then s
  else s + exp (- (d * d) * inv_twosig2).

Definition light_sum (lights : list light) (loc : R * R) : R :=
  fold_left (light_round loc) lights 0.

Definition _edge_density (G : street_graph) (lights : list light) (u v : node) : R :=
  match edge_coords G u v, lights with
  | None, _ => 0
  | _, [] => 0
  | Some (uy, ux, vy, vx), _ =>
      let L := _haversine (uy, ux) (vy, vx) in
      if decide (L <= 0) then 0
      else
        let n := sample_count L in
        let acc := fold_left (fun acc loc => acc + light_sum lights loc)
                             (samples uy ux vy vx n) 0 in
        acc / INR (n + 1)
  end.

(** *** [_edge_ped_stats] *)

(** One round of the loop over the danger points (lines 405-413), on the
    pair [(s, peak)]. *)
Definition ped_round (loc : R * R) (sp : R * R) (h : hazard) : R * R :=
  let '(py, px, score) := h in
  if decide (score <= 0) then sp
  else
    let d := _haversine loc (py, px) in
    if decide (d > PEDS_RADIUS) then sp
    else
      (fst sp + Rpower score PEDS_GAMMA * exp (- (d * d) * ped_inv_twosig2),
       if decide (score >= HIGH_RISK_THRESHOLD /\ d <= HIGH_RISK_RADIUS) then 1 else snd sp).

(** One round of the loop over the samples (lines 399-414), on [(acc, peak)]. *)
Definition ped_sample_round (ped_pts : list hazard) (ap : R * R) (loc : R * R) : R * R :=
  let sp := fold_left (ped_round loc) ped_pts (0, snd ap) in
  (fst ap + fst sp, snd sp).

Definition _edge_ped_stats (G : street_graph) (ped_pts : list hazard) (u v : node) : R * R :=
  match ped_pts, edge_coords G u v with
  | [], _ => (0, 0)
  | _, None => (0, 0)
  | _, Some (uy, ux, vy, vx) =>
      let L := _haversine (uy, ux) (vy, vx) in
      if decide (L <= 0) then (0, 0)
      else
        let n := sample_count L in
        let ap := fold_left (ped_sample_round ped_pts) (samples uy ux vy vx n) (0, 0) in
        (fst ap / INR (n + 1), snd ap)
  end.

(** *** [_edge_weight] *)

(** Lines 461-465. *)
Definition darkness_penalty (dens : R) : R :=
  if decide (dens < MIN_DENSITY) then DARKNESS_PENALTY else 1.

Definition dark_term (G : street_graph) (lights : list light) (u v : node) : R :=
  let dens := _edge_density G lights u v in
  (1 / (SAFE_EPS + SAFE_ALPHA * dens)) * darkness_penalty dens.

(** Lines 467-468. *)
Definition ped_term (G : street_graph) (ped_pts : list hazard) (u v : node) : R :=
  let '(ped_danger, ped_peak) := _edge_ped_stats G ped_pts u v in
  PEDS_WEIGHT * ped_danger + HIGH_RISK_JUMP * ped_peak.

(** [float(attrs.get("length", 1.0))], where [attrs] is the third argument
    networkx gives a weight callable: [G[u][v]], for a MultiDiGraph the dict
    of the parallel edges (the same dict whose [.values()] lines 138 and 168
    go through).  [None] is the TypeError of [float] on a dict. *)
Definition base_weight (attrs : multi_edge) : option R :=
  match medge_get attrs (KStr "length") with
  | None => Some 1
  | Some _ => None
  end.

Definition _edge_weight (route_pref : string) (G : street_graph)
    (lights : list light) (ped_pts : list hazard)
    (u v : node) (attrs : multi_edge) : option R :=
  match base_weight attrs with
  | None => None
  | Some base =>
      if String.eqb route_pref "short" then Some base
      else if String.eqb route_pref "safe" && negb (bool_decide (lights = [])) then
        Some (py_max (1 / 10) (dark_term G lights u v + ped_term G ped_pts u v))
      else Some base
  end.

(** The weight networkx derives from the attribute name ["length"] on a
    multigraph: [min(attr.get("length", 1) for attr in d.values())]; [None]
    is the ValueError of [min] on no value. *)
Definition attr_length (a : edge_attrs) : R := default 1 (length a).

Definition length_weight (attrs : multi_edge) : option R :=
  match attrs with
  | [] => None
  | (_, a) :: rest => Some (fold_left (fun m ka => py_min m (attr_length (snd ka))) rest (attr_length a))
  end.

End CostModel.
Export CostModel.

(** ** A-star search

    [route] calls [networkx.astar_path], which is library code.  The loop
    below is the one of networkx: a heap of
    [(priority, counter, node, dist, parent)] with lazy deletion and the two
    dicts [enqueued] and [explored]. *)

Module PathSearch.

Record entry : Type := {
  e_prio : R;
  e_count : nat;
  e_node : node;
  e_dist : R;
  e_parent : option node
}.

(** The order of the heap: tuples compare on the priority, then on the counter. *)
Definition entry_ltb (a b : entry) : bool :=
  if decide (e_prio a < e_prio b) then true
  else if decide (e_prio a = e_prio b) then Nat.ltb (e_count a) (e_count b)
  else false.

(** [heappop]: the least entry and the rest of the heap. *)
Fixpoint extract_min (q : list entry) : option (entry * list entry) :=
  match q with
  | [] => None
  | x :: q' =>
      match extract_min q' with
      | None => Some (x, [])
      | Some (m, r) => if entry_ltb m x then Some (m, x :: r) else Some (x, q')
      end
  end.

Record state : Type := {
  queue : list entry;
  counter : nat;
  enqueued : gmap Z (R * R);
  explored : gmap Z (option node)
}.

Definition set_queue (q : list entry) (st : state) : state :=
  {| queue := q; counter := counter st; enqueued := enqueued st; explored := explored st |}.

Definition set_explored (n : node) (parent : option node) (st : state) : state :=
  {| queue := queue st; counter := counter st; enqueued := enqueued st;
     explored := <[n := parent]> (explored st) |}.

(** [enqueued[neighbor] = ncost, h] and the [heappush]. *)
Definition push (neighbor : node) (ncost h : R) (curnode : node) (st : state) : state :=
  {| queue := {| e_prio := ncost + h; e_count := counter st; e_node := neighbor;
                 e_dist := ncost; e_parent := Some curnode |} :: queue st;
     counter := S (counter st);
     enqueued := <[neighbor := (ncost, h)]> (enqueued st);
     explored := explored st |}.

Inductive outcome : Type :=
| Found (path : list node)
| NoPath
| Failed
| OutOfFuel.

Section AStar.

Context {E : Type}.
Variable succ : node -> list (node * E).
Variable weight : node -> node -> E -> option R.
Variable heuristic : node -> node -> R.
Variables source target : node.

(** Modelled from the spec: the inner loop of [networkx.astar_path] over the
    neighbours of [curnode] (section 4.5: [g] is the accumulated edge cost,
    the open set is ordered by [g + h]); [None] when the weight function
    raises.  The third argument of the weight function is [G[u][v]]. *)
Fixpoint expand (curnode : node) (dist : R) (nbrs : list (node * E)) (st : state)
  : option state :=
  match nbrs with
  | [] => Some st
  | (neighbor, w) :: rest =>
      match weight curnode neighbor w with
      | None => None
      | Some cost =>
          let ncost := dist + cost in
          match enqueued st !! neighbor with
          | Some (qcost, h) =>
              if decide (qcost <= ncost) then expand curnode dist rest st
              else expand curnode dist rest (push neighbor ncost h curnode st)
          | None =>
              expand curnode dist rest (push neighbor ncost (heuristic neighbor target) curnode st)
          end
      end
  end.

(** Modelled from the spec: the path that [networkx.astar_path] rebuilds
    from the parents; [path] already holds the nodes after [n].  [None]
    when a parent is missing or the parents do not lead back to the source
    within [fuel] steps. *)
Fixpoint trace_back (fuel : nat) (expl : gmap Z (option node)) (n : option node)
    (path : list node) : option (list node) :=
  match n with
  | None => Some path
  | Some m =>
      match fuel with
      | O => None
      | S fuel' =>
          match expl !! m with
          | Some p => trace_back fuel' expl p (m :: path)
          | None => None
          end
      end
  end.

Definition expand_node (x : entry) (st : state) : option state :=
  expand (e_node x) (e_dist x) (succ (e_node x)) (set_explored (e_node x) (e_parent x) st).

(** Modelled from the spec: one round of the [while queue] loop of
    [networkx.astar_path], then the rest of the loop (section 4.5: standard
    A-star, ties broken by insertion order, failure when the goal is not
    reachable). *)
Fixpoint search (fuel : nat) (st : state) : outcome :=
  match fuel with
  | O => OutOfFuel
  | S fuel' =>
      match extract_min (queue st) with
      | None => NoPath
      | Some (x, q') =>
          let st1 := set_queue q' st in
          if decide (e_node x = target) then
            match trace_back (size (explored st)) (explored st) (e_parent x) [e_node x] with
            | Some path => Found path
            | None => Failed
            end
          else
            match explored st !! e_node x with
            | Some None => search fuel' st1
            | Some (Some _) =>
                match enqueued st !! e_node x with
                | Some (qcost, _) =>
                    if decide (qcost < e_dist x) then search fuel' st1
                    else match expand_node x st1 with
                         | Some st2 => search fuel' st2
                         | None => Failed
                         end
                | None => Failed
                end
            | None =>
                match expand_node x st1 with
                | Some st2 => search fuel' st2
                | None => Failed
                end
            end
      end
  end.

Definition init_state : state :=
  {| queue := [ {| e_prio := 0; e_count := 0; e_node := source; e_dist := 0;
                   e_parent := None |} ];
     counter := 1; enqueued := ∅; explored := ∅ |}.

(** Modelled from the spec: [networkx.astar_path(G, source, target,
    heuristic, weight)] (section 4.5). *)
Definition astar_path (fuel : nat) : outcome := search fuel init_state.

End AStar.

End PathSearch.
Export PathSearch.

(** ** The route endpoint *)

Module Route.

Record RouteRequest : Type := {
  origin_lat : R;
  origin_lon : R;
  dest_lat : R;
  dest_lon : R;
  place : option string;
  mode : string;
  force_refresh : bool;
  route_pref : string;
  extra_danger : option (list danger_item)
}.

(** [str.lower] on a string of ASCII characters: the letters A-Z become a-z. *)
Definition lower_char (c : Ascii.ascii) : Ascii.ascii :=
  let n := Ascii.nat_of_ascii c in
  if (65 <=? n)%nat && (n <=? 90)%nat then Ascii.ascii_of_nat (n + 32) else c.

Fixpoint lower (s : string) : string :=
  match s with
  | EmptyString => EmptyString
  | String c rest => String (lower_char c) (lower rest)
  end.

(** Lines 332-334: the policy after the alias. *)
Definition normalize_pref (pref : string) : string :=
  let p := lower (if String.eqb pref "" then "short"%string else pref) in
  if String.eqb p "fast" then "short"%string else p.

(** The collaborators (OSMnx and shapely): graph acquisition with its cache
    ([_load_graph] followed by [add_edge_lengths]), projection, snapping of
    the two end points, and the merge of the edge geometries of a route into
    coordinate lists (lines 136-162).  [None] is an exception. *)
Record osm : Type := {
  load_graph : option string -> string -> option (R * R * R * R) -> bool -> option street_graph;
  project_graph : street_graph -> option street_graph;
  nearest_nodes : street_graph -> R * R -> R * R -> option (node * node);
  merge_lines : street_graph -> list node -> option (list (list (R * R)))
}.

(** The heuristic [h] of lines 487-492, on the projected graph. *)
Definition h (Gp : street_graph) (u v : node) : R :=
  match n_x (g_nodes Gp u), n_y (g_nodes Gp u), n_x (g_nodes Gp v), n_y (g_nodes Gp v) with
  | Some ux, Some uy, Some vx, Some vy => hypot (ux - vx) (uy - vy)
  | _, _, _, _ => 0
  end.

(** *** [_route_to_geojson]: the steps and the distance *)

(** [round(x, 1)]: to the nearest tenth, ties to the even one. *)
Definition round_half_even (y : R) : Z :=
  let f := Int_part y in
  let r := y - IZR f in
  if decide (r < 1 / 2) then f
  else if decide (r > 1 / 2) then (f + 1)%Z
  else if Z.even f then f else (f + 1)%Z.

Definition round1 (x : R) : R := IZR (round_half_even (x * 10)) / 10.

(** [min(d.values(), key=lambda d: d.get("length", 0))]: the first of the
    parallel edges with the least key. *)
Definition key_length (a : edge_attrs) : R := default 0 (length a).

Definition min_by_length (attrs : multi_edge) : option edge_attrs :=
  match attrs with
  | [] => None
  | (_, a) :: rest =>
      Some (fold_left (fun m ka => if decide (key_length (snd ka) < key_length m) then snd ka else m)
                      rest a)
  end.

Record route_step : Type := {
  s_from : node;
  s_to : node;
  s_street : string;
  s_length_m : R
}.

Inductive route_geometry : Type :=
| LineString (coordinates : list (R * R))
| MultiLineString (coordinates : list (list (R * R))).

Record artifact : Type := {
  distance_m : R;
  steps : list route_step;
  geometry : route_geometry
}.

(** Lines 181-182: one part is a LineString, several are a MultiLineString;
    [coords[0]] raises when there is none. *)
Definition geometry_of (coords : list (list (R * R))) : option route_geometry :=
  match coords with
  | [] => None
  | [c] => Some (LineString c)
  | _ => Some (MultiLineString coords)
  end.

(** The loop of lines 167-172 on the pairs of consecutive nodes: the steps
    and [total_len]; [None] when a pair has no edge. *)
Fixpoint walk_steps (G : street_graph) (route_nodes : list node)
  : option (list route_step * R) :=
  match route_nodes with
  | u :: ((v :: _) as rest) =>
      match get_edge_data G u v with
      | None => None
      | Some attrs =>
          match min_by_length attrs, walk_steps G rest with
          | Some data, Some (steps, total) =>
              let len := key_length data in
              Some ({| s_from := u; s_to := v;
                       s_street := default "unnamed"%string (name data);
                       s_length_m := round1 len |} :: steps,
                    len + total)
          | _, _ => None
          end
      end
  | _ => Some ([], 0)
  end.

Definition total_len (G : street_graph) (route_nodes : list node) : option R :=
  snd <$> walk_steps G route_nodes.

Definition _route_to_geojson (env : osm) (G : street_graph) (route_nodes : list node)
  : option artifact :=
  match merge_lines env G route_nodes, walk_steps G route_nodes with
  | Some coords, Some (steps, total) =>
      match geometry_of coords with
      | Some g => Some {| distance_m := round1 total; steps := steps; geometry := g |}
      | None => None
      end
  | _, _ => None
  end.

(** *** [route] *)

Inductive route_result : Type :=
| Routed (a : artifact)
| HttpError (status : Z)
| Unfinished.

Definition valid_mode (m : string) : bool :=
  String.eqb m "walk" || String.eqb m "bike" || String.eqb m "drive".

(** The weight given to [astar_path] (line 498). *)
Definition search_weight (pref : string) (G : street_graph) (lights : list light)
    (ped_pts : list hazard) (u v : node) (attrs : multi_edge) : option R :=
  if String.eqb pref "short" then length_weight attrs
  else _edge_weight pref G lights ped_pts u v attrs.

(** The search itself, from the snapped nodes, and the assembly. *)
Definition find_route (fuel : nat) (env : osm) (pref : string) (G Gp : street_graph)
    (lights : list light) (ped_pts : list hazard) (orig dest : node) : route_result :=
  match astar_path (g_succ Gp) (search_weight pref G lights ped_pts) (h Gp) orig dest fuel with
  | Found route_nodes =>
      match _route_to_geojson env G route_nodes with
      | Some a => Routed a
      | None => HttpError 500
      end
  | NoPath => HttpError 404
  | Failed => HttpError 500
  | OutOfFuel => Unfinished
  end.

Definition route (fuel : nat) (env : osm) (req : RouteRequest) (fs : files) (p : proc)
  : route_result * proc :=
  let mode := lower (mode req) in
  if negb (valid_mode mode) then (HttpError 400, p)
  else
    let no_place := match place req with None => true | Some s => String.eqb s "" end in
    let bbox :=
      if no_place then
        Some (py_max (origin_lat req) (dest_lat req) + 5 / 100,
              py_min (origin_lat req) (dest_lat req) - 5 / 100,
              py_max (origin_lon req) (dest_lon req) + 5 / 100,
              py_min (origin_lon req) (dest_lon req) - 5 / 100)
      else None in
    match load_graph env (place req) mode bbox (force_refresh req) with
    | None => (HttpError 500, p)
    | Some G =>
        let Gp := default G (project_graph env G) in
        let pref := normalize_pref (route_pref req) in
        let '(gj_l, p1) := _load_lighting_cached fs p in
        let lights_pts := lights_of_document gj_l in
        let '(r, p2) := gather_danger (extra_danger req) fs p1 in
        let ped_pts := deref r p2 in
        match nearest_nodes env Gp (origin_lon req, origin_lat req)
                                   (dest_lon req, dest_lat req) with
        | None => (HttpError 422, p2)
        | Some (orig, dest) =>
            (find_route fuel env pref G Gp lights_pts ped_pts orig dest, p2)
        end
    end.

End Route.
Export Route.

(** * Specification-side definitions *)

Module Spec.

(** "Clamped to [0, 1]". *)
Definition clamp01 (sc : R) : R := Rmax 0 (Rmin 1 sc).

(** A GeoJSON Point feature at [(lon, lat)] whose properties are [props]. *)
Definition point_feature (lon lat : R) (props : list (string * pyval)) : feature :=
  {| f_geometry := Val {| g_type := Val "Point"%string; g_coordinates := Val [lon; lat] |};
     f_properties := Val props |}.

(** *** The points of a collection, in the words of the claims *)

(** The dict [props] holds [v] under the key [k]; it holds nothing under [k]. *)
Definition binds (props : list (string * pyval)) (k : string) (v : pyval) : Prop :=
  exists before after, props = before ++ (k, v) :: after /\ ~ In k (map fst before).

Definition unbound (props : list (string * pyval)) (k : string) : Prop :=
  ~ In k (map fst props).

(** The properties of a feature: none when the key is absent or null. *)
Definition props_of (f : feature) : list (string * pyval) :=
  match f_properties f with
  | Val d => d
  | _ => []
  end.

(** The input score of a hazard feature: its ["safety_score"], else its
    ["score"], else 1.0. *)
Inductive input_score (props : list (string * pyval)) : pyval -> Prop :=
| score_safety (v : pyval) : binds props "safety_score" v -> input_score props v
| score_plain (v : pyval) :
    unbound props "safety_score" -> binds props "score" v -> input_score props v
| score_default :
    unbound props "safety_score" -> unbound props "score" -> input_score props (VNum 1).

(** The input score of a pedestrians feature: its ["safety_score"] when it
    is there and reads as a number, else 0. *)
Inductive ped_input_score (props : list (string * pyval)) : R -> Prop :=
| ped_score_read (v : pyval) (sc : R) :
    binds props "safety_score" v -> py_float v = Some sc -> ped_input_score props sc
| ped_score_unread (v : pyval) :
    binds props "safety_score" v -> py_float v = None -> ped_input_score props 0
| ped_score_default : unbound props "safety_score" -> ped_input_score props 0.

(** [f] is a Point feature with the position [(lon, lat)]; [f] is no Point
    feature with a position. *)
Definition point_at (f : feature) (lon lat : R) : Prop :=
  exists g more, f_geometry f = Val g /\ g_type g = Val "Point"%string /\
                 g_coordinates g = Val (lon :: lat :: more).

Definition no_point (f : feature) : Prop := forall lon lat, ~ point_at f lon lat.

(** The Point features of a collection, each as [(lon, lat, input score)],
    in their order; the other features count for nothing. *)
Inductive points_of : list feature -> list (R * R * R) -> Prop :=
| points_nil : points_of [] []
| points_point (f : feature) (lon lat : R) (v : pyval) (sc : R)
    (feats : list feature) (pts : list (R * R * R)) :
    point_at f lon lat -> input_score (props_of f) v -> py_float v = Some sc ->
    points_of feats pts -> points_of (f :: feats) ((lon, lat, sc) :: pts)
| points_other (f : feature) (feats : list feature) (pts : list (R * R * R)) :
    no_point f -> points_of feats pts -> points_of (f :: feats) pts.

(** A point given as a dict: ["lat"] and ["lon"] read as numbers, and the
    ["score"], 1.0 when there is none. *)
Definition dict_point (d : list (string * pyval)) (lat lon sc : R) : Prop :=
  exists vlat vlon v,
    binds d "lat" vlat /\ py_float vlat = Some lat /\
    binds d "lon" vlon /\ py_float vlon = Some lon /\
    (binds d "score" v \/ (unbound d "score" /\ v = VNum 1)) /\ py_float v = Some sc.


(** The point [(lon, lat, sc)] as it is stored, and as it is used. *)
Definition stored_point (pt : R * R * R) : feature :=
  let '(lon, lat, sc) := pt in
  point_feature lon lat [("score"%string, VNum (clamp01 sc))].

Definition used_point (pt : R * R * R) : hazard :=
  let '(lon, lat, sc) := pt in (lat, lon, clamp01 sc).

(** *** The mode of a request *)

(** [s] is made of ASCII characters. *)
Definition ascii_only (s : string) : Prop :=
  Forall (fun c => (Ascii.nat_of_ascii c < 128)%nat) (list_ascii_of_string s).

(** A capital letter with its small letter. *)
Definition letter_pairs : list (Ascii.ascii * Ascii.ascii) :=
  combine (list_ascii_of_string "ABCDEFGHIJKLMNOPQRSTUVWXYZ")
          (list_ascii_of_string "abcdefghijklmnopqrstuvwxyz").

(** [s] spells the word [w], written in small letters, in any case of its
    letters. *)
Definition spells (s w : string) : Prop :=
  Forall2 (fun c d => c = d \/ In (c, d) letter_pairs)
          (list_ascii_of_string s) (list_ascii_of_string w).

(** [req] with another routing policy. *)
Definition with_pref (pref : string) (req : RouteRequest) : RouteRequest :=
  {| origin_lat := origin_lat req; origin_lon := origin_lon req;
     dest_lat := dest_lat req; dest_lon := dest_lon req;
     place := place req; mode := mode req; force_refresh := force_refresh req;
     route_pref := pref; extra_danger := extra_danger req |}.

End Spec.
Export Spec.


(** * Concrete inputs *)

Module Examples.

(** A hazards file with one point, a pedestrians file with none. *)
Definition hz1 : hazard := (4738 / 100, 853 / 100, 9 / 10).

Definition hz1_feature : feature :=
  point_feature (853 / 100) (4738 / 100) [("score"%string, VNum (9 / 10))].

Definition fs_empty : files :=
  {| hazards_file := None; pedestrians_files := [None; None]; lighting_cache_file := None |}.

Definition fs_hazard : files :=
  {| hazards_file := Some (Doc (Val [hz1_feature]));
     pedestrians_files := [Some (1, Doc (Val [])); None];
     lighting_cache_file := None |}.

(** [fs_hazard] after DELETE /hazards. *)
Definition fs_hazard_deleted : files :=
  {| hazards_file := delete_hazards (hazards_file fs_hazard);
     pedestrians_files := pedestrians_files fs_hazard;
     lighting_cache_file := lighting_cache_file fs_hazard |}.

(** The [extra_danger] of a request, as the request model parses it. *)
Definition extra1 : list danger_item :=
  [DPModel {| dp_lat := 4738 / 100; dp_lon := 853 / 100; dp_score := 95 / 100 |}].

(** Two nodes one degree of longitude apart on the equator, and a graph in
    which both nodes sit on the same spot. *)
Definition attrs_of (len : R) : multi_edge :=
  [(KInt 0, {| length := Some len; name := None |})].

Definition two_nodes (len : R) : street_graph :=
  {| g_succ := fun u => if Z.eqb u 1 then [(2%Z, attrs_of len)] else [];
     g_nodes := fun u => if Z.eqb u 1 then {| n_y := Some 0; n_x := Some 0 |}
                         else {| n_y := Some 0; n_x := Some 1 |} |}.

Definition same_spot (len : R) : street_graph :=
  {| g_succ := fun u => if Z.eqb u 1 then [(2%Z, attrs_of len)] else [];
     g_nodes := fun _ => {| n_y := Some 0; n_x := Some 0 |} |}.

(** Three nodes: a direct edge 1 -> 3 of length 10 and a detour 1 -> 2 -> 3
    of length 1 + 1; the northing of a node is its number, [x2] is the easting
    of node 2 in the projected graph (the other eastings are 0). *)
Definition detour_succ (u : node) : list (node * multi_edge) :=
  if Z.eqb u 1 then [(3%Z, attrs_of 10); (2%Z, attrs_of 1)]
  else if Z.eqb u 2 then [(3%Z, attrs_of 1)]
  else [].

Definition detour : street_graph :=
  {| g_succ := detour_succ;
     g_nodes := fun u => {| n_y := Some (IZR u); n_x := Some 0 |} |}.

Definition detour_projected (x2 : R) : street_graph :=
  {| g_succ := detour_succ;
     g_nodes := fun u => {| n_y := Some (IZR u);
                            n_x := Some (if Z.eqb u 2 then x2 else 0) |} |}.

(** Collaborators that serve [detour]: the projection moves node 2 to the
    easting [x2], the end points snap to nodes 1 and 3, and the route
    geometry is the line through the nodes. *)
Definition node_point (G : street_graph) (u : node) : R * R :=
  (default 0 (n_x (g_nodes G u)), default 0 (n_y (g_nodes G u))).

Definition detour_osm (x2 : R) : osm :=
  {| load_graph := fun _ _ _ _ => Some detour;
     project_graph := fun _ => Some (detour_projected x2);
     nearest_nodes := fun _ _ _ => Some (1%Z, 3%Z);
     merge_lines := fun G route_nodes => Some [map (node_point G) route_nodes] |}.

(** The response for the route 1 -> 2 -> 3 of [detour]. *)
Definition detour_artifact : artifact :=
  {| distance_m := round1 (1 + (1 + 0));
     steps := [ {| s_from := 1; s_to := 2; s_street := "unnamed"; s_length_m := round1 1 |};
                {| s_from := 2; s_to := 3; s_street := "unnamed"; s_length_m := round1 1 |} ];
     geometry := LineString [(0, 1); (0, 2); (0, 3)] |}.

(** A request across [detour] under the "short" policy. *)
Definition detour_request : RouteRequest :=
  {| origin_lat := 1; origin_lon := 0; dest_lat := 3; dest_lon := 0;
     place := None; mode := "walk"; force_refresh := true;
     route_pref := "short"; extra_danger := None |}.

End Examples.
Export Examples.

(** * The cost terms as the specification words them *)

Module CostSpec.

Definition Rsum (l : list R) : R := fold_right Rplus 0 l.

Definition average (l : list R) : R := Rsum l / INR (List.length l).

(** The Gaussian kernel of bandwidth [sigma] at distance [d]. *)
Definition gaussian (sigma d : R) : R := exp (- (d * d) / (2 * (sigma * sigma))).

(** The sample points of an edge whose end nodes have coordinates. *)
Definition edge_samples (G : street_graph) (u v : node) : option (list (R * R)) :=
  match edge_coords G u v with
  | Some (uy, ux, vy, vx) =>
      Some (samples uy ux vy vx (sample_count (_haversine (uy, ux) (vy, vx))))
  | None => None
  end.

(** Lighting density at a sample: the kernel summed over the lights within
    four bandwidths. *)
Definition lighting_density_at (lights : list light) (loc : R * R) : R :=
  Rsum (map (fun l => gaussian 40 (_haversine loc l))
            (List.filter (fun l => bool_decide (_haversine loc l <= 4 * 40)) lights)).

Definition density_spec (G : street_graph) (lights : list light) (u v : node) : R :=
  match edge_samples G u v with
  | Some pts => average (map (lighting_density_at lights) pts)
  | None => 0
  end.

(** Darkness term from a density: [(1 / (eps + alpha * density)) * penaltyFactor]. *)
Definition darkness_of (dens : R) : R :=
  (1 / (1 / 1000000 + 3 * dens)) * (if decide (dens < 5 / 100) then 2 else 1).

(** Hazard density at a sample: [score^2 * kernel] summed over the hazard
    points within 100 m. *)
Definition hazard_density_at (ped_pts : list hazard) (loc : R * R) : R :=
  Rsum (map (fun hz : hazard => snd hz ^ 2 * gaussian 30 (_haversine loc (fst hz)))
            (List.filter (fun hz : hazard => bool_decide (_haversine loc (fst hz) <= 100)) ped_pts)).

(** Some hazard point that [high] rates as high risk lies within 100 m of
    some sample. *)
Definition high_risk_near (high : R -> bool) (ped_pts : list hazard) (pts : list (R * R)) : bool :=
  existsb (fun loc =>
             existsb (fun hz : hazard =>
                        high (snd hz) && bool_decide (_haversine loc (fst hz) <= 100)) ped_pts)
          pts.

(** Hazard term: weight 6 on the per-sample average, plus the penalty 20. *)
Definition hazard_of (high : R -> bool) (ped_pts : list hazard) (pts : list (R * R)) : R :=
  6 * average (map (hazard_density_at ped_pts) pts)
  + (if high_risk_near high ped_pts pts then 20 else 0).

(** "Score above 0.85" and "score at least 0.85". *)
Definition above_threshold (s : R) : bool := bool_decide (s > 85 / 100).
Definition at_least_threshold (s : R) : bool := bool_decide (s >= 85 / 100).

(** A hazard point that raises the peak at a sample. *)
Definition risky (loc : R * R) (hz : hazard) : bool :=
  at_least_threshold (snd hz) && bool_decide (_haversine loc (fst hz) <= 100).

Definition hazard_spec (high : R -> bool) (G : street_graph) (ped_pts : list hazard)
    (u v : node) : R :=
  match edge_samples G u v with
  | Some pts => hazard_of high ped_pts pts
  | None => 0
  end.

End CostSpec.
Export CostSpec.

(** * Walks, and the invariant of the A-star loop *)

Module AstarInv.

Section Inv.

Context {E : Type}.
Variable succ : node -> list (node * E).
Variable weight : node -> node -> E -> option R.
Variable heuristic : node -> node -> R.
Variables source target : node.

(** A walk from [u] to [t] along edges whose weight is defined, with its cost. *)
Inductive walk : node -> node -> R -> Prop :=
| walk_nil (u : node) : walk u u 0
| walk_step (u v t : node) (e : E) (c r : R) :
    In (v, e) (succ u) -> weight u v e = Some c -> walk v t r -> walk u t (c + r).

(** The same, with the nodes it goes through. *)
Inductive nwalk : list node -> node -> R -> Prop :=
| nwalk_one (u : node) : nwalk [u] u 0
| nwalk_snoc (l : list node) (u v : node) (e : E) (c r : R) :
    nwalk l u r -> In (v, e) (succ u) -> weight u v e = Some c ->
    nwalk (l ++ [v]) v (r + c).

(** The heuristic never drops by more than the weight of an edge. *)
Definition consistent : Prop :=
  forall (u v : node) (e : E) (c : R),
    In (v, e) (succ u) -> weight u v e = Some c ->
    heuristic u target <= c + heuristic v target.

(** The node list that the parents in [expl] give for [v]. *)
Inductive chain (expl : gmap Z (option node)) : node -> list node -> Prop :=
| chain_source : expl !! source = Some None -> chain expl source [source]
| chain_step (v p : node) (l : list node) :
    expl !! v = Some (Some p) -> chain expl p l -> chain expl v (l ++ [v]).

(** The cost at which a node was reached: 0 for the source, else the cost
    in [enqueued]. *)
Definition gval (st : state) (v : node) : R :=
  if decide (v = source) then 0
  else match enqueued st !! v with Some (q, _) => q | None => 0 end.

(** [v] is explored, or waits in the queue at a cost of at most [d]. *)
Definition covered (st : state) (v : node) (d : R) : Prop :=
  is_Some (explored st !! v) \/
  exists x, In x (queue st) /\ e_node x = v /\ e_dist x <= d.

(** A queue entry comes from an explored parent along an edge. *)
Definition good_entry (st : state) (x : entry) : Prop :=
  exists (p : node) (e : E) (c q : R),
    e_parent x = Some p /\ is_Some (explored st !! p) /\
    In (e_node x, e) (succ p) /\ weight p (e_node x) e = Some c /\
    e_dist x = gval st p + c /\
    e_prio x = e_dist x + heuristic (e_node x) target /\
    enqueued st !! e_node x = Some (q, heuristic (e_node x) target) /\
    q <= e_dist x.

(** The invariant of the loop once the source is explored; [rest] holds the
    edges out of [cur] that the inner loop has still to look at. *)
Record run_inv (cur : node) (rest : list (node * E)) (st : state) : Prop := {
  ri_source : explored st !! source = Some None;
  ri_root : forall v, explored st !! v = Some None -> v = source;
  ri_target : explored st !! target = None;
  ri_chain : forall v, is_Some (explored st !! v) ->
      exists l, chain (explored st) v l /\ nwalk l v (gval st v) /\
                (List.length l <= size (explored st))%nat /\
                hd_error l = Some source;
  ri_optimal : forall v r, is_Some (explored st !! v) -> walk source v r -> gval st v <= r;
  ri_enq : forall v, is_Some (explored st !! v) -> v <> source ->
      is_Some (enqueued st !! v);
  ri_queue : forall x, In x (queue st) -> good_entry st x;
  ri_stale : forall x, In x (queue st) -> is_Some (explored st !! e_node x) ->
      e_node x <> source -> gval st (e_node x) < e_dist x;
  ri_distinct : NoDup (map (fun x => (e_node x, e_dist x)) (queue st));
  ri_enqueued : forall v q h', enqueued st !! v = Some (q, h') ->
      h' = heuristic v target /\
      (is_Some (explored st !! v) \/
       exists x, In x (queue st) /\ e_node x = v /\ e_dist x = q);
  ri_cover : forall u v e c, is_Some (explored st !! u) ->
      In (v, e) (succ u) -> weight u v e = Some c ->
      (u = cur /\ In (v, e) rest) \/ covered st v (gval st u + c);
  ri_cur : is_Some (explored st !! cur);
  ri_rest : forall ve, In ve rest -> In ve (succ cur)
}.

(** The edges out of the nodes of [nodes] that are not explored yet, and
    the measure that bounds the rounds the loop still has to make. *)
Definition unexplored_edges (nodes : list node) (expl : gmap Z (option node)) : nat :=
  list_sum (map (fun u => match expl !! u with
                          | None => List.length (succ u)
                          | Some _ => O
                          end) nodes).

Definition rounds_left (nodes : list node) (st : state) : nat :=
  (List.length (queue st) + unexplored_edges nodes (explored st))%nat.

(** [nodes] holds every node an edge leads to. *)
Definition closed_under_succ (nodes : list node) : Prop :=
  forall (u v : node) (e : E), In (v, e) (succ u) -> In v nodes.

End Inv.

(** *** Walks of a street graph under the "short" policy *)

Definition by_length (u v : node) (attrs : multi_edge) : option R := length_weight attrs.

(** A walk of [G] along its edges, weighted by their lengths. *)
Definition route_walk (G : street_graph) : node -> node -> R -> Prop :=
  walk (g_succ G) by_length.

(** The adjacency is a dict (each neighbour once) and every edge carries a length. *)
Definition well_formed (G : street_graph) : Prop :=
  forall u : node,
    NoDup (map fst (g_succ G u)) /\
    forall v attrs, In (v, attrs) (g_succ G u) ->
                    Forall (fun ka : pykey * edge_attrs => is_Some (length (snd ka))) attrs.

(** The heuristic [h] of the projected graph never drops by more than the
    length of an edge. *)
Definition consistent_heuristic (G Gp : street_graph) (dest : node) : Prop :=
  consistent (g_succ G) by_length (h Gp) dest.

End AstarInv.
Export AstarInv.

(** * Further definitions: the rest of the back end *)

Module GeoFacts.

(** The quantity [a] of [_haversine]: the haversine of the central angle. *)
Definition hav_a (u v : R * R) : R :=
  sin ((radians (fst v) - radians (fst u)) / 2) ^ 2
  + cos (radians (fst u)) * cos (radians (fst v))
    * sin ((radians (snd v) - radians (snd u)) / 2) ^ 2.

End GeoFacts.
Export GeoFacts.


Module RouteFacts.

(** [req] with another list of extra danger points. *)
Definition with_extra_danger (extra : option (list danger_item)) (req : RouteRequest)
  : RouteRequest :=
  {| origin_lat := origin_lat req; origin_lon := origin_lon req;
     dest_lat := dest_lat req; dest_lon := dest_lon req;
     place := place req; mode := mode req; force_refresh := force_refresh req;
     route_pref := route_pref req; extra_danger := extra |}.

End RouteFacts.
Export RouteFacts.

(** ** JSON values, [_bbox_filter] and the results of [geocode] *)

Module Json.

(** A value as [json.loads] gives it; an object is a dict, so each key
    occurs once. *)
#[warnings="-register-all"]
Inductive json : Type :=
| JNull
| JBool (b : bool)
| JNum (r : R)
| JStr (s : string)
| JArr (l : list json)
| JObj (d : list (string * json)).

(** The truth value of [v], as in [v or dflt]. *)
Definition truthy (v : json) : bool :=
  match v with
  | JNull => false
  | JBool b => b
  | JNum r => negb (bool_decide (r = 0))
  | JStr s => negb (String.eqb s "")
  | JArr l => match l with [] => false | _ => true end
  | JObj d => match d with [] => false | _ => true end
  end.

(** [v.get(k)]: Python's None for a missing key; [None] is the
    AttributeError of a value that is no dict. *)
Definition py_get (v : json) (k : string) : option json :=
  match v with
  | JObj d => Some (default JNull (dict_get d k))
  | _ => None
  end.

(** [v[k]] for a string [k]: [None] is the KeyError or TypeError. *)
Definition py_item (v : json) (k : string) : option json :=
  match v with
  | JObj d => dict_get d k
  | _ => None
  end.

(** [v == s] for a string literal [s]. *)
Definition is_str (v : json) (s : string) : bool :=
  match v with
  | JStr t => String.eqb t s
  | _ => false
  end.

(** [for x in v]: the elements of a list, the characters of a string, the
    keys of a dict; [None] is the TypeError. *)
Definition py_iter (v : json) : option (list json) :=
  match v with
  | JArr l => Some l
  | JStr s => Some (map (fun c => JStr (String c EmptyString)) (list_ascii_of_string s))
  | JObj d => Some (map (fun kv => JStr (fst kv)) d)
  | _ => None
  end.

(** [v[:2]]. *)
Definition slice2 (v : json) : option json :=
  match v with
  | JArr l => Some (JArr (take 2 l))
  | JStr s => Some (JStr (substring 0 2 s))
  | _ => None
  end.

(** [a, b = v]. *)
Definition unpack2 (v : json) : option (json * json) :=
  match py_iter v with
  | Some [a; b] => Some (a, b)
  | _ => None
  end.

(** The number a float is compared with; [None] is the TypeError. *)
Definition num_of (v : json) : option R :=
  match v with
  | JNum r => Some r
  | JBool b => Some (if b then 1 else 0)
  | _ => None
  end.

(** [lo <= v <= hi]. *)
Definition py_between (lo : R) (v : json) (hi : R) : option bool :=
  match num_of v with
  | Some x => Some (bool_decide (lo <= x) && bool_decide (x <= hi))
  | None => None
  end.

End Json.
Export Json.

Module BboxFilter.

(** [minx, miny, maxx, maxy]. *)
Definition bbox : Type := R * R * R * R.

(** [lon, lat = p[:2]] and the test
    [(minx <= lon <= maxx) and (miny <= lat <= maxy)]. *)
Definition in_box (b : bbox) (p : json) : option bool :=
  let '(minx, miny, maxx, maxy) := b in
  match slice2 p with
  | None => None
  | Some s =>
      match unpack2 s with
      | None => None
      | Some (lon, lat) =>
          match py_between minx lon maxx with
          | None => None
          | Some false => Some false
          | Some true => py_between miny lat maxy
          end
      end
  end.

(** The nested loops of [iter_coords] over [l]: the values yielded, and
    whether the iteration raises after them. *)
Fixpoint flatten_iter (l : list json) : list json * bool :=
  match l with
  | [] => ([], false)
  | ring :: rest =>
      match py_iter ring with
      | None => ([], true)
      | Some ps => let '(qs, raised) := flatten_iter rest in (ps ++ qs, raised)
      end
  end.

(** The generator [iter_coords], for the type [t] and the coordinates [c]
    of the geometry. *)
Definition iter_coords (t c : json) : list json * bool :=
  if is_str t "Point" then ([c], false)
  else if is_str t "MultiPoint" || is_str t "LineString" then
    match py_iter c with
    | Some ps => (ps, false)
    | None => ([], true)
    end
  else if is_str t "MultiLineString" || is_str t "Polygon" then
    match py_iter c with
    | Some rings => flatten_iter rings
    | None => ([], true)
    end
  else if is_str t "MultiPolygon" then
    match py_iter c with
    | Some polys =>
        let '(rings, r1) := flatten_iter polys in
        let '(ps, r2) := flatten_iter rings in
        (ps, r2 || r1)
    | None => ([], true)
    end
  else ([], false).

(** The loop [for p in iter_coords(geom)]: [Some true] at the first
    position in the box, [None] when something raises before. *)
Fixpoint any_in_box (b : bbox) (ps : list json) (raised : bool) : option bool :=
  match ps with
  | [] => if raised then None else Some false
  | p :: rest =>
      match in_box b p with
      | None => None
      | Some true => Some true
      | Some false => any_in_box b rest raised
      end
  end.

(** The body of the [try]: whether [f] is appended to [out]. *)
Definition keeps (b : bbox) (f : json) : bool :=
  match py_get f "geometry" with
  | None => false
  | Some g =>
      let geom := if truthy g then g else JObj [] in
      match py_get geom "type" with
      | None => false
      | Some t =>
          if is_str t "Point" then
            match py_item geom "coordinates" with
            | None => false
            | Some c => default false (in_box b c)
            end
          else if is_str t "LineString" || is_str t "MultiPoint" || is_str t "MultiLineString"
                  || is_str t "Polygon" || is_str t "MultiPolygon" then
            let '(ps, raised) := iter_coords t (default JNull (py_get geom "coordinates")) in
            default false (any_in_box b ps raised)
          else false
      end
  end.

(** [_bbox_filter(features, bbox)]; [None] is a [bbox] that is None. *)
Definition _bbox_filter (features : list json) (b : option bbox) : list json :=
  match b with
  | None => features
  | Some b => fold_left (fun out f => if keeps b f then out ++ [f] else out) features []
  end.

(** A GeoJSON feature with a geometry of type [t] and coordinates [c]. *)
Definition geo_feature (t : string) (c : json) : json :=
  JObj [("type"%string, JStr "Feature");
        ("geometry"%string, JObj [("type"%string, JStr t); ("coordinates"%string, c)])].

(** A position [lon, lat]. *)
Definition position (lon lat : R) : json := JArr [JNum lon; JNum lat].

Definition inside (b : bbox) (lon lat : R) : Prop :=
  let '(minx, miny, maxx, maxy) := b in
  minx <= lon <= maxx /\ miny <= lat <= maxy.

End BboxFilter.
Export BboxFilter.

Module Geocode.

(** An entry of the answer of [geocode]. *)
Record place_hit : Type := {
  display_name : string;
  lat : R;
  lon : R
}.

Section Results.

(** [float(s)] on a string: [None] is the ValueError. *)
Variable float_of_str : string -> option R.

Definition json_float (v : json) : option R :=
  match v with
  | JNum r => Some r
  | JBool b => Some (if b then 1 else 0)
  | JStr s => float_of_str s
  | _ => None
  end.

(** The viewbox [8.45,47.46,8.65,47.32]: left, top, right, bottom. *)
Definition view_l : R := 845 / 100.
Definition view_t : R := 4746 / 100.
Definition view_r : R := 865 / 100.
Definition view_b : R := 4732 / 100.

(** One round of the loop of lines 746-763: the entry appended, if any. *)
Definition hit_of (d : json) : option place_hit :=
  match py_item d "lat" with
  | None => None
  | Some vlat =>
      match json_float vlat with
      | None => None
      | Some la =>
          match py_item d "lon" with
          | None => None
          | Some vlon =>
              match json_float vlon with
              | None => None
              | Some lo =>
                  if negb (bool_decide (view_l <= lo) && bool_decide (lo <= view_r)
                           && (bool_decide (view_b <= la) && bool_decide (la <= view_t)))
                  then None
                  else
                    let a := default JNull (py_get d "address") in
                    let addr := if truthy a then a else JObj [] in
                    match addr with
                    | JObj _ =>
                        let dn := default JNull (py_get d "display_name") in
                        let display := if truthy dn then dn else JStr "" in
                        match display with
                        | JStr s => Some {| display_name := s; lat := la; lon := lo |}
                        | _ => None
                        end
                    | _ => None
                    end
              end
          end
      end
  end.

(** [round(x, 5)]. *)
Definition round5 (x : R) : R := IZR (round_half_even (x * 100000)) / 100000.

Definition hit_key (it : place_hit) : R * R := (round5 (lat it), round5 (lon it)).

(** The loop of lines 767-772 on [(seen, unique)]. *)
Definition dedupe_round (su : list (R * R) * list place_hit) (it : place_hit)
  : list (R * R) * list place_hit :=
  let '(seen, unique) := su in
  if bool_decide (hit_key it ∈ seen) then su
  else (hit_key it :: seen, unique ++ [it]).

(** [l[:k]]. *)
Definition py_take {A : Type} (k : Z) (l : list A) : list A :=
  if (k <? 0)%Z then take (List.length l - Z.to_nat (- k)) l else take (Z.to_nat k) l.

(** Lines 744-773 of [geocode]: from the answer of Nominatim to the list
    returned. *)
Definition geocode_results (data : list json) (limit : option Z) : list place_hit :=
  let out := omap hit_of data in
  let unique := snd (fold_left dedupe_round out ([], [])) in
  let n := match limit with
           | Some k => if (k =? 0)%Z then 7%Z else k
           | None => 7%Z
           end in
  py_take n unique.

End Results.

(** An entry inside the viewbox. *)
Definition in_view (it : place_hit) : Prop :=
  view_l <= lon it <= view_r /\ view_b <= lat it <= view_t.

End Geocode.
Export Geocode.
(** * Proofs *)

(** ** The clamps *)

Lemma clamp_cond_spec (sc : R) : clamp_cond sc = clamp01 sc.
Proof.
  unfold clamp_cond, clamp01, Rmax, Rmin.
  repeat (case_decide || destruct (Rle_dec _ _)); lra.
Qed.

Lemma clamp_seq_spec (sc : R) : clamp_seq sc = clamp01 sc.
Proof.
  unfold clamp_seq, clamp01, Rmax, Rmin.
  repeat (case_decide || destruct (Rle_dec _ _)); lra.
Qed.

Lemma clamp_maxmin_spec (sc : R) : clamp_maxmin sc = clamp01 sc.
Proof.
  unfold clamp_maxmin, py_max, py_min, clamp01, Rmax, Rmin.
  repeat (case_decide || destruct (Rle_dec _ _)); lra.
Qed.

Lemma clamp01_range (sc : R) : 0 <= clamp01 sc <= 1.
Proof.
  unfold clamp01, Rmax, Rmin. repeat destruct (Rle_dec _ _); lra.
Qed.

Lemma clamp01_high : clamp01 (17 / 10) = 1.
Proof. unfold clamp01, Rmax, Rmin. repeat destruct (Rle_dec _ _); lra. Qed.

Lemma clamp01_low : clamp01 (- 3 / 10) = 0.
Proof. unfold clamp01, Rmax, Rmin. repeat destruct (Rle_dec _ _); lra. Qed.

(** Every point [_load_hazards] returns has its score in [0, 1]. *)
Lemma load_hazard_features_range (feats : list feature) (pts : list hazard) :
  Forall (fun hz => 0 <= snd hz <= 1) pts ->
  Forall (fun hz => 0 <= snd hz <= 1) (load_hazard_features feats pts).
Proof.
  revert pts. induction feats as [|f feats IH]; intros pts Hpts; cbn; [done|].
  destruct (hazard_of_feature f) as [| |hz] eqn:Hf; auto.
  apply IH. apply Forall_app. split; [done|]. constructor; [|constructor].
  unfold hazard_of_feature in Hf.
  destruct (negb _); [done|]. destruct (hazard_coords f) as [|lon [|lat ?]]; try done.
  destruct (py_float _); [|done]. injection Hf as <-. cbn.
  rewrite clamp_cond_spec. apply clamp01_range.
Qed.

Lemma load_hazards_range (file : option document) :
  Forall (fun hz => 0 <= snd hz <= 1) (_load_hazards file).
Proof.
  destruct file as [[|[| |feats]]|]; cbn; try constructor.
  apply load_hazard_features_range. constructor.
Qed.

Lemma extra_danger_points_range (l : list danger_item) :
  Forall (fun hz => 0 <= snd hz <= 1) (extra_danger_points l).
Proof.
  induction l as [|dp l IH]; cbn; [constructor|].
  destruct (danger_point_of dp) as [hz|] eqn:Hdp; [|constructor].
  constructor; [|done].
  unfold danger_point_of in Hdp. destruct (dp_get dp); [|done].
  repeat (destruct (py_float _); [|done]). injection Hdp as <-. cbn.
  rewrite clamp_seq_spec. apply clamp01_range.
Qed.

(** ** A saved collection read back *)

Lemma saved_feature_loads (it : item) :
  hazard_of_feature (saved_feature it) = Emit (it_lat it, it_lon it, clamp01 (it_score it)).
Proof.
  unfold hazard_of_feature, saved_feature. cbn.
  rewrite clamp_cond_spec, clamp_maxmin_spec.
  f_equal. f_equal.
  pose proof (clamp01_range (it_score it)) as Hr.
  unfold clamp01 at 1. unfold Rmax, Rmin. repeat destruct (Rle_dec _ _); lra.
Qed.

Lemma load_saved_features (items : list item) (pts : list hazard) :
  load_hazard_features (map saved_feature items) pts
  = pts ++ map (fun it => (it_lat it, it_lon it, clamp01 (it_score it))) items.
Proof.
  revert pts. induction items as [|it items IH]; intros pts; cbn [map load_hazard_features].
  - now rewrite app_nil_r.
  - rewrite saved_feature_loads, IH, <- app_assoc. reflexivity.
Qed.

Lemma load_after_save (items : list item) :
  _load_hazards (Some (_save_hazards items))
  = map (fun it => (it_lat it, it_lon it, clamp01 (it_score it))) items.
Proof. unfold _save_hazards. cbn. apply load_saved_features. Qed.

(** ** The danger set of a request *)

Lemma extra_danger_models_dropped (l : list DangerPoint) :
  extra_danger_points (map DPModel l) = [].
Proof. destruct l; reflexivity. Qed.

Lemma deref_extend (r : nat) (more : list hazard) (p : proc) :
  deref r (extend r more p) = deref r p ++ more.
Proof. unfold deref at 1, extend. cbn. now rewrite lookup_insert_eq. Qed.

Lemma deref_alloc (l : list hazard) (p : proc) :
  deref (fst (alloc l p)) (snd (alloc l p)) = l.
Proof. unfold deref, alloc. cbn. now rewrite lookup_insert_eq. Qed.

(** When the pedestrians cache is warm, the list a request gets is the
    cached list itself, and what the request adds stays in it. *)
Lemma gather_danger_warm (extra : option (list danger_item)) (fs : files) (p : proc)
    (mtime : R) (doc : document) (r : nat) :
  first_existing (pedestrians_files fs) = Some (mtime, doc) ->
  ped_cache_pts p = Some r ->
  ped_cache_mtime p = Some mtime ->
  fst (gather_danger extra fs p) = r /\
  ped_cache_pts (snd (gather_danger extra fs p)) = Some r /\
  ped_cache_mtime (snd (gather_danger extra fs p)) = Some mtime /\
  deref r (snd (gather_danger extra fs p))
  = (deref r p ++ _load_hazards (hazards_file fs)) ++ extra_danger_points (default [] extra).
Proof.
  intros Hfile Hpts Hmt. unfold gather_danger, _load_pedestrians.
  rewrite Hfile, Hpts. rewrite decide_True by done. cbn [fst snd].
  repeat split; try done.
  now rewrite !deref_extend.
Qed.

(** C4: evaluation of the code at the two failing inputs.  (1) The ad hoc
    point of a request never reaches the danger set: [dp.get] raises on the
    request model and the loop is left.  (2) With a pedestrians file present,
    the points of the hazards file are appended to the cached pedestrians
    list, so a later request still sees a hazard that no file holds any
    more. *)
Theorem C4_danger_set_diverges :
  (let '(r, p) := gather_danger (Some extra1) fs_empty proc_init in deref r p = []) /\
  (let '(r1, p1) := gather_danger None fs_hazard proc_init in
   let '(r2, p2) := gather_danger None fs_hazard_deleted p1 in
   _load_hazards (hazards_file fs_hazard_deleted) = [] /\
   deref r1 p1 = [(4738 / 100, 853 / 100, clamp01 (9 / 10))] /\
   deref r2 p2 = [(4738 / 100, 853 / 100, clamp01 (9 / 10))]).
Proof.
  split.
  - unfold gather_danger. cbn. rewrite !deref_extend. cbn.
    unfold deref. cbn. now rewrite lookup_insert_eq.
  - destruct (gather_danger None fs_hazard proc_init) as [r1 p1] eqn:H1.
    assert (Hr1 : r1 = 0%nat /\ ped_cache_pts p1 = Some 0%nat /\
                  ped_cache_mtime p1 = Some 1 /\
                  deref 0 p1 = [(4738 / 100, 853 / 100, clamp01 (9 / 10))]).
    { unfold gather_danger in H1. cbn in H1. injection H1 as <- <-.
      repeat split. rewrite !deref_extend. unfold deref. cbn.
      rewrite lookup_insert_eq. cbn. now rewrite clamp_cond_spec. }
    destruct Hr1 as (-> & Hpts & Hmt & Hd).
    pose proof (gather_danger_warm None fs_hazard_deleted p1 1 (Doc (Val [])) 0
                  eq_refl Hpts Hmt) as (Hr2 & _ & _ & Hd2).
    destruct (gather_danger None fs_hazard_deleted p1) as [r2 p2].
    cbn [fst snd] in *. subst r2. split; [reflexivity|]. split; [done|].
    rewrite Hd2, Hd. reflexivity.
Qed.

(** ** The cost floor and the fallback *)

(** C2 as stated (every policy) fails: under "short" the cost is the length. *)
Lemma C2_short_cost_below_floor :
  ~ (forall (pref : string) (G : street_graph) (lights : list light)
            (ped_pts : list hazard) (u v : node) (attrs : multi_edge) (c : R),
        pref = "short"%string \/ pref = "safe"%string ->
        search_weight pref G lights ped_pts u v attrs = Some c -> 1 / 10 <= c).
Proof.
  intros H.
  specialize (H "short"%string (two_nodes (1 / 20)) [] [] 1%Z 2%Z (attrs_of (1 / 20)) (1 / 20)).
  cbn in H. specialize (H (or_introl eq_refl) eq_refl). lra.
Qed.

(** C2, amended: under "safe" with a lighting point set that is not empty,
    the cost of every edge is at least 0.1. *)
Theorem C2_safe_cost_floor (G : street_graph) (lights : list light)
    (ped_pts : list hazard) (u v : node) (attrs : multi_edge) (c : R) :
  lights <> [] ->
  search_weight "safe" G lights ped_pts u v attrs = Some c ->
  1 / 10 <= c.
Proof.
  intros Hl. unfold search_weight, _edge_weight. cbn.
  destruct (base_weight attrs); [|done].
  rewrite bool_decide_eq_false_2 by done. cbn.
  intros [= <-]. unfold py_max. case_decide; lra.
Qed.

Lemma C2_safe_cost_floor_witness :
  1 / 10 <= py_max (1 / 10) (dark_term (two_nodes 50) [(0, 0)] 1%Z 2%Z
                             + ped_term (two_nodes 50) [] 1%Z 2%Z).
Proof.
  apply (C2_safe_cost_floor (two_nodes 50) [(0, 0)] [] 1%Z 2%Z (attrs_of 50)).
  - discriminate.
  - reflexivity.
Defined.

(** C3: evaluation at the failing input.  With no lighting point the "safe"
    weight of an edge of length 1800 is 1.0, the default of
    [attrs.get("length", 1.0)], not the length. *)
Theorem C3_fallback_is_not_length :
  search_weight "safe" (two_nodes 1800) [] [] 1%Z 2%Z (attrs_of 1800) = Some 1 /\
  length_weight (attrs_of 1800) = Some 1800.
Proof. split; reflexivity. Qed.

(** Under "safe" with no lighting point, every edge whose parallel edges are
    keyed by integers weighs 1.0. *)
Lemma edge_weight_no_lights (G : street_graph) (ped_pts : list hazard) (u v : node)
    (attrs : multi_edge) :
  Forall (fun ka => exists k, fst ka = KInt k) attrs ->
  _edge_weight "safe" G [] ped_pts u v attrs = Some 1.
Proof.
  intros Hk. unfold _edge_weight, base_weight.
  assert (medge_get attrs (KStr "length") = None) as ->.
  { induction Hk as [|[k a] rest [z Hz] _ IH]; [done|]. cbn in Hz. subst k. cbn. exact IH. }
  reflexivity.
Qed.

(** ** The "fast" alias *)

Lemma normalize_pref_fast (pref : string) :
  lower pref = "fast"%string -> normalize_pref pref = "short"%string.
Proof.
  intros Hl. unfold normalize_pref.
  destruct (String.eqb_spec pref "") as [->|_]; [discriminate|].
  now rewrite Hl.
Qed.

(** C9: a request whose policy reads "fast" (in any letter case) gets the
    result of the same request with policy "short": same response, same
    process state. *)
Theorem C9_fast_is_short (fuel : nat) (env : osm) (req : RouteRequest)
    (fs : files) (p : proc) :
  lower (route_pref req) = "fast"%string ->
  route fuel env req fs p = route fuel env (with_pref "short" req) fs p.
Proof.
  intros Hfast. unfold route.
  cbn [with_pref mode place origin_lat origin_lon dest_lat dest_lon force_refresh
       route_pref extra_danger].
  rewrite (normalize_pref_fast _ Hfast).
  change (normalize_pref "short") with "short"%string.
  reflexivity.
Qed.

Lemma C9_fast_is_short_witness :
  route 3 (detour_osm 0) (with_pref "FAST" detour_request) fs_empty proc_init
  = route 3 (detour_osm 0) (with_pref "short" (with_pref "FAST" detour_request))
          fs_empty proc_init.
Proof.
  apply (C9_fast_is_short 3 (detour_osm 0) (with_pref "FAST" detour_request) fs_empty proc_init).
  reflexivity.
Defined.

Lemma normalize_pref_upper : normalize_pref "FAST" = "short"%string.
Proof. reflexivity. Qed.


Lemma haversine_same (p : R * R) : _haversine p p = 0.
Proof.
  unfold _haversine. cbv zeta.
  replace (radians (fst p) - radians (fst p)) with 0 by lra.
  replace (radians (snd p) - radians (snd p)) with 0 by lra.
  replace (0 / 2) with 0 by lra.
  rewrite sin_0.
  replace (0 ^ 2 + cos (radians (fst p)) * cos (radians (fst p)) * 0 ^ 2) with 0 by (simpl; lra).
  rewrite sqrt_0. replace (1 - 0) with 1 by lra. rewrite sqrt_1.
  unfold atan2. rewrite decide_True by lra.
  replace (0 / 1) with 0 by lra. rewrite atan_0. lra.
Qed.

Lemma atan2_pos (y x : R) : 0 < y -> 0 < x -> 0 < atan2 y x.
Proof.
  intros Hy Hx. unfold atan2. rewrite decide_True by done.
  rewrite <- atan_0. apply atan_increasing. now apply Rdiv_lt_0_compat.
Qed.

Lemma haversine_equator_pos : 0 < _haversine (0, 0) (0, 1).
Proof.
  unfold _haversine. cbv zeta. cbn [fst snd]. unfold radians.
  replace (0 * PI / 180 - 0 * PI / 180) with 0 by lra.
  replace ((1 * PI / 180 - 0 * PI / 180) / 2) with (PI / 360) by lra.
  replace (0 / 2) with 0 by lra. replace (0 * PI / 180) with 0 by lra.
  rewrite sin_0, cos_0.
  pose proof PI_RGT_0 as Hpi.
  assert (Hs : 0 < sin (PI / 360)) by (apply sin_gt_0; lra).
  assert (Hc : 0 < cos (PI / 360)) by (apply cos_gt_0; lra).
  pose proof (sin2_cos2 (PI / 360)) as H1. unfold Rsqr in H1.
  set (a := 0 ^ 2 + 1 * 1 * sin (PI / 360) ^ 2).
  assert (Ha : 0 < a < 1) by (unfold a; simpl; nra).
  assert (0 < atan2 (sqrt a) (sqrt (1 - a))).
  { apply atan2_pos; apply sqrt_lt_R0; lra. }
  lra.
Qed.

(** ** Sums and loops *)

Lemma Rsum_nil : Rsum [] = 0.
Proof. reflexivity. Qed.

Lemma Rsum_cons (x : R) (l : list R) : Rsum (x :: l) = x + Rsum l.
Proof. reflexivity. Qed.

Lemma fold_left_sum {A : Type} (f : A -> R) (l : list A) (a : R) :
  fold_left (fun acc x => acc + f x) l a = a + Rsum (map f l).
Proof.
  revert a. induction l as [|x l IH]; intros a; cbn [fold_left map].
  - rewrite Rsum_nil. lra.
  - rewrite IH, Rsum_cons. lra.
Qed.

Lemma Rsum_nonneg (l : list R) : Forall (fun x => 0 <= x) l -> 0 <= Rsum l.
Proof. induction 1; rewrite ?Rsum_nil, ?Rsum_cons; lra. Qed.

Lemma Rsum_le (l1 l2 : list R) : Forall2 Rle l1 l2 -> Rsum l1 <= Rsum l2.
Proof. induction 1; rewrite ?Rsum_nil, ?Rsum_cons; lra. Qed.

Lemma samples_length (uy ux vy vx : R) (n : nat) :
  List.length (samples uy ux vy vx n) = (n + 1)%nat.
Proof. unfold samples. now rewrite length_map, length_seq. Qed.

Lemma gaussian_pos (sigma d : R) : 0 < gaussian sigma d.
Proof. apply exp_pos. Qed.

Lemma light_kernel_eq (d : R) : exp (- (d * d) * inv_twosig2) = gaussian 40 d.
Proof.
  unfold gaussian, inv_twosig2, SAFE_SIGMA. f_equal. field.
Qed.

Lemma ped_kernel_eq (d : R) : exp (- (d * d) * ped_inv_twosig2) = gaussian 30 d.
Proof.
  unfold gaussian, ped_inv_twosig2, PEDS_SIGMA. f_equal. field.
Qed.

(** The loop over the lights adds the lighting density to [s]. *)
Lemma light_loop (lights : list light) (loc : R * R) (s : R) :
  fold_left (light_round loc) lights s = s + lighting_density_at lights loc.
Proof.
  revert s. unfold lighting_density_at.
  induction lights as [|l lights IH]; intros s; cbn [fold_left List.filter map]; rewrite ?Rsum_nil.
  - lra.
  - rewrite IH. unfold light_round, SAFE_SIGMA.
    case_decide as Hd.
    + rewrite bool_decide_eq_false_2 by lra. reflexivity.
    + rewrite bool_decide_eq_true_2 by lra. cbn [map]; rewrite ?Rsum_cons.
      rewrite light_kernel_eq. lra.
Qed.

Lemma light_sum_spec (lights : list light) (loc : R * R) :
  light_sum lights loc = lighting_density_at lights loc.
Proof. unfold light_sum. rewrite light_loop. lra. Qed.

Lemma lighting_density_nonneg (lights : list light) (loc : R * R) :
  0 <= lighting_density_at lights loc.
Proof.
  unfold lighting_density_at. apply Rsum_nonneg, List.Forall_forall.
  intros x Hx. apply in_map_iff in Hx as (l & <- & _). left. apply gaussian_pos.
Qed.

Lemma lighting_density_sublist (l1 l2 : list light) (loc : R * R) :
  sublist l1 l2 -> lighting_density_at l1 loc <= lighting_density_at l2 loc.
Proof.
  unfold lighting_density_at.
  induction 1 as [|x l1 l2 _ IH|x l1 l2 _ IH]; cbn [List.filter].
  - lra.
  - destruct (bool_decide _); cbn [map]; rewrite ?Rsum_cons; lra.
  - destruct (bool_decide _); cbn [map]; rewrite ?Rsum_cons; [|lra].
    pose proof (gaussian_pos 40 (_haversine loc x)). lra.
Qed.

Lemma average_nonneg (l : list R) : Forall (fun x => 0 <= x) l -> 0 <= average l.
Proof.
  intros H. unfold average. destruct l as [|x l].
  - cbn. lra.
  - apply Rmult_le_pos; [now apply Rsum_nonneg|].
    left. apply Rinv_0_lt_compat. apply lt_0_INR. cbn. lia.
Qed.

Lemma average_le (l1 l2 : list R) : Forall2 Rle l1 l2 -> average l1 <= average l2.
Proof.
  intros H. unfold average. rewrite (Forall2_length _ _ _ H).
  destruct l2 as [|x l2].
  - apply Forall2_nil_inv_r in H. subst. lra.
  - apply Rmult_le_compat_r; [|now apply Rsum_le].
    left. apply Rinv_0_lt_compat. apply lt_0_INR. cbn. lia.
Qed.

(** [_edge_density] on an edge with coordinates, a positive length and some light. *)
Lemma edge_density_main (G : street_graph) (lights : list light) (u v : node)
    (uy ux vy vx : R) :
  edge_coords G u v = Some (uy, ux, vy, vx) ->
  0 < _haversine (uy, ux) (vy, vx) ->
  _edge_density G lights u v = density_spec G lights u v.
Proof.
  intros Hc HL. unfold _edge_density, density_spec, edge_samples. rewrite Hc.
  set (pts := samples uy ux vy vx _).
  assert (Hlen : List.length pts = (sample_count (_haversine (uy, ux) (vy, vx)) + 1)%nat)
    by apply samples_length.
  destruct lights as [|l lights].
  - unfold average. rewrite length_map.
    assert (Rsum (map (lighting_density_at []) pts) = 0) as ->.
    { clear. induction pts; cbn [map]; rewrite ?Rsum_nil, ?Rsum_cons; [reflexivity|].
      rewrite IHpts. unfold lighting_density_at. cbn [List.filter map]. rewrite Rsum_nil. lra. }
    unfold Rdiv. lra.
  - rewrite decide_False by lra.
    rewrite fold_left_sum. unfold average. rewrite length_map, Hlen.
    rewrite Rplus_0_l. f_equal. f_equal.
    apply map_ext. intros loc. apply light_sum_spec.
Qed.

Lemma edge_density_degenerate (G : street_graph) (lights : list light) (u v : node) :
  (edge_coords G u v = None \/
   exists uy ux vy vx, edge_coords G u v = Some (uy, ux, vy, vx) /\
                       _haversine (uy, ux) (vy, vx) <= 0) ->
  _edge_density G lights u v = 0.
Proof.
  unfold _edge_density. intros [-> | (uy & ux & vy & vx & -> & HL)]; [reflexivity|].
  destruct lights; [reflexivity|]. now rewrite decide_True.
Qed.

Lemma density_spec_nonneg (G : street_graph) (lights : list light) (u v : node) :
  0 <= density_spec G lights u v.
Proof.
  unfold density_spec. destruct (edge_samples G u v) as [pts|]; [|lra].
  apply average_nonneg, List.Forall_forall. intros x Hx.
  apply in_map_iff in Hx as (loc & <- & _). apply lighting_density_nonneg.
Qed.

Lemma density_spec_sublist (G : street_graph) (l1 l2 : list light) (u v : node) :
  sublist l1 l2 -> density_spec G l1 u v <= density_spec G l2 u v.
Proof.
  intros Hs. unfold density_spec. destruct (edge_samples G u v) as [pts|]; [|lra].
  apply average_le. induction pts; cbn; constructor; auto.
  now apply lighting_density_sublist.
Qed.

(** The density the code computes, on every edge. *)
Lemma edge_density_cases (G : street_graph) (lights : list light) (u v : node) :
  _edge_density G lights u v = density_spec G lights u v \/ _edge_density G lights u v = 0.
Proof.
  destruct (edge_coords G u v) as [[[[uy ux] vy] vx]|] eqn:Hc.
  - destruct (decide (0 < _haversine (uy, ux) (vy, vx))) as [HL|HL].
    + left. eapply edge_density_main; eauto.
    + right. apply edge_density_degenerate. right. exists uy, ux, vy, vx. split; [done|lra].
  - right. apply edge_density_degenerate. now left.
Qed.

Lemma edge_density_nonneg (G : street_graph) (lights : list light) (u v : node) :
  0 <= _edge_density G lights u v.
Proof.
  destruct (edge_density_cases G lights u v) as [-> | ->]; [apply density_spec_nonneg|lra].
Qed.

Lemma edge_density_sublist (G : street_graph) (l1 l2 : list light) (u v : node) :
  sublist l1 l2 -> _edge_density G l1 u v <= _edge_density G l2 u v.
Proof.
  intros Hs.
  destruct (edge_coords G u v) as [[[[uy ux] vy] vx]|] eqn:Hc.
  - destruct (decide (0 < _haversine (uy, ux) (vy, vx))) as [HL|HL].
    + rewrite !(edge_density_main G _ u v uy ux vy vx) by done.
      now apply density_spec_sublist.
    + rewrite !edge_density_degenerate; [lra| |]; right; exists uy, ux, vy, vx; split; try done; lra.
  - rewrite !edge_density_degenerate; [lra| |]; now left.
Qed.

Lemma darkness_eq (G : street_graph) (lights : list light) (u v : node) :
  dark_term G lights u v = darkness_of (_edge_density G lights u v).
Proof. reflexivity. Qed.

Lemma darkness_of_antitone (d1 d2 : R) :
  0 <= d1 -> d1 <= d2 -> darkness_of d2 <= darkness_of d1.
Proof.
  intros H0 Hle. unfold darkness_of.
  assert (Hp1 : 0 < 1 / 1000000 + 3 * d1) by lra.
  assert (Hp2 : 0 < 1 / 1000000 + 3 * d2) by lra.
  assert (Hinv : 1 / (1 / 1000000 + 3 * d2) <= 1 / (1 / 1000000 + 3 * d1)).
  { unfold Rdiv at 1 3. rewrite !Rmult_1_l. apply Rinv_le_contravar; lra. }
  assert (Hpos2 : 0 < 1 / (1 / 1000000 + 3 * d2)).
  { apply Rdiv_lt_0_compat; lra. }
  repeat case_decide; try lra; nra.
Qed.


Lemma average_const (c : R) (l : list R) :
  l <> [] -> Forall (fun x => x = c) l -> average l = c.
Proof.
  intros Hne Hall. unfold average.
  assert (Rsum l = INR (List.length l) * c) as ->.
  { clear Hne. induction Hall as [|x l -> _ IH]; [rewrite Rsum_nil; cbn; lra|].
    rewrite Rsum_cons, IH. change (List.length (c :: l)) with (S (List.length l)).
    rewrite S_INR. lra. }
  field. apply not_0_INR. destruct l; [done|]. cbn. lia.
Qed.

Lemma samples_same_spot (y x : R) (n : nat) :
  Forall (fun loc => loc = (y, x)) (samples y x y x n).
Proof.
  unfold samples. apply List.Forall_forall. intros loc Hin.
  apply in_map_iff in Hin as (i & <- & _). unfold sample_point. f_equal; lra.
Qed.

Lemma samples_nonempty (uy ux vy vx : R) (n : nat) : samples uy ux vy vx n <> [].
Proof.
  intros H. apply (f_equal (@List.length _)) in H. rewrite samples_length in H. cbn in H. lia.
Qed.

Lemma gaussian_0 (sigma : R) : gaussian sigma 0 = 1.
Proof. unfold gaussian. replace (- (0 * 0) / (2 * (sigma * sigma))) with 0; [apply exp_0|]. unfold Rdiv. lra. Qed.

Lemma density_spec_same_spot : density_spec (same_spot 50) [(0, 0)] 1%Z 2%Z = 1.
Proof.
  unfold density_spec, edge_samples. cbn.
  apply average_const.
  - intros H. apply map_eq_nil in H. now apply samples_nonempty in H.
  - apply List.Forall_forall. intros d Hd. apply in_map_iff in Hd as (loc & <- & Hloc).
    pose proof (samples_same_spot 0 0 (sample_count (_haversine (0, 0) (0, 0)))) as Hs.
    rewrite List.Forall_forall in Hs. rewrite (Hs _ Hloc).
    unfold lighting_density_at. cbn [List.filter]. rewrite haversine_same.
    rewrite bool_decide_eq_true_2 by lra. cbn [map].
    rewrite haversine_same, Rsum_cons, Rsum_nil, gaussian_0. lra.
Qed.

Lemma edge_density_same_spot (lights : list light) :
  _edge_density (same_spot 50) lights 1%Z 2%Z = 0.
Proof.
  apply edge_density_degenerate. right. exists 0, 0, 0, 0. split; [reflexivity|].
  rewrite haversine_same. lra.
Qed.

(** C6 as stated (every edge) fails on an edge whose end nodes sit on the
    same spot: the code takes its density as 0 whatever the lights. *)
Lemma C6_zero_length_edge :
  ~ (forall (G : street_graph) (lights : list light) (u v : node),
        dark_term G lights u v = darkness_of (density_spec G lights u v)).
Proof.
  intros H. specialize (H (same_spot 50) [(0, 0)] 1%Z 2%Z).
  rewrite darkness_eq, edge_density_same_spot, density_spec_same_spot in H.
  unfold darkness_of in H. rewrite decide_True in H by lra. rewrite decide_False in H by lra.
  replace (1 / 1000000 + 3 * 0) with (1 / 1000000) in H by lra.
  replace (1 / (1 / 1000000) * 2) with 2000000 in H by (field; lra).
  assert (1 / (1 / 1000000 + 3 * 1) * 1 < 1).
  { rewrite Rmult_1_r. unfold Rdiv. rewrite Rmult_1_l, <- Rinv_1.
    apply Rinv_lt_contravar; lra. }
  lra.
Qed.

(** C6, amended: on every edge whose end nodes have coordinates a positive
    great-circle distance apart, the darkness term is
    [(1 / (eps + alpha * density)) * penaltyFactor] with the density of the
    specification. *)
Theorem C6_darkness_term (G : street_graph) (lights : list light) (u v : node)
    (uy ux vy vx : R) :
  edge_coords G u v = Some (uy, ux, vy, vx) ->
  0 < _haversine (uy, ux) (vy, vx) ->
  dark_term G lights u v = darkness_of (density_spec G lights u v).
Proof.
  intros Hc HL. rewrite darkness_eq. f_equal. eapply edge_density_main; eauto.
Qed.

Lemma C6_darkness_term_witness :
  dark_term (two_nodes 50) [(0, 0)] 1%Z 2%Z
  = darkness_of (density_spec (two_nodes 50) [(0, 0)] 1%Z 2%Z).
Proof.
  apply (C6_darkness_term (two_nodes 50) [(0, 0)] 1%Z 2%Z 0 0 0 1).
  - reflexivity.
  - exact haversine_equator_pos.
Defined.

(** On the other edges the density is 0. *)
Lemma darkness_term_degenerate (G : street_graph) (lights : list light) (u v : node) :
  (edge_coords G u v = None \/
   exists uy ux vy vx, edge_coords G u v = Some (uy, ux, vy, vx) /\
                       _haversine (uy, ux) (vy, vx) <= 0) ->
  dark_term G lights u v = darkness_of 0.
Proof. intros H. rewrite darkness_eq. f_equal. now apply edge_density_degenerate. Qed.

(** C8: removing lighting points never decreases the darkness term of an edge. *)
Theorem C8_darkness_monotone (G : street_graph) (lights lights' : list light) (u v : node) :
  sublist lights' lights ->
  dark_term G lights u v <= dark_term G lights' u v.
Proof.
  intros Hs. rewrite !darkness_eq. apply darkness_of_antitone.
  - apply edge_density_nonneg.
  - now apply edge_density_sublist.
Qed.

Lemma C8_darkness_monotone_witness :
  dark_term (two_nodes 50) [(0, 0); (0, 1)] 1%Z 2%Z
  <= dark_term (two_nodes 50) [(0, 1)] 1%Z 2%Z.
Proof.
  apply (C8_darkness_monotone (two_nodes 50) [(0, 0); (0, 1)] [(0, 1)] 1%Z 2%Z).
  apply sublist_cons. apply sublist_skip. apply sublist_nil.
Defined.

(** ** The hazard term *)

Lemma Rpower_gamma (s : R) : 0 < s -> Rpower s PEDS_GAMMA = s ^ 2.
Proof.
  intros Hs. unfold PEDS_GAMMA. replace 2 with (INR 2) by (simpl; lra).
  now apply Rpower_pow.
Qed.

(** The loop over the danger points adds the hazard density to [s] and sets
    the peak when a risky point is met. *)
Lemma ped_loop (ped_pts : list hazard) (loc : R * R) (s pk : R) :
  Forall (fun hz : hazard => 0 <= snd hz) ped_pts ->
  fold_left (ped_round loc) ped_pts (s, pk)
  = (s + hazard_density_at ped_pts loc, if existsb (risky loc) ped_pts then 1 else pk).
Proof.
  intros Hall. revert s pk. unfold hazard_density_at.
  induction Hall as [|[[py px] score] rest Hsc _ IH]; intros s pk;
    cbn [fold_left List.filter map existsb].
  - rewrite Rsum_nil. f_equal. lra.
  - cbn [snd] in Hsc. unfold ped_round at 2. unfold risky at 1, at_least_threshold.
    cbn [fst snd]. unfold PEDS_RADIUS, HIGH_RISK_THRESHOLD, HIGH_RISK_RADIUS, PEDS_RADIUS.
    destruct (decide (score <= 0)) as [Hz|Hz].
    + assert (score = 0) as -> by lra. rewrite IH.
      rewrite (bool_decide_eq_false_2 (0 >= 85 / 100)) by lra. cbn [andb orb].
      f_equal. destruct (bool_decide _); cbn [map fst snd]; rewrite ?Rsum_cons; [|lra].
      replace (0 ^ 2) with 0 by (simpl; lra). lra.
    + destruct (decide (_haversine loc (py, px) > 100)) as [Hd|Hd].
      * rewrite IH. rewrite (bool_decide_eq_false_2 (_ <= 100)) by lra.
        rewrite andb_false_r. reflexivity.
      * rewrite IH. rewrite (bool_decide_eq_true_2 (_ <= 100)) by lra.
        rewrite andb_true_r. cbn [map fst snd]. rewrite Rsum_cons.
        rewrite Rpower_gamma by lra. rewrite ped_kernel_eq.
        f_equal; [lra|].
        destruct (decide (score >= 85 / 100)) as [Hh|Hh].
        -- rewrite bool_decide_eq_true_2 by done. cbn [orb].
           rewrite decide_True by (split; [done|lra]).
           now destruct (existsb _ rest).
        -- rewrite bool_decide_eq_false_2 by done. cbn [orb].
           rewrite decide_False by tauto. reflexivity.
Qed.

Lemma high_risk_near_unfold (ped_pts : list hazard) (pts : list (R * R)) :
  high_risk_near at_least_threshold ped_pts pts
  = existsb (fun loc => existsb (risky loc) ped_pts) pts.
Proof. reflexivity. Qed.

(** The loop over the samples. *)
Lemma ped_sample_loop (ped_pts : list hazard) (pts : list (R * R)) (a pk : R) :
  Forall (fun hz : hazard => 0 <= snd hz) ped_pts ->
  fold_left (ped_sample_round ped_pts) pts (a, pk)
  = (a + Rsum (map (hazard_density_at ped_pts) pts),
     if high_risk_near at_least_threshold ped_pts pts then 1 else pk).
Proof.
  intros Hall. rewrite high_risk_near_unfold. revert a pk.
  induction pts as [|loc pts IH]; intros a pk; cbn [fold_left map existsb].
  - rewrite Rsum_nil. f_equal. lra.
  - unfold ped_sample_round at 2. cbn [fst snd]. rewrite ped_loop by done.
    cbn [fst snd]. rewrite IH, Rsum_cons. f_equal; [lra|].
    destruct (existsb (risky loc) ped_pts); cbn [orb]; [|reflexivity].
    now destruct (existsb _ pts).
Qed.

(** [_edge_ped_stats] on an edge of positive length: the average hazard
    density and the peak. *)
Lemma edge_ped_stats_main (G : street_graph) (ped_pts : list hazard) (u v : node)
    (uy ux vy vx : R) :
  edge_coords G u v = Some (uy, ux, vy, vx) ->
  0 < _haversine (uy, ux) (vy, vx) ->
  Forall (fun hz : hazard => 0 <= snd hz) ped_pts ->
  let pts := samples uy ux vy vx (sample_count (_haversine (uy, ux) (vy, vx))) in
  _edge_ped_stats G ped_pts u v
  = (average (map (hazard_density_at ped_pts) pts),
     if high_risk_near at_least_threshold ped_pts pts then 1 else 0).
Proof.
  intros Hc HL Hall pts. unfold _edge_ped_stats. rewrite Hc. fold pts.
  assert (Hlen : List.length pts = (sample_count (_haversine (uy, ux) (vy, vx)) + 1)%nat)
    by apply samples_length.
  unfold average. rewrite length_map, Hlen.
  destruct ped_pts as [|hz ped_pts].
  - assert (Rsum (map (hazard_density_at []) pts) = 0) as ->.
    { clear. induction pts; cbn [map]; rewrite ?Rsum_nil, ?Rsum_cons; [reflexivity|].
      rewrite IHpts. unfold hazard_density_at. cbn [List.filter map]. rewrite Rsum_nil. lra. }
    assert (high_risk_near at_least_threshold [] pts = false) as ->.
    { clear. unfold high_risk_near. induction pts; cbn; auto. }
    f_equal. unfold Rdiv. lra.
  - rewrite decide_False by lra. rewrite ped_sample_loop by done. cbn [fst snd].
    now rewrite Rplus_0_l.
Qed.

(** C7, amended: on every edge whose end nodes have coordinates a positive
    great-circle distance apart, with hazard scores that are not negative,
    the hazard term is 6 times the per-sample average of the sum, over the
    hazard points within 100 m, of [score^2 * exp(-d^2 / (2 * 30^2))], plus
    20 exactly when a hazard point of score at least 0.85 lies within 100 m
    of a sample. *)
Theorem C7_hazard_term (G : street_graph) (ped_pts : list hazard) (u v : node)
    (uy ux vy vx : R) :
  edge_coords G u v = Some (uy, ux, vy, vx) ->
  0 < _haversine (uy, ux) (vy, vx) ->
  Forall (fun hz : hazard => 0 <= snd hz) ped_pts ->
  ped_term G ped_pts u v = hazard_spec at_least_threshold G ped_pts u v.
Proof.
  intros Hc HL Hall. unfold ped_term.
  rewrite (edge_ped_stats_main G ped_pts u v uy ux vy vx Hc HL Hall).
  unfold hazard_spec, edge_samples. rewrite Hc.
  unfold hazard_of, PEDS_WEIGHT, HIGH_RISK_JUMP.
  destruct (high_risk_near _ _ _); lra.
Qed.

Lemma C7_hazard_term_witness :
  ped_term (two_nodes 50) [(0, 0, 85 / 100)] 1%Z 2%Z
  = hazard_spec at_least_threshold (two_nodes 50) [(0, 0, 85 / 100)] 1%Z 2%Z.
Proof.
  apply (C7_hazard_term (two_nodes 50) [(0, 0, 85 / 100)] 1%Z 2%Z 0 0 0 1).
  - reflexivity.
  - exact haversine_equator_pos.
  - repeat constructor. simpl. lra.
Defined.

(** On the other edges, and with no hazard point, the hazard term is 0. *)
Lemma hazard_term_degenerate (G : street_graph) (ped_pts : list hazard) (u v : node) :
  (edge_coords G u v = None \/
   exists uy ux vy vx, edge_coords G u v = Some (uy, ux, vy, vx) /\
                       _haversine (uy, ux) (vy, vx) <= 0) ->
  ped_term G ped_pts u v = 0.
Proof.
  unfold ped_term, _edge_ped_stats.
  intros [-> | (uy & ux & vy & vx & -> & HL)].
  - destruct ped_pts; lra.
  - destruct ped_pts; [lra|]. rewrite decide_True by done. lra.
Qed.

Lemma high_risk_above_none (pts : list (R * R)) (py px : R) :
  high_risk_near above_threshold [(py, px, 85 / 100)] pts = false.
Proof.
  unfold high_risk_near. induction pts as [|loc pts IH]; [reflexivity|].
  cbn [existsb] in *. rewrite IH. unfold above_threshold. cbn [snd].
  rewrite bool_decide_eq_false_2 by lra. reflexivity.
Qed.

Lemma high_risk_at_least_first (n : nat) :
  high_risk_near at_least_threshold [(0, 0, 85 / 100)] (samples 0 0 0 1 n) = true.
Proof.
  unfold high_risk_near, samples. replace (n + 1)%nat with (S n) by lia.
  cbn [seq map existsb]. unfold at_least_threshold. cbn [fst snd].
  rewrite bool_decide_eq_true_2 by lra.
  assert (sample_point 0 0 0 1 n 0 = (0, 0)) as ->.
  { unfold sample_point. cbn [INR]. f_equal; unfold Rdiv; lra. }
  rewrite haversine_same. rewrite bool_decide_eq_true_2 by lra. reflexivity.
Qed.

(** C7 as stated fails twice: a hazard point of score exactly 0.85 already
    sets the penalty ([>=] in the code), and an edge whose end nodes sit on
    the same spot has hazard term 0 whatever the hazards. *)
Lemma C7_threshold_and_zero_length :
  ped_term (two_nodes 50) [(0, 0, 85 / 100)] 1%Z 2%Z
  <> hazard_spec above_threshold (two_nodes 50) [(0, 0, 85 / 100)] 1%Z 2%Z /\
  ped_term (same_spot 50) [(0, 0, 1)] 1%Z 2%Z
  <> hazard_spec above_threshold (same_spot 50) [(0, 0, 1)] 1%Z 2%Z.
Proof.
  split.
  - unfold ped_term.
    rewrite (edge_ped_stats_main (two_nodes 50) [(0, 0, 85 / 100)] 1%Z 2%Z 0 0 0 1);
      [|reflexivity|exact haversine_equator_pos|repeat constructor; simpl; lra].
    unfold hazard_spec, edge_samples. cbn [two_nodes edge_coords g_nodes Z.eqb Pos.eqb n_y n_x].
    unfold hazard_of. rewrite high_risk_above_none, high_risk_at_least_first.
    unfold PEDS_WEIGHT, HIGH_RISK_JUMP. lra.
  - rewrite hazard_term_degenerate.
    2:{ right. exists 0, 0, 0, 0. split; [reflexivity|]. rewrite haversine_same. lra. }
    unfold hazard_spec, edge_samples. cbn [same_spot edge_coords g_nodes n_y n_x].
    set (pts := samples 0 0 0 0 _).
    assert (Hpts : Forall (fun loc => loc = (0, 0)) pts) by apply samples_same_spot.
    assert (Hne : pts <> []) by apply samples_nonempty.
    unfold hazard_of.
    assert (Havg : average (map (hazard_density_at [(0, 0, 1)]) pts) = 1).
    { apply average_const.
      - intros H. now apply map_eq_nil in H.
      - apply List.Forall_forall. intros d Hd. apply in_map_iff in Hd as (loc & <- & Hloc).
        rewrite List.Forall_forall in Hpts. rewrite (Hpts _ Hloc).
        unfold hazard_density_at. cbn [List.filter fst snd]. rewrite haversine_same.
        rewrite bool_decide_eq_true_2 by lra. cbn [map fst snd].
        rewrite haversine_same, Rsum_cons, Rsum_nil, gaussian_0. simpl. lra. }
    rewrite Havg. destruct (high_risk_near _ _ _); lra.
Qed.

(** ** Walks and the A-star loop *)

(** ** The heap *)

Lemma entry_ltb_true (a b : entry) : entry_ltb a b = true -> e_prio a <= e_prio b.
Proof.
  unfold entry_ltb. repeat case_decide; intros; try discriminate; lra.
Qed.

Lemma entry_ltb_false (a b : entry) : entry_ltb a b = false -> e_prio b <= e_prio a.
Proof.
  unfold entry_ltb. repeat case_decide; intros; try discriminate; lra.
Qed.

Lemma extract_min_perm (q : list entry) (m : entry) (r : list entry) :
  extract_min q = Some (m, r) -> Permutation q (m :: r).
Proof.
  revert m r. induction q as [|x q IH]; intros m r H; cbn in H; [discriminate|].
  destruct (extract_min q) as [[m' r']|] eqn:Hq.
  - specialize (IH _ _ eq_refl). destruct (entry_ltb m' x).
    + injection H as <- <-. rewrite IH. apply perm_swap.
    + injection H as <- <-. reflexivity.
  - injection H as <- <-. destruct q; [reflexivity|].
    cbn in Hq. destruct (extract_min q) as [[? ?]|]; [destruct (entry_ltb _ _)|]; discriminate.
Qed.

Lemma extract_min_least (q : list entry) (m : entry) (r : list entry) :
  extract_min q = Some (m, r) -> forall y, In y r -> e_prio m <= e_prio y.
Proof.
  revert m r. induction q as [|x q IH]; intros m r H; cbn in H; [discriminate|].
  destruct (extract_min q) as [[m' r']|] eqn:Hq.
  - specialize (IH _ _ eq_refl). destruct (entry_ltb m' x) eqn:Hlt.
    + injection H as <- <-. intros y [<-|Hy]; [now apply entry_ltb_true|auto].
    + injection H as <- <-. intros y Hy.
      apply entry_ltb_false in Hlt.
      apply (Permutation_in _ (extract_min_perm _ _ _ Hq)) in Hy as [<-|Hy]; [done|].
      specialize (IH _ Hy). lra.
  - injection H as <- <-. intros y [].
Qed.

Lemma extract_min_none (q : list entry) : extract_min q = None -> q = [].
Proof.
  destruct q as [|x q]; [done|]. cbn.
  destruct (extract_min q) as [[? ?]|]; [destruct (entry_ltb _ _)|]; discriminate.
Qed.

Section WalkFacts.

Context {E : Type}.
Variable succ : node -> list (node * E).
Variable weight : node -> node -> E -> option R.
Variable heuristic : node -> node -> R.
Variables source target : node.

#[local] Abbreviation walk := (walk succ weight).
#[local] Abbreviation nwalk := (nwalk succ weight).
#[local] Abbreviation consistent := (consistent succ weight heuristic target).
#[local] Abbreviation chain := (chain source).

Lemma walk_snoc (u v t : node) (e : E) (c r : R) :
  walk u v r -> In (t, e) (succ v) -> weight v t e = Some c -> walk u t (r + c).
Proof.
  intros Hw Hin Hc. induction Hw as [u|u v' t' e' c' r' Hin' Hc' _ IH].
  - replace (0 + c) with (c + 0) by lra. eapply walk_step; eauto. constructor.
  - replace (c' + r' + c) with (c' + (r' + c)) by lra. eapply walk_step; eauto.
Qed.

Lemma walk_trans (u v t : node) (r1 r2 : R) :
  walk u v r1 -> walk v t r2 -> walk u t (r1 + r2).
Proof.
  intros H1 H2. induction H1 as [u|u v' t' e' c' r' Hin' Hc' _ IH].
  - now rewrite Rplus_0_l.
  - replace (c' + r' + r2) with (c' + (r' + r2)) by lra. eapply walk_step; eauto.
Qed.

Lemma nwalk_last (l : list node) (v : node) (r : R) :
  nwalk l v r -> List.last l v = v /\ l <> [].
Proof.
  intros Hn. destruct Hn.
  - split; [reflexivity|discriminate].
  - split; [apply last_last|]. intros Hnil. now apply app_eq_nil in Hnil as [_ ?].
Qed.

Lemma nwalk_walk (l : list node) (v : node) (r : R) (a : node) :
  nwalk l v r -> hd_error l = Some a -> walk a v r.
Proof.
  intros Hn. revert a. induction Hn as [u|l u v e c r Hn IH Hin Hc]; intros a Hhd.
  - injection Hhd as <-. constructor.
  - eapply walk_snoc; eauto. apply IH.
    destruct l as [|b l]; [now apply nwalk_last in Hn as [_ ?]|]. exact Hhd.
Qed.

Lemma walk_heuristic (u t : node) (r : R) :
  consistent -> walk u t r -> heuristic u target <= r + heuristic t target.
Proof.
  intros Hcons Hw. induction Hw as [u|u v t e c r Hin Hc _ IH]; [lra|].
  specialize (Hcons _ _ _ _ Hin Hc). lra.
Qed.

(** A walk that leaves a set of nodes has an edge that crosses its border. *)
Lemma walk_cross (S : node -> Prop) (u t : node) (r : R) :
  (forall v, S v \/ ~ S v) ->
  walk u t r -> S u -> ~ S t ->
  exists a b e c r1 r2,
    walk u a r1 /\ S a /\ In (b, e) (succ a) /\ weight a b e = Some c /\ ~ S b /\
    walk b t r2 /\ r = r1 + c + r2.
Proof.
  intros Hdec Hw. induction Hw as [u|u v t e c r Hin Hc Hw IH]; intros Hu Ht; [done|].
  destruct (Hdec v) as [Hv|Hv].
  - destruct (IH Hv Ht) as (a & b & e' & c' & r1 & r2 & Hw1 & Ha & Hin' & Hc' & Hb & Hw2 & ->).
    exists a, b, e', c', (c + r1), r2. repeat split; auto; [|lra].
    eapply walk_step; eauto.
  - exists u, v, e, c, 0, r. repeat split; auto; [constructor|lra].
Qed.

Lemma chain_insert_fresh (expl : gmap Z (option node)) (v : node) (p : option node)
    (w : node) (l : list node) :
  expl !! v = None -> chain expl w l -> chain (<[v := p]> expl) w l.
Proof.
  intros Hv Hc. induction Hc as [Hs|w q l Hw _ IH].
  - constructor. rewrite lookup_insert_ne; [done|]. intros ->. congruence.
  - econstructor; [|exact IH]. rewrite lookup_insert_ne; [done|]. intros ->. congruence.
Qed.

Lemma trace_back_chain (expl : gmap Z (option node)) (v : node) (l : list node)
    (fuel : nat) (acc : list node) :
  chain expl v l -> (List.length l <= fuel)%nat ->
  trace_back fuel expl (Some v) acc = Some (l ++ acc).
Proof.
  intros Hc. revert fuel acc. induction Hc as [Hs|v p l Hv _ IH]; intros fuel acc Hlen.
  - destruct fuel as [|fuel]; [cbn in Hlen; lia|]. cbn. rewrite Hs.
    now destruct fuel.
  - rewrite length_app in Hlen. cbn in Hlen.
    destruct fuel as [|fuel]; [lia|]. cbn. rewrite Hv.
    rewrite IH by lia. now rewrite <- app_assoc.
Qed.

End WalkFacts.


Section LoopInvariant.

Context {E : Type}.
Variable succ : node -> list (node * E).
Variable weight : node -> node -> E -> option R.
Variable heuristic : node -> node -> R.
Variables source target : node.

#[local] Abbreviation walk := (walk succ weight).
#[local] Abbreviation nwalk := (nwalk succ weight).
#[local] Abbreviation chain := (chain source).
#[local] Abbreviation gval := (gval source).
#[local] Abbreviation run_inv := (run_inv succ weight heuristic source target).
#[local] Abbreviation good_entry := (good_entry succ weight heuristic source target).

Hypothesis Hcons : consistent succ weight heuristic target.

Ltac simp :=
  cbn [e_node e_parent e_dist e_prio push set_queue set_explored
       enqueued explored queue counter] in *.

Lemma explored_walk (cur : node) (rest : list (node * E)) (st : state) (v : node) :
  run_inv cur rest st -> is_Some (explored st !! v) -> walk source v (gval st v).
Proof.
  intros Hinv Hv. destruct (ri_chain _ _ _ _ _ _ _ _ Hinv v Hv) as (l & _ & Hn & _ & Hhd).
  eapply nwalk_walk; eauto.
Qed.

(** An edge out of [cur] that improves on [enqueued] leads to a node that is
    not explored, or to the source. *)
Lemma improving_edge_target (cur : node) (rest : list (node * E)) (st : state)
    (v : node) (e : E) (c : R) :
  run_inv cur rest st -> In (v, e) (succ cur) -> weight cur v e = Some c ->
  (forall q h', enqueued st !! v = Some (q, h') -> gval st cur + c < q) ->
  is_Some (explored st !! v) -> v = source.
Proof.
  intros Hinv Hin Hw Himp Hv. destruct (decide (v = source)) as [|Hne]; [done|exfalso].
  destruct (ri_enq _ _ _ _ _ _ _ _ Hinv v Hv Hne) as [[q h'] Hq].
  specialize (Himp _ _ Hq).
  assert (Hwalk : walk source v (gval st cur + c)).
  { eapply walk_snoc; eauto. eapply explored_walk; eauto. apply (ri_cur _ _ _ _ _ _ _ _ Hinv). }
  pose proof (ri_optimal _ _ _ _ _ _ _ _ Hinv v _ Hv Hwalk) as Hopt.
  unfold AstarInv.gval in Hopt at 1. rewrite decide_False in Hopt by done.
  rewrite Hq in Hopt. lra.
Qed.

Lemma gval_push (v : node) (ncost h : R) (cur : node) (st : state) (w : node) :
  w <> v \/ w = source -> gval (push v ncost h cur st) w = gval st w.
Proof.
  intros Hw. unfold AstarInv.gval. case_decide; [done|].
  cbn. rewrite lookup_insert_ne; [done|]. intros ->. tauto.
Qed.

Lemma run_inv_push (cur v : node) (e : E) (c : R) (rest : list (node * E))
    (st : state) (h : R) :
  run_inv cur ((v, e) :: rest) st -> weight cur v e = Some c ->
  h = heuristic v target ->
  (forall q h', enqueued st !! v = Some (q, h') -> gval st cur + c < q) ->
  run_inv cur rest (push v (gval st cur + c) h cur st).
Proof.
  intros Hinv Hw -> Himp.
  assert (Hin : In (v, e) (succ cur)) by (apply (ri_rest _ _ _ _ _ _ _ _ Hinv); now left).
  assert (F1 : is_Some (explored st !! v) -> v = source)
    by (eapply improving_edge_target; eauto).
  assert (F2 : forall w, is_Some (explored st !! w) ->
                         gval (push v (gval st cur + c) (heuristic v target) cur st) w = gval st w).
  { intros w Hwx. apply gval_push. destruct (decide (w = v)) as [->|]; [right|left]; auto. }
  pose proof (ri_cur _ _ _ _ _ _ _ _ Hinv) as Hcur.
  destruct Hinv as [Hsrc Hroot Htgt Hchain Hopt Henq Hqueue Hstale Hdist Henqd Hcover _ Hrest].
  split; cbn [explored queue push enqueued].
  - exact Hsrc.
  - exact Hroot.
  - exact Htgt.
  - intros w Hwx. destruct (Hchain w Hwx) as (l & ? & ? & ? & ?). exists l.
    rewrite F2 by done. auto.
  - intros w r Hwx Hwalk. rewrite F2 by done. auto.
  - intros w Hwx Hne. destruct (decide (w = v)) as [->|Hwv].
    + rewrite lookup_insert_eq. eauto.
    + rewrite lookup_insert_ne by done. auto.
  - intros x [<-|Hx].
    + exists cur, e, c, (gval st cur + c). simp. rewrite F2 by done.
      repeat split; auto; [apply lookup_insert_eq|lra].
    + destruct (Hqueue x Hx) as (p & e0 & c0 & q0 & Hp & Hpx & Hin0 & Hw0 & Hd0 & Hpr0 & Hq0 & Hle0).
      destruct (decide (e_node x = v)) as [Hxv|Hxv].
      * exists p, e0, c0, (gval st cur + c). rewrite F2 by done. simp.
        rewrite Hxv in *. rewrite lookup_insert_eq. repeat split; auto.
        specialize (Himp _ _ Hq0). lra.
      * exists p, e0, c0, q0. rewrite F2 by done. simp.
        rewrite lookup_insert_ne by done. repeat split; auto.
  - intros x [<-|Hx] Hxx Hne; simp.
    + exfalso. apply Hne. auto.
    + rewrite F2 by done. auto.
  - cbn [map]. constructor; [|exact Hdist]. intros Hin'.
    apply list_elem_of_In, in_map_iff in Hin' as (y & Hy & Hyq).
    cbn [e_node e_dist] in Hy. injection Hy as Hyn Hyd.
    destruct (Hqueue y Hyq) as (p & e0 & c0 & q0 & _ & _ & _ & _ & _ & _ & Hq0 & Hle0).
    rewrite Hyn in Hq0. specialize (Himp _ _ Hq0). lra.
  - intros w q h' Hq. destruct (decide (w = v)) as [->|Hwv].
    + rewrite lookup_insert_eq in Hq. injection Hq as <- <-. split; [done|].
      right. eexists. split; [now left|]. simp. auto.
    + rewrite lookup_insert_ne in Hq by done.
      destruct (Henqd w q h' Hq) as [? [?|(x & ? & ? & ?)]]; split; auto.
      right. exists x. split; [now right|auto].
  - intros u w e0 c0 Hu Hin0 Hw0. rewrite F2 by done.
    destruct (Hcover u w e0 c0 Hu Hin0 Hw0) as [[-> [Heq|Hr]]|Hcov].
    + injection Heq as <- <-. right. right. eexists. split; [now left|]. simp.
      split; [done|]. rewrite Hw in Hw0. injection Hw0 as <-. lra.
    + left. auto.
    + right. destruct Hcov as [?|(x & ? & ? & ?)]; [now left|].
      right. exists x. split; [now right|auto].
  - exact Hcur.
  - intros ve Hve. apply Hrest. now right.
Qed.

Lemma run_inv_keep (cur v : node) (e : E) (c q h' : R) (rest : list (node * E))
    (st : state) :
  run_inv cur ((v, e) :: rest) st -> weight cur v e = Some c ->
  enqueued st !! v = Some (q, h') -> q <= gval st cur + c ->
  run_inv cur rest st.
Proof.
  intros Hinv Hw Hq Hle.
  destruct Hinv as [Hsrc Hroot Htgt Hchain Hopt Henq Hqueue Hstale Hdist Henqd Hcover Hcur Hrest].
  split; auto.
  - intros u w e0 c0 Hu Hin0 Hw0.
    destruct (Hcover u w e0 c0 Hu Hin0 Hw0) as [[-> [Heq|Hr]]|Hcov]; auto.
    injection Heq as <- <-. right. rewrite Hw in Hw0. injection Hw0 as <-.
    destruct (Henqd v q h' Hq) as [_ [?|(x & ? & ? & ?)]]; [now left|].
    right. exists x. repeat split; auto. lra.
  - intros ve Hve. apply Hrest. now right.
Qed.

(** The loop over the neighbours keeps the invariant. *)
Lemma expand_inv (cur : node) (nbrs : list (node * E)) (st st' : state) :
  run_inv cur nbrs st ->
  expand weight heuristic target cur (gval st cur) nbrs st = Some st' ->
  run_inv cur [] st'.
Proof.
  revert st. induction nbrs as [|[v e] nbrs IH]; intros st Hinv Hexp; cbn in Hexp.
  - now injection Hexp as <-.
  - destruct (weight cur v e) as [c|] eqn:Hw; [|discriminate].
    assert (Hg : forall h, (forall q h', enqueued st !! v = Some (q, h') -> gval st cur + c < q) ->
                 gval (push v (gval st cur + c) h cur st) cur = gval st cur).
    { intros h Himp. apply gval_push. destruct (decide (cur = v)) as [<-|]; [right|left]; auto.
      eapply improving_edge_target; eauto.
      - apply (ri_rest _ _ _ _ _ _ _ _ Hinv). now left.
      - apply (ri_cur _ _ _ _ _ _ _ _ Hinv). }
    destruct (enqueued st !! v) as [[q h']|] eqn:Hq.
    + destruct (decide (q <= gval st cur + c)) as [Hle|Hgt].
      * apply (IH st); [|done]. eapply run_inv_keep; eauto.
      * assert (Himp : forall q0 h0, Some (q, h') = Some (q0, h0) -> gval st cur + c < q0)
          by (intros ? ? [= <- <-]; lra).
        apply (IH (push v (gval st cur + c) h' cur st)).
        -- eapply run_inv_push; eauto.
           ++ now destruct (ri_enqueued _ _ _ _ _ _ _ _ Hinv v q h' Hq).
           ++ now rewrite Hq.
        -- rewrite Hg; [done|exact Himp].
    + apply (IH (push v (gval st cur + c) (heuristic v target) cur st)).
      * eapply run_inv_push; eauto. rewrite Hq. discriminate.
      * rewrite Hg; [done|discriminate].
Qed.

(** What is left of the queue after a pop. *)
Lemma popped_in (q q' : list entry) (x y : entry) :
  extract_min q = Some (x, q') -> In y q -> y = x \/ In y q'.
Proof.
  intros Hpop Hy. apply (Permutation_in _ (extract_min_perm _ _ _ Hpop)) in Hy as [<-|?]; auto.
Qed.

Lemma popped_sub (q q' : list entry) (x y : entry) :
  extract_min q = Some (x, q') -> In y q' -> In y q.
Proof.
  intros Hpop Hy. apply (Permutation_in _ (Permutation_sym (extract_min_perm _ _ _ Hpop))).
  now right.
Qed.

Lemma popped_self (q q' : list entry) (x : entry) :
  extract_min q = Some (x, q') -> In x q.
Proof.
  intros Hpop. apply (Permutation_in _ (Permutation_sym (extract_min_perm _ _ _ Hpop))).
  now left.
Qed.

Lemma popped_least (q q' : list entry) (x y : entry) :
  extract_min q = Some (x, q') -> In y q -> e_prio x <= e_prio y.
Proof.
  intros Hpop Hy. destruct (popped_in _ _ _ _ Hpop Hy) as [->|Hy']; [lra|].
  eapply extract_min_least; eauto.
Qed.

Lemma popped_distinct (q q' : list entry) (x : entry) :
  extract_min q = Some (x, q') ->
  NoDup (map (fun x => (e_node x, e_dist x)) q) ->
  NoDup (map (fun x => (e_node x, e_dist x)) q') /\
  forall y, In y q' -> (e_node y, e_dist y) <> (e_node x, e_dist x).
Proof.
  intros Hpop Hnd.
  rewrite (Permutation_map _ (extract_min_perm _ _ _ Hpop)) in Hnd.
  cbn [map] in Hnd. apply NoDup_cons in Hnd as [Hnotin Hnd]. split; [done|].
  intros y Hy Heq. apply Hnotin. rewrite <- Heq.
  apply list_elem_of_In, in_map_iff. eauto.
Qed.

(** The entry popped for a node that is not explored carries the least cost
    of a walk from the source to it. *)
Lemma pop_optimal (cur : node) (st : state) (x : entry) (q' : list entry) (r : R) :
  run_inv cur [] st -> extract_min (queue st) = Some (x, q') ->
  explored st !! e_node x = None ->
  walk source (e_node x) r -> e_dist x <= r.
Proof.
  intros Hinv Hpop Hx Hwalk.
  destruct (walk_cross succ weight (fun v => is_Some (explored st !! v)) source (e_node x) r)
    as (a & b & e & c & r1 & r2 & Hw1 & Ha & Hin & Hc & Hb & Hw2 & ->); auto.
  { intros v. destruct (explored st !! v); [left; eauto|right; now intros [? ?]]. }
  { rewrite (ri_source _ _ _ _ _ _ _ _ Hinv). eauto. }
  { rewrite Hx. now intros [? ?]. }
  destruct (ri_cover _ _ _ _ _ _ _ _ Hinv a b e c Ha Hin Hc) as [[_ []]|[Hbx|(y & Hy & Hyn & Hyd)]];
    [done|].
  pose proof (popped_least _ _ _ _ Hpop Hy) as Hle.
  destruct (ri_queue _ _ _ _ _ _ _ _ Hinv x (popped_self _ _ _ Hpop))
    as (_ & _ & _ & _ & _ & _ & _ & _ & _ & Hprx & _).
  destruct (ri_queue _ _ _ _ _ _ _ _ Hinv y Hy)
    as (_ & _ & _ & _ & _ & _ & _ & _ & _ & Hpry & _).
  pose proof (ri_optimal _ _ _ _ _ _ _ _ Hinv a r1 Ha Hw1) as Hga.
  pose proof (walk_heuristic succ weight heuristic target b (e_node x) r2 Hcons Hw2) as Hh.
  rewrite Hyn in Hpry. lra.
Qed.

(** Dropping the entry popped for a node that is already explored. *)
Lemma run_inv_drop (cur : node) (st : state) (x : entry) (q' : list entry) :
  run_inv cur [] st -> extract_min (queue st) = Some (x, q') ->
  is_Some (explored st !! e_node x) ->
  run_inv cur [] (set_queue q' st).
Proof.
  intros Hinv Hpop Hx.
  destruct Hinv as [Hsrc Hroot Htgt Hchain Hopt Henq Hqueue Hstale Hdist Henqd Hcover Hcur Hrest].
  split; simp; auto.
  - intros y Hy. apply Hqueue. eapply popped_sub; eauto.
  - intros y Hy. apply Hstale. eapply popped_sub; eauto.
  - now apply (popped_distinct _ _ _ Hpop).
  - intros v q h' Hq. destruct (Henqd v q h' Hq) as [? [?|(y & Hy & Hyn & Hyd)]]; split; auto.
    destruct (popped_in _ _ _ _ Hpop Hy) as [->|Hy']; [left; now rewrite <- Hyn|].
    right. eauto.
  - intros u v e c Hu Hin Hc.
    destruct (Hcover u v e c Hu Hin Hc) as [[_ []]|[?|(y & Hy & Hyn & Hyd)]].
    + right. now left.
    + right. destruct (popped_in _ _ _ _ Hpop Hy) as [->|Hy']; [left; now rewrite <- Hyn|].
      right. eauto.
Qed.

(** Exploring the node of the popped entry. *)
Lemma run_inv_explore (cur : node) (st : state) (x : entry) (q' : list entry) :
  run_inv cur [] st -> extract_min (queue st) = Some (x, q') ->
  explored st !! e_node x = None -> e_node x <> target ->
  run_inv (e_node x) (succ (e_node x))
          (set_explored (e_node x) (e_parent x) (set_queue q' st)) /\
  gval st (e_node x) = e_dist x.
Proof.
  intros Hinv Hpop Hx Hnt.
  pose proof (fun r => pop_optimal cur st x q' r Hinv Hpop Hx) as Hbest.
  pose proof (popped_self _ _ _ Hpop) as Hxq.
  destruct Hinv as [Hsrc Hroot Htgt Hchain Hopt Henq Hqueue Hstale Hdist Henqd Hcover Hcur Hrest].
  destruct (Hqueue x Hxq) as (p & e & c & q & Hpar & Hp & Hin & Hw & Hd & Hpr & Hq & Hle).
  assert (Hns : e_node x <> source) by (intros Heq; rewrite Heq in Hx; congruence).
  assert (Hqd : q = e_dist x).
  { destruct (Henqd _ _ _ Hq) as [_ [[? ?]|(y & Hy & Hyn & Hyd)]]; [congruence|].
    pose proof (popped_least _ _ _ _ Hpop Hy) as Hley.
    destruct (Hqueue y Hy) as (_ & _ & _ & _ & _ & _ & _ & _ & _ & Hpry & _).
    rewrite Hyn in Hpry. lra. }
  assert (Hg : gval st (e_node x) = e_dist x).
  { unfold AstarInv.gval. rewrite decide_False by done. rewrite Hq. done. }
  split; [|exact Hg].
  assert (Hold : forall w, is_Some (explored st !! w) ->
                           is_Some (<[e_node x := e_parent x]> (explored st) !! w)).
  { intros w Hw'. rewrite lookup_insert_ne; [done|]. intros Heq. rewrite <- Heq in Hw'. rewrite Hx in Hw'.
    now destruct Hw'. }
  assert (Hnew : forall w, is_Some (<[e_node x := e_parent x]> (explored st) !! w) ->
                           w = e_node x \/ (w <> e_node x /\ is_Some (explored st !! w))).
  { intros w Hw'. destruct (decide (w = e_node x)) as [|Hne]; [now left|right].
    rewrite lookup_insert_ne in Hw' by done. done. }
  split; simp.
  - rewrite lookup_insert_ne by done. exact Hsrc.
  - intros v Hv. destruct (decide (v = e_node x)) as [->|Hne].
    + rewrite lookup_insert_eq, Hpar in Hv. discriminate.
    + rewrite lookup_insert_ne in Hv by done. auto.
  - rewrite lookup_insert_ne by done. exact Htgt.
  - intros v Hv. rewrite map_size_insert_None by done.
    destruct (Hnew v Hv) as [->|[Hne Hv']].
    + destruct (Hchain p Hp) as (l & Hl & Hn & Hlen & Hhd).
      exists (l ++ [e_node x]). repeat split.
      * econstructor; [rewrite lookup_insert_eq, Hpar; reflexivity|].
        now apply chain_insert_fresh.
      * unfold AstarInv.gval in Hg |- *. simp. rewrite Hg, Hd.
        econstructor; eauto.
      * rewrite length_app. cbn. lia.
      * destruct l; [now apply nwalk_last in Hn as [_ ?]|]. exact Hhd.
    + destruct (Hchain v Hv') as (l & Hl & Hn & Hlen & Hhd).
      exists l. repeat split; auto. now apply chain_insert_fresh.
  - intros v r Hv Hwalk. destruct (Hnew v Hv) as [->|[Hne Hv']].
    + change (gval st (e_node x) <= r). rewrite Hg. auto.
    + apply (Hopt v r Hv' Hwalk).
  - intros v Hv Hne. destruct (Hnew v Hv) as [->|[_ Hv']]; [rewrite Hq; eauto|auto].
  - intros y Hy. destruct (Hqueue y (popped_sub _ _ _ _ Hpop Hy))
      as (p0 & e0 & c0 & q0 & ? & ? & ? & ? & ? & ? & ? & ?).
    exists p0, e0, c0, q0. simp. repeat split; auto.
  - intros y Hy Hyx Hne. change (gval st (e_node y) < e_dist y).
    destruct (Hnew _ Hyx) as [Heq|[_ Hy']].
    + rewrite Heq, Hg.
      pose proof (extract_min_least _ _ _ Hpop y Hy) as Hley.
      destruct (Hqueue y (popped_sub _ _ _ _ Hpop Hy)) as (_ & _ & _ & _ & _ & _ & _ & _ & _ & Hpry & _).
      rewrite Heq in Hpry.
      destruct (popped_distinct _ _ _ Hpop Hdist) as [_ Hdiff].
      specialize (Hdiff y Hy). rewrite Heq in Hdiff.
      assert (e_dist y <> e_dist x) by congruence. lra.
    + apply Hstale; auto. eapply popped_sub; eauto.
  - now apply (popped_distinct _ _ _ Hpop).
  - intros v q0 h' Hq0. destruct (Henqd v q0 h' Hq0) as [? [?|(y & Hy & Hyn & Hyd)]]; split; auto.
    destruct (popped_in _ _ _ _ Hpop Hy) as [->|Hy'].
    + left. rewrite <- Hyn, lookup_insert_eq. eauto.
    + right. eauto.
  - intros u v e0 c0 Hu Hin0 Hc0. change (u = e_node x /\ In (v, e0) (succ (e_node x)) \/
      covered (set_explored (e_node x) (e_parent x) (set_queue q' st)) v (gval st u + c0)).
    destruct (Hnew u Hu) as [->|[Hne Hu']]; [left; auto|right].
    destruct (Hcover u v e0 c0 Hu' Hin0 Hc0) as [[_ []]|[?|(y & Hy & Hyn & Hyd)]].
    + left. simp. auto.
    + destruct (popped_in _ _ _ _ Hpop Hy) as [->|Hy'].
      * left. simp. rewrite <- Hyn, lookup_insert_eq. eauto.
      * right. exists y. simp. auto.
  - rewrite lookup_insert_eq. eauto.
  - auto.
Qed.

Lemma gval_explored (n : node) (p : option node) (q : list entry) (st : state) (v : node) :
  gval (set_explored n p (set_queue q st)) v = gval st v.
Proof. reflexivity. Qed.

(** The state after the source is explored. *)
Lemma run_inv_init :
  source <> target ->
  run_inv source (succ source) (set_explored source None (set_queue [] (init_state source))).
Proof.
  intros Hst.
  assert (Hdom : forall v, is_Some ((<[source := None]> ∅ : gmap Z (option node)) !! v) -> v = source).
  { intros v Hv. destruct (decide (v = source)) as [|Hne]; [done|].
    rewrite lookup_insert_ne, lookup_empty in Hv by done. now destruct Hv. }
  split; simp; cbn [init_state enqueued explored queue].
  - apply lookup_insert_eq.
  - intros v Hv. apply Hdom. rewrite Hv. eauto.
  - rewrite lookup_insert_ne by done. apply lookup_empty.
  - intros v Hv. rewrite (Hdom v Hv). exists [source]. repeat split.
    + constructor. apply lookup_insert_eq.
    + unfold AstarInv.gval. rewrite decide_True by done. constructor.
    + rewrite map_size_insert_None by apply lookup_empty. cbn. lia.
  - intros v r Hv Hwalk. rewrite (Hdom v Hv) in *.
    unfold AstarInv.gval. rewrite decide_True by done.
    pose proof (walk_heuristic succ weight heuristic target _ _ _ Hcons Hwalk). lra.
  - intros v Hv Hne. now apply Hdom in Hv.
  - intros x [].
  - intros x [].
  - constructor.
  - intros v q h' Hq. now rewrite lookup_empty in Hq.
  - intros u v e c Hu Hin Hc. left. rewrite (Hdom u Hu) in *. auto.
  - rewrite lookup_insert_eq. eauto.
  - auto.
Qed.

(** When the loop returns a path, it is a walk from the source to the
    target of least cost. *)
Lemma search_found (fuel : nat) (st : state) (cur : node) (path : list node) :
  run_inv cur [] st ->
  search succ weight heuristic target fuel st = Found path ->
  exists r, nwalk path target r /\ hd_error path = Some source /\
            forall r', walk source target r' -> r <= r'.
Proof.
  revert st cur. induction fuel as [|fuel IH]; intros st cur Hinv Hs; cbn in Hs; [discriminate|].
  destruct (extract_min (queue st)) as [[x q']|] eqn:Hpop; [|discriminate].
  destruct (decide (e_node x = target)) as [Hxt|Hxt].
  - destruct (ri_queue _ _ _ _ _ _ _ _ Hinv x (popped_self _ _ _ Hpop))
      as (p & e & c & q & Hpar & Hp & Hin & Hw & Hd & _).
    destruct (ri_chain _ _ _ _ _ _ _ _ Hinv p Hp) as (l & Hl & Hn & Hlen & Hhd).
    rewrite Hpar, (trace_back_chain source _ _ _ _ _ Hl Hlen) in Hs. injection Hs as <-.
    exists (e_dist x). rewrite Hxt in *. repeat split.
    + rewrite Hd. econstructor; eauto.
    + destruct l; [now apply nwalk_last in Hn as [_ ?]|]. exact Hhd.
    + intros r' Hwalk. rewrite <- Hxt in Hwalk. eapply pop_optimal; eauto.
      rewrite Hxt. apply (ri_target _ _ _ _ _ _ _ _ Hinv).
  - destruct (explored st !! e_node x) as [[par|]|] eqn:Hex.
    + destruct (enqueued st !! e_node x) as [[qcost h']|] eqn:Hq; [|discriminate].
      assert (Hsome : is_Some (explored st !! e_node x)) by (rewrite Hex; eauto).
      destruct (decide (qcost < e_dist x)) as [Hlt|Hge].
      * eapply IH; [|exact Hs]. eapply run_inv_drop; eauto.
      * exfalso. apply Hge.
        assert (Hne : e_node x <> source).
        { intros Heq. rewrite Heq, (ri_source _ _ _ _ _ _ _ _ Hinv) in Hex. discriminate. }
        pose proof (ri_stale _ _ _ _ _ _ _ _ Hinv x (popped_self _ _ _ Hpop) Hsome Hne) as Hst.
        unfold AstarInv.gval in Hst. rewrite decide_False, Hq in Hst by done. exact Hst.
    + eapply IH; [|exact Hs]. eapply run_inv_drop; eauto.
    + destruct (expand_node succ weight heuristic target x (set_queue q' st)) as [st2|] eqn:Hexp;
        [|discriminate].
      destruct (run_inv_explore cur st x q' Hinv Hpop Hex Hxt) as [Hinv' Hg].
      eapply IH; [|exact Hs]. eapply expand_inv; [exact Hinv'|].
      rewrite gval_explored, Hg. exact Hexp.
Qed.

Theorem astar_found (fuel : nat) (path : list node) :
  astar_path succ weight heuristic source target fuel = Found path ->
  exists r, nwalk path target r /\ hd_error path = Some source /\
            forall r', walk source target r' -> r <= r'.
Proof.
  unfold astar_path. destruct fuel as [|fuel]; [discriminate|].
  cbn. destruct (decide (source = target)) as [Heq|Hne].
  - destruct (size _); cbn; intros [= <-]; exists 0; rewrite <- Heq;
      (repeat split; [constructor|];
       intros r' Hwalk;
       pose proof (walk_heuristic succ weight heuristic target _ _ _ Hcons Hwalk); lra).
  - rewrite lookup_empty.
    destruct (expand_node _ _ _ _ _ _) as [st2|] eqn:Hexp; [|discriminate].
    intros Hs. eapply search_found; [|exact Hs].
    eapply expand_inv; [apply (run_inv_init Hne)|].
    unfold expand_node in Hexp. cbn [e_node e_dist e_parent] in Hexp.
    rewrite gval_explored. unfold AstarInv.gval at 1. rewrite decide_True by done. exact Hexp.
Qed.

End LoopInvariant.


(** ** The route under the "short" policy *)

Lemma assoc_node_in {A : Type} (l : list (node * A)) (v : node) (a : A) :
  NoDup (map fst l) -> In (v, a) l -> assoc_node l v = Some a.
Proof.
  induction l as [|[v' a'] l IH]; intros Hnd Hin; [done|].
  cbn [map fst] in Hnd. apply NoDup_cons in Hnd as [Hnotin Hnd].
  cbn. destruct Hin as [[= -> ->]|Hin].
  - now rewrite Z.eqb_refl.
  - destruct (Z.eqb_spec v' v) as [->|Hne]; [|auto].
    exfalso. apply Hnotin. apply list_elem_of_In, in_map_iff. exists (v, a). auto.
Qed.

(** The edge [min_by_length] picks has the length that [length_weight] gives. *)
Lemma min_pick_fold (rest : multi_edge) (m : edge_attrs) :
  Forall (fun ka : pykey * edge_attrs => is_Some (Graph.length (snd ka))) rest ->
  is_Some (Graph.length m) ->
  key_length (fold_left (fun m ka => if decide (key_length (snd ka) < key_length m)
                                     then snd ka else m) rest m)
  = fold_left (fun m ka => py_min m (attr_length (snd ka))) rest (attr_length m).
Proof.
  intros Hall. revert m. induction Hall as [|[k a] rest [la Ha] _ IH]; intros m [lm Hm].
  - cbn. unfold key_length, attr_length. now rewrite Hm.
  - cbn [fold_left snd]. cbn [snd] in Ha.
    assert (Hka : key_length a = attr_length a)
      by (unfold key_length, attr_length; now rewrite Ha).
    assert (Hkm : key_length m = attr_length m)
      by (unfold key_length, attr_length; now rewrite Hm).
    unfold py_min. rewrite <- Hka, <- Hkm.
    destruct (decide (key_length a < key_length m)).
    + rewrite IH by eauto. now rewrite Hka.
    + rewrite IH by eauto. now rewrite Hkm.
Qed.

Lemma min_by_length_weight (attrs : multi_edge) (c : R) :
  Forall (fun ka : pykey * edge_attrs => is_Some (Graph.length (snd ka))) attrs ->
  length_weight attrs = Some c ->
  exists data, min_by_length attrs = Some data /\ key_length data = c.
Proof.
  intros Hall Hc. destruct attrs as [|[k a] rest]; [discriminate|].
  cbn in Hc. injection Hc as <-. eexists. split; [reflexivity|].
  apply Forall_cons in Hall as [Ha Hrest]. now apply min_pick_fold.
Qed.

Lemma walk_steps_cons (G : street_graph) (a b : node) (rest : list node) :
  walk_steps G (a :: b :: rest)
  = match get_edge_data G a b with
    | None => None
    | Some attrs =>
        match min_by_length attrs, walk_steps G (b :: rest) with
        | Some data, Some (steps, total) =>
            Some ({| s_from := a; s_to := b;
                     s_street := default "unnamed"%string (name data);
                     s_length_m := round1 (key_length data) |} :: steps,
                  key_length data + total)
        | _, _ => None
        end
    end.
Proof. reflexivity. Qed.

Lemma walk_steps_snoc (G : street_graph) (l : list node) (u v : node)
    (attrs : multi_edge) (data : edge_attrs) (steps : list route_step) (t : R) :
  walk_steps G (l ++ [u]) = Some (steps, t) ->
  get_edge_data G u v = Some attrs -> min_by_length attrs = Some data ->
  exists steps' t', walk_steps G ((l ++ [u]) ++ [v]) = Some (steps', t') /\
                    t' = t + key_length data.
Proof.
  intros Hws Hed Hmin. revert steps t Hws.
  induction l as [|a l IH]; intros steps t Hws.
  - cbn in Hws. injection Hws as <- <-. cbn. rewrite Hed, Hmin.
    eexists _, _. split; [reflexivity|lra].
  - assert (exists b rest, l ++ [u] = b :: rest) as (b & rest & Hl)
      by (destruct l; cbn; eauto).
    cbn [app] in *. rewrite Hl in *. cbn [app].
    rewrite walk_steps_cons in Hws |- *.
    destruct (get_edge_data G a b) as [attrs0|]; [|discriminate].
    destruct (min_by_length attrs0) as [data0|]; [|discriminate].
    destruct (walk_steps G (b :: rest)) as [[steps0 t0]|] eqn:Hrec; [|discriminate].
    injection Hws as <- <-.
    destruct (IH _ _ eq_refl) as (steps' & t' & Hs' & ->).
    cbn [app] in Hs'. rewrite Hs'. eexists _, _. split; [reflexivity|lra].
Qed.

Lemma nwalk_total_len (G : street_graph) (path : list node) (v : node) (r : R) :
  well_formed G ->
  nwalk (g_succ G) by_length path v r ->
  (exists l0, path = l0 ++ [v]) /\ total_len G path = Some r.
Proof.
  intros Hwf Hn. unfold total_len.
  induction Hn as [u|l u v attrs c r Hn [[l0 ->] IH] Hin Hc].
  - split; [now exists []|reflexivity].
  - split; [eauto|].
    destruct (Hwf u) as [Hnd Hlen].
    destruct (min_by_length_weight attrs c (Hlen _ _ Hin) Hc) as (data & Hmin & <-).
    destruct (walk_steps G (l0 ++ [u])) as [[steps t]|] eqn:Hws; [|discriminate].
    cbn in IH. injection IH as ->.
    destruct (walk_steps_snoc G l0 u v attrs data steps r Hws) as (steps' & t' & -> & ->); auto.
    unfold get_edge_data. now apply assoc_node_in.
Qed.


(** ** Two runs of the search on the detour graph *)

Lemma detour_h3 (x2 : R) : h (detour_projected x2) 3 3 = 0.
Proof.
  unfold h, hypot. cbn [detour_projected g_nodes n_x n_y Z.eqb Pos.eqb].
  replace ((0 - 0) * (0 - 0) + (3 - 3) * (3 - 3)) with 0 by lra. apply sqrt_0.
Qed.

Lemma detour_h2 (x2 : R) : h (detour_projected x2) 2 3 = sqrt (x2 * x2 + 1).
Proof.
  unfold h, hypot. cbn [detour_projected g_nodes n_x n_y Z.eqb Pos.eqb].
  f_equal. lra.
Qed.

Lemma detour_h1 (x2 : R) : h (detour_projected x2) 1 3 = 2.
Proof.
  unfold h, hypot. cbn [detour_projected g_nodes n_x n_y Z.eqb Pos.eqb].
  replace ((0 - 0) * (0 - 0) + (1 - 3) * (1 - 3)) with (2 * 2) by lra.
  apply sqrt_square. lra.
Qed.


Section Unfold.
Context {E : Type}.
Variable succ : node -> list (node * E).
Variable weight : node -> node -> E -> option R.
Variable heuristic : node -> node -> R.
Variable target : node.

Lemma search_pop_target (fuel : nat) (st : state) (x : entry) (q' : list entry) :
  extract_min (queue st) = Some (x, q') -> e_node x = target ->
  search succ weight heuristic target (S fuel) st
  = match trace_back (size (explored st)) (explored st) (e_parent x) [e_node x] with
    | Some path => Found path
    | None => Failed
    end.
Proof. intros Hpop Hx. cbn. rewrite Hpop. now rewrite decide_True. Qed.

Lemma search_pop_new (fuel : nat) (st st2 : state) (x : entry) (q' : list entry) :
  extract_min (queue st) = Some (x, q') -> e_node x <> target ->
  explored st !! e_node x = None ->
  expand weight heuristic target (e_node x) (e_dist x) (succ (e_node x))
         (set_explored (e_node x) (e_parent x) (set_queue q' st)) = Some st2 ->
  search succ weight heuristic target (S fuel) st
  = search succ weight heuristic target fuel st2.
Proof.
  intros Hpop Hx Hex Hexp. cbn. rewrite Hpop. rewrite decide_False by done.
  rewrite Hex. unfold expand_node. now rewrite Hexp.
Qed.

Lemma expand_push_new (cur : node) (dist : R) (v : node) (w : E) (rest : list (node * E))
    (st : state) (cost : R) :
  weight cur v w = Some cost -> enqueued st !! v = None ->
  expand weight heuristic target cur dist ((v, w) :: rest) st
  = expand weight heuristic target cur dist rest
           (push v (dist + cost) (heuristic v target) cur st).
Proof. intros Hw Hq. cbn. now rewrite Hw, Hq. Qed.

Lemma expand_push_better (cur : node) (dist : R) (v : node) (w : E) (rest : list (node * E))
    (st : state) (cost qcost hv : R) :
  weight cur v w = Some cost -> enqueued st !! v = Some (qcost, hv) ->
  dist + cost < qcost ->
  expand weight heuristic target cur dist ((v, w) :: rest) st
  = expand weight heuristic target cur dist rest (push v (dist + cost) hv cur st).
Proof. intros Hw Hq Hlt. cbn. rewrite Hw, Hq. rewrite decide_False by lra. done. Qed.

End Unfold.


Lemma entry_ltb_prio_ge (a b : entry) : e_prio b < e_prio a -> entry_ltb a b = false.
Proof.
  intros H. unfold entry_ltb. rewrite decide_False by lra. now rewrite decide_False by lra.
Qed.


Lemma by_length_attrs_of (u v : node) (len : R) : by_length u v (attrs_of len) = Some len.
Proof. reflexivity. Qed.

Ltac unfold_state :=
  unfold push, set_explored, set_queue;
  cbn [queue counter enqueued explored e_node e_dist e_parent e_prio e_count].


Lemma astar_detour_near :
  astar_path detour_succ by_length (h (detour_projected 0)) 1 3 3 = Found [1%Z; 2%Z; 3%Z].
Proof.
  unfold astar_path, init_state.
  erewrite search_pop_new; [|reflexivity|done|apply lookup_empty|].
  2:{ cbn [e_node e_dist e_parent detour_succ Z.eqb Pos.eqb].
      erewrite expand_push_new; [|apply by_length_attrs_of|apply lookup_empty].
      erewrite expand_push_new; [|apply by_length_attrs_of|].
      2:{ unfold_state. rewrite lookup_insert_ne by done. apply lookup_empty. }
      reflexivity. }
  unfold_state. rewrite detour_h3, detour_h2.
  replace (sqrt (0 * 0 + 1)) with 1 by (replace (0 * 0 + 1) with 1 by lra; now rewrite sqrt_1).
  erewrite search_pop_new.
  2:{ cbn [queue extract_min]. rewrite entry_ltb_prio_ge; [reflexivity|]. cbn [e_prio]. lra. }
  2:{ done. }
  2:{ unfold_state. rewrite lookup_insert_ne by done. apply lookup_empty. }
  2:{ unfold_state. cbn [detour_succ Z.eqb Pos.eqb].
      erewrite expand_push_better; [|apply by_length_attrs_of| |].
      2:{ unfold_state. rewrite lookup_insert_ne by done. apply lookup_insert_eq. }
      2:{ lra. }
      reflexivity. }
  unfold_state.
  erewrite search_pop_target.
  2:{ cbn [queue extract_min]. rewrite entry_ltb_prio_ge; [reflexivity|]. cbn [e_prio]. lra. }
  2:{ reflexivity. }
  cbn [explored e_parent e_node].
  rewrite map_size_insert_None by (rewrite lookup_insert_ne by done; apply lookup_empty).
  rewrite map_size_insert_None, map_size_empty by apply lookup_empty.
  cbn [trace_back]. rewrite lookup_insert_eq.
  rewrite lookup_insert_ne by done. rewrite lookup_insert_eq. reflexivity.
Qed.


Lemma detour_succ_cases (u v : node) (attrs : multi_edge) :
  In (v, attrs) (detour_succ u) ->
  (u = 1%Z /\ v = 3%Z /\ attrs = attrs_of 10) \/
  (u = 1%Z /\ v = 2%Z /\ attrs = attrs_of 1) \/
  (u = 2%Z /\ v = 3%Z /\ attrs = attrs_of 1).
Proof.
  unfold detour_succ. destruct (Z.eqb_spec u 1) as [->|_].
  - intros [[= <- <-]|[[= <- <-]|[]]]; auto.
  - destruct (Z.eqb_spec u 2) as [->|_]; [|intros []].
    intros [[= <- <-]|[]]; auto.
Qed.

Lemma detour_well_formed : well_formed detour.
Proof.
  intros u. split.
  - cbn [detour g_succ]. unfold detour_succ.
    destruct (Z.eqb u 1); [|destruct (Z.eqb u 2)]; cbn [map fst].
    + apply NoDup_cons. split; [|apply NoDup_singleton].
      intros Hin. apply list_elem_of_singleton in Hin. discriminate.
    + apply NoDup_singleton.
    + apply NoDup_nil_2.
  - intros v attrs Hin.
    destruct (detour_succ_cases u v attrs Hin) as [(_ & _ & ->)|[(_ & _ & ->)|(_ & _ & ->)]];
      repeat constructor; cbn; eauto.
Qed.

Lemma detour_consistent : consistent_heuristic detour (detour_projected 0) 3.
Proof.
  intros u v attrs c Hin Hc.
  assert (H2 : h (detour_projected 0) 2 3 = 1).
  { rewrite detour_h2. replace (0 * 0 + 1) with 1 by lra. apply sqrt_1. }
  destruct (detour_succ_cases u v attrs Hin) as [(-> & -> & ->)|[(-> & -> & ->)|(-> & -> & ->)]];
    rewrite by_length_attrs_of in Hc; injection Hc as <-;
    rewrite ?detour_h1, ?detour_h3, ?H2; lra.
Qed.

Lemma detour_walk : route_walk detour 1 3 (1 + (1 + 0)).
Proof.
  unfold route_walk.
  eapply walk_step; [| apply (by_length_attrs_of 1 2 1) |].
  - cbn. right. left. reflexivity.
  - eapply walk_step; [| apply (by_length_attrs_of 2 3 1) |].
    + cbn. left. reflexivity.
    + constructor.
Qed.


Lemma find_route_detour_near (lights : list light) (ped_pts : list hazard) :
  find_route 3 (detour_osm 0) "short" detour (detour_projected 0) lights ped_pts 1 3
  = Routed detour_artifact.
Proof.
  unfold find_route. change (search_weight "short" detour lights ped_pts) with by_length.
  change (g_succ (detour_projected 0)) with detour_succ.
  rewrite astar_detour_near. reflexivity.
Qed.




(** The whole endpoint on the detour graph, under "short" and under "fast". *)
Lemma route_detour :
  fst (route 3 (detour_osm 0) detour_request fs_empty proc_init) = Routed detour_artifact /\
  fst (route 3 (detour_osm 0) (with_pref "Fast" detour_request) fs_empty proc_init)
  = Routed detour_artifact.
Proof.
  split.
  - unfold route. cbn -[find_route]. apply find_route_detour_near.
  - unfold route. cbn -[find_route]. apply find_route_detour_near.
Qed.


(** ** The loop ends *)

Section Termination.

Context {E : Type}.
Variable succ : node -> list (node * E).
Variable weight : node -> node -> E -> option R.
Variable heuristic : node -> node -> R.
Variables source target : node.
Variable nodes : list node.

#[local] Abbreviation run_inv := (run_inv succ weight heuristic source target).
#[local] Abbreviation rounds_left := (rounds_left succ nodes).
#[local] Abbreviation unexplored_edges := (unexplored_edges succ nodes).

Hypothesis Hcons : consistent succ weight heuristic target.
Hypothesis Hclosed : closed_under_succ succ nodes.

Lemma expand_queue_length (cur : node) (dist : R) (nbrs : list (node * E)) (st st' : state) :
  expand weight heuristic target cur dist nbrs st = Some st' ->
  explored st' = explored st /\
  (List.length (queue st') <= List.length (queue st) + List.length nbrs)%nat.
Proof.
  revert st. induction nbrs as [|[v e] nbrs IH]; intros st Hexp; cbn in Hexp.
  - injection Hexp as <-. split; [done|lia].
  - destruct (weight cur v e) as [c|]; [|discriminate].
    destruct (enqueued st !! v) as [[q h']|].
    + destruct (decide (q <= dist + c)).
      * destruct (IH _ Hexp) as [-> Hlen]. split; [done|]. cbn [List.length]. lia.
      * destruct (IH _ Hexp) as [-> Hlen]. split; [done|]. cbn in Hlen |- *. lia.
    + destruct (IH _ Hexp) as [-> Hlen]. split; [done|]. cbn in Hlen |- *. lia.
Qed.

Lemma unexplored_edges_insert (ns : list node) (expl : gmap Z (option node)) (v : node)
    (p : option node) :
  expl !! v = None -> In v ns ->
  (AstarInv.unexplored_edges succ ns (<[v := p]> expl) + List.length (succ v)
   <= AstarInv.unexplored_edges succ ns expl)%nat.
Proof.
  intros Hv. unfold AstarInv.unexplored_edges.
  unfold list_sum.
  induction ns as [|u l IH]; intros Hin; [destruct Hin|].
  cbn [map fold_right].
  assert (Hmono : (fold_right Nat.add O (map (fun u => match <[v := p]> expl !! u with
                                          | None => List.length (succ u) | Some _ => O end) l)
                   <= fold_right Nat.add O (map (fun u => match expl !! u with
                                              | None => List.length (succ u) | Some _ => O end) l))%nat).
  { clear. induction l as [|w l IHl]; cbn [map fold_right]; [lia|].
    destruct (decide (w = v)) as [->|Hne].
    - rewrite lookup_insert_eq. cbn beta iota. lia.
    - rewrite lookup_insert_ne by done. lia. }
  destruct (decide (u = v)) as [->|Hne].
  - rewrite lookup_insert_eq, Hv. cbn beta iota. lia.
  - rewrite lookup_insert_ne by done. destruct Hin as [?|Hin]; [done|].
    specialize (IH Hin). destruct (expl !! u); lia.
Qed.

Lemma popped_length (q q' : list entry) (x : entry) :
  extract_min q = Some (x, q') -> List.length q = S (List.length q').
Proof. intros Hpop. now rewrite (Permutation_length (extract_min_perm _ _ _ Hpop)). Qed.

(** With more fuel than rounds left, the loop does not run out of fuel. *)
Lemma search_ends (fuel : nat) (st : state) (cur : node) :
  run_inv cur [] st -> (rounds_left st < fuel)%nat ->
  search succ weight heuristic target fuel st <> OutOfFuel.
Proof.
  revert st cur. induction fuel as [|fuel IH]; intros st cur Hinv Hfuel; [lia|].
  cbn. destruct (extract_min (queue st)) as [[x q']|] eqn:Hpop; [|discriminate].
  pose proof (popped_length _ _ _ Hpop) as Hlen.
  unfold AstarInv.rounds_left in Hfuel.
  destruct (decide (e_node x = target)) as [Hxt|Hxt].
  { destruct (trace_back _ _ _ _); discriminate. }
  assert (Hdrop : is_Some (explored st !! e_node x) ->
                  search succ weight heuristic target fuel (set_queue q' st) <> OutOfFuel).
  { intros Hsome. eapply IH; [eapply run_inv_drop; eauto|].
    unfold AstarInv.rounds_left. cbn [queue explored set_queue]. lia. }
  destruct (explored st !! e_node x) as [[par|]|] eqn:Hex.
  - destruct (enqueued st !! e_node x) as [[qcost h']|] eqn:Hqc; [|discriminate].
    destruct (decide (qcost < e_dist x)); [apply Hdrop; eauto|].
    destruct (expand_node _ _ _ _ _ _) as [st2|] eqn:Hexp; [|discriminate].
    exfalso.
    assert (Hne : e_node x <> source).
    { intros Heq. rewrite Heq, (ri_source _ _ _ _ _ _ _ _ Hinv) in Hex. discriminate. }
    assert (Hsome : is_Some (explored st !! e_node x)) by (rewrite Hex; eauto).
    pose proof (ri_stale _ _ _ _ _ _ _ _ Hinv x (popped_self _ _ _ Hpop) Hsome Hne) as Hst.
    unfold gval in Hst. rewrite decide_False, Hqc in Hst by done. lra.
  - apply Hdrop. eauto.
  - destruct (expand_node _ _ _ _ _ _) as [st2|] eqn:Hexp; [|discriminate].
    destruct (run_inv_explore succ weight heuristic source target Hcons cur st x q'
                Hinv Hpop Hex Hxt) as [Hinv' Hg].
    unfold expand_node in Hexp.
    destruct (expand_queue_length _ _ _ _ _ Hexp) as [Hexpl Hq2].
    eapply (IH st2 (e_node x)).
    + eapply expand_inv; [exact Hinv'|].
      rewrite gval_explored, Hg. exact Hexp.
    + unfold AstarInv.rounds_left. rewrite Hexpl.
      cbn [queue explored set_queue set_explored] in Hq2 |- *.
      assert (Hin : In (e_node x) nodes).
      { destruct (ri_queue _ _ _ _ _ _ _ _ Hinv x (popped_self _ _ _ Hpop))
          as (p & e & _ & _ & _ & _ & Hin & _). eapply Hclosed; eauto. }
      pose proof (unexplored_edges_insert nodes (explored st) (e_node x) (e_parent x) Hex Hin).
      lia.
Qed.

(** The search ends within two rounds more than the graph has edges. *)
Theorem astar_ends (fuel : nat) :
  In source nodes ->
  (2 + list_sum (map (fun u => List.length (succ u)) nodes) <= fuel)%nat ->
  astar_path succ weight heuristic source target fuel <> OutOfFuel.
Proof.
  intros Hsrc Hfuel. unfold astar_path.
  destruct fuel as [|fuel]; [lia|]. cbn.
  destruct (decide (source = target)) as [Heq|Hne].
  { destruct (trace_back _ _ _ _); discriminate. }
  rewrite lookup_empty.
  destruct (expand_node _ _ _ _ _ _) as [st2|] eqn:Hexp; [|discriminate].
  unfold expand_node in Hexp. cbn [e_node e_dist e_parent] in Hexp.
  destruct (expand_queue_length _ _ _ _ _ Hexp) as [Hexpl Hq2].
  eapply (search_ends fuel st2 source).
  - eapply expand_inv; [apply (run_inv_init succ weight heuristic source target Hcons Hne)|].
    rewrite gval_explored. unfold gval at 1. rewrite decide_True by done. exact Hexp.
  - unfold AstarInv.rounds_left. rewrite Hexpl.
    cbn [queue explored set_queue set_explored init_state List.length] in Hq2 |- *.
    pose proof (unexplored_edges_insert nodes ∅ source None (lookup_empty _) Hsrc) as Hins.
    assert (Hall : unexplored_edges ∅ = list_sum (map (fun u => List.length (succ u)) nodes)).
    { unfold AstarInv.unexplored_edges. f_equal. }
    lia.
Qed.

End Termination.

(** Under the "short" policy the search of [route] ends: with as much fuel
    as the graph has edges, and two more, the result is a response. *)
Theorem short_route_finishes (fuel : nat) (env : osm) (G Gp : street_graph)
    (lights : list light) (ped_pts : list hazard) (orig dest : node) (nodes : list node) :
  g_succ Gp = g_succ G ->
  consistent_heuristic G Gp dest ->
  closed_under_succ (g_succ G) nodes ->
  In orig nodes ->
  (2 + list_sum (map (fun u => List.length (g_succ G u)) nodes) <= fuel)%nat ->
  find_route fuel env "short" G Gp lights ped_pts orig dest <> Unfinished.
Proof.
  intros Hsucc Hcons Hclosed Hin Hfuel. unfold find_route.
  change (search_weight "short" G lights ped_pts) with by_length. rewrite Hsucc.
  pose proof (astar_ends (g_succ G) by_length (h Gp) orig dest nodes Hcons Hclosed fuel Hin Hfuel)
    as Hends.
  destruct (astar_path _ _ _ _ _ _); try discriminate; [|done].
  destruct (_route_to_geojson env G path); discriminate.
Qed.

Lemma detour_route_finishes (fuel : nat) :
  (5 <= fuel)%nat ->
  find_route fuel (detour_osm 0) "short" detour (detour_projected 0) [] [] 1 3 <> Unfinished.
Proof.
  intros Hfuel.
  apply (short_route_finishes fuel (detour_osm 0) detour (detour_projected 0) [] []
           1%Z 3%Z [1%Z; 2%Z; 3%Z]).
  - reflexivity.
  - exact detour_consistent.
  - intros u v e Hinv. cbn in Hinv.
    destruct (detour_succ_cases u v e Hinv) as [(_ & -> & _)|[(_ & -> & _)|(_ & -> & _)]];
      cbn; auto.
  - now left.
  - cbn. lia.
Qed.


(** ** More on the great-circle distance *)

(** The quantity [a] of [_haversine]. *)
Lemma haversine_unfold (u v : R * R) :
  _haversine u v
  = 6371000 * (2 * atan2 (sqrt (hav_a u v)) (sqrt (1 - hav_a u v))).
Proof. reflexivity. Qed.

Lemma sin_sqr_neg (x : R) : sin (- x) ^ 2 = sin x ^ 2.
Proof. rewrite sin_neg. ring. Qed.

Lemma hav_a_sym (u v : R * R) : hav_a u v = hav_a v u.
Proof.
  unfold hav_a.
  replace ((radians (fst u) - radians (fst v)) / 2)
    with (- ((radians (fst v) - radians (fst u)) / 2)) by lra.
  replace ((radians (snd u) - radians (snd v)) / 2)
    with (- ((radians (snd v) - radians (snd u)) / 2)) by lra.
  rewrite !sin_sqr_neg. ring.
Qed.

Lemma sin_half_sqr (x : R) : sin (x / 2) ^ 2 = (1 - cos x) / 2.
Proof.
  replace x with (2 * (x / 2)) at 2 by lra. rewrite cos_2a_sin. simpl. lra.
Qed.

Lemma hav_a_range (u v : R * R) : 0 <= hav_a u v <= 1.
Proof.
  unfold hav_a. rewrite !sin_half_sqr, cos_minus.
  set (p1 := radians (fst u)). set (p2 := radians (fst v)).
  set (k := cos (radians (snd v) - radians (snd u))).
  pose proof (sin2_cos2 p1) as H1. pose proof (sin2_cos2 p2) as H2. unfold Rsqr in H1, H2.
  pose proof (COS_bound (radians (snd v) - radians (snd u))) as [Hk1 Hk2]. fold k in Hk1, Hk2.
  set (s1 := sin p1) in *. set (c1 := cos p1) in *.
  set (s2 := sin p2) in *. set (c2 := cos p2) in *.
  assert (Hcs : (s1 * s2 + c1 * c2 * k) ^ 2 <= 1).
  { assert (Hk : k * k <= 1) by nra.
    assert (Hexp : (s1 * s2 + c1 * c2 * k) ^ 2
                   = (s1 * s1 + c1 * c1) * (s2 * s2 + c2 * c2 * (k * k))
                     - (s1 * c2 * k - c1 * s2) ^ 2) by ring.
    rewrite Hexp, H1.
    assert (0 <= (s1 * c2 * k - c1 * s2) ^ 2) by (apply pow2_ge_0).
    assert (0 <= c2 * c2) by nra. nra. }
  assert (Habs : -1 <= s1 * s2 + c1 * c2 * k <= 1) by (split; nra).
  split; nra.
Qed.

Lemma atan2_quadrant (y x : R) : 0 <= y -> 0 <= x -> 0 <= atan2 y x <= PI / 2.
Proof.
  intros Hy Hx. unfold atan2. pose proof PI_RGT_0 as Hpi.
  destruct (decide (0 < x)) as [Hpos|Hnpos].
  - assert (Hq : 0 <= y / x) by (apply Rmult_le_pos; [done|left; now apply Rinv_0_lt_compat]).
    pose proof (atan_bound (y / x)) as [_ Hub]. split; [|lra].
    destruct Hq as [Hq|<-]; [|rewrite atan_0; lra].
    left. rewrite <- atan_0. now apply atan_increasing.
  - rewrite decide_False by lra.
    destruct (decide (0 < y)); [lra|]. rewrite decide_False by lra. lra.
Qed.

(** X1: The distance is symmetric. *)
Theorem haversine_sym (u v : R * R) : _haversine u v = _haversine v u.
Proof. rewrite !haversine_unfold. now rewrite (hav_a_sym u v). Qed.

(** X2: The distance is never negative and never more than half the
    circumference of the sphere. *)
Theorem haversine_range (u v : R * R) : 0 <= _haversine u v <= 6371000 * PI.
Proof.
  rewrite haversine_unfold. pose proof (hav_a_range u v) as [Ha0 Ha1].
  pose proof (atan2_quadrant (sqrt (hav_a u v)) (sqrt (1 - hav_a u v))
                (sqrt_pos _) (sqrt_pos _)) as [Hlo Hhi].
  split; nra.
Qed.

Lemma atan2_sin_cos (x : R) : 0 <= x <= PI / 2 -> atan2 (sin x) (cos x) = x.
Proof.
  intros [H0 H1]. pose proof PI_RGT_0 as Hpi. unfold atan2.
  destruct H1 as [H1| ->].
  - assert (0 < cos x) by (apply cos_gt_0; lra).
    rewrite decide_True by done. change (sin x / cos x) with (tan x).
    apply atan_tan. lra.
  - rewrite cos_PI2, sin_PI2. rewrite decide_False by lra. rewrite decide_False by lra.
    rewrite decide_True by lra. reflexivity.
Qed.

(** X3: Along a meridian the distance is the arc: the earth radius times the
    difference of the latitudes in radians. *)
Theorem haversine_meridian (lat1 lat2 lon : R) :
  0 <= lat2 - lat1 <= 180 ->
  _haversine (lat1, lon) (lat2, lon) = 6371000 * radians (lat2 - lat1).
Proof.
  intros Hd. rewrite haversine_unfold. unfold hav_a. cbn [fst snd].
  pose proof PI_RGT_0 as Hpi.
  set (x := (radians lat2 - radians lat1) / 2).
  assert (Hx : 0 <= x <= PI / 2) by (unfold x, radians; nra).
  replace ((radians lon - radians lon) / 2) with 0 by lra. rewrite sin_0.
  replace (sin x ^ 2 + cos (radians lat1) * cos (radians lat2) * 0 ^ 2) with (Rsqr (sin x))
    by (unfold Rsqr; ring).
  replace (1 - Rsqr (sin x)) with (Rsqr (cos x)) by (pose proof (sin2_cos2 x); lra).
  assert (0 <= sin x) by (apply sin_ge_0; lra).
  assert (0 <= cos x) by (apply cos_ge_0; lra).
  rewrite !sqrt_Rsqr by done. rewrite atan2_sin_cos by done.
  unfold x, radians. lra.
Qed.

Lemma haversine_pole (y t : R) : y = 0 -> _haversine (y, t) (90, 0) = 6371000 * (PI / 2).
Proof.
  intros ->. rewrite haversine_unfold. unfold hav_a. cbn [fst snd]. unfold radians.
  replace ((90 * PI / 180 - 0 * PI / 180) / 2) with (PI / 4) by lra.
  replace (90 * PI / 180) with (PI / 2) by lra. rewrite cos_PI2.
  replace (sin (PI / 4) ^ 2 + cos (0 * PI / 180) * 0 * sin ((0 * PI / 180 - t * PI / 180) / 2) ^ 2)
    with (Rsqr (sin (PI / 4))) by (unfold Rsqr; ring).
  replace (1 - Rsqr (sin (PI / 4))) with (Rsqr (cos (PI / 4)))
    by (pose proof (sin2_cos2 (PI / 4)); lra).
  pose proof PI_RGT_0 as Hpi.
  assert (0 <= sin (PI / 4)) by (apply sin_ge_0; lra).
  assert (0 <= cos (PI / 4)) by (apply cos_ge_0; lra).
  rewrite !sqrt_Rsqr by done. rewrite atan2_sin_cos by lra. lra.
Qed.

Lemma haversine_meridian_witness :
  0 <= 1 - 0 <= 180 /\ _haversine (0, 0) (1, 0) = 6371000 * radians (1 - 0).
Proof. split; [lra|]. apply (haversine_meridian 0 1 0). lra. Defined.


(** ** The heuristic of the search *)

Lemma hypot_nonneg (x y : R) : 0 <= hypot x y.
Proof. apply sqrt_pos. Qed.

Lemma hypot_sqr (x y : R) : hypot x y * hypot x y = x * x + y * y.
Proof. unfold hypot. apply sqrt_sqrt. nra. Qed.

Lemma hypot_triangle (a b c d : R) : hypot (a + c) (b + d) <= hypot a b + hypot c d.
Proof.
  pose proof (hypot_nonneg a b) as Hp. pose proof (hypot_nonneg c d) as Hq.
  pose proof (hypot_sqr a b) as Hp2. pose proof (hypot_sqr c d) as Hq2.
  set (p := hypot a b) in *. set (q := hypot c d) in *.
  assert (Hcs : a * c + b * d <= p * q).
  { destruct (Rle_dec (a * c + b * d) 0) as [Hneg|Hpos]; [nra|].
    assert (Hsq : (a * c + b * d) * (a * c + b * d) <= (p * q) * (p * q)).
    { replace (p * q * (p * q)) with ((p * p) * (q * q)) by ring. rewrite Hp2, Hq2.
      replace ((a * a + b * b) * (c * c + d * d))
        with ((a * c + b * d) * (a * c + b * d) + (a * d - b * c) * (a * d - b * c)) by ring.
      pose proof (Rle_0_sqr (a * d - b * c)) as Hs. unfold Rsqr in Hs. lra. }
    assert (0 <= p * q) by nra. nra. }
  unfold hypot at 1.
  rewrite <- (sqrt_square (p + q)) by lra.
  apply sqrt_le_1_alt. nra.
Qed.

(** X4: [h] is never negative, is 0 from a node to itself, and is symmetric. *)
Theorem heuristic_basics (Gp : street_graph) (u v : node) :
  0 <= h Gp u v /\ h Gp u u = 0 /\ h Gp u v = h Gp v u.
Proof.
  unfold h. repeat split.
  - destruct (n_x (g_nodes Gp u)), (n_y (g_nodes Gp u)), (n_x (g_nodes Gp v)),
      (n_y (g_nodes Gp v)); try lra; apply hypot_nonneg.
  - destruct (n_x (g_nodes Gp u)) as [x|], (n_y (g_nodes Gp u)) as [y|]; try reflexivity.
    unfold hypot. replace ((x - x) * (x - x) + (y - y) * (y - y)) with 0 by ring.
    apply sqrt_0.
  - destruct (n_x (g_nodes Gp u)) as [ux|], (n_y (g_nodes Gp u)) as [uy|],
      (n_x (g_nodes Gp v)) as [vx|], (n_y (g_nodes Gp v)) as [vy|]; try reflexivity.
    unfold hypot. f_equal. ring.
Qed.

Lemma heuristic_triangle (Gp : street_graph) (u v w : node) :
  is_Some (n_x (g_nodes Gp v)) -> is_Some (n_y (g_nodes Gp v)) ->
  h Gp u w <= h Gp u v + h Gp v w.
Proof.
  intros [vx Hvx] [vy Hvy]. unfold h. rewrite Hvx, Hvy.
  destruct (n_x (g_nodes Gp u)) as [ux|], (n_y (g_nodes Gp u)) as [uy|],
    (n_x (g_nodes Gp w)) as [wx|], (n_y (g_nodes Gp w)) as [wy|];
    try (pose proof (hypot_nonneg (ux - vx) (uy - vy)));
    try (pose proof (hypot_nonneg (vx - wx) (vy - wy))); try lra.
  replace (ux - wx) with ((ux - vx) + (vx - wx)) by ring.
  replace (uy - wy) with ((uy - vy) + (vy - wy)) by ring.
  apply hypot_triangle.
Qed.

(** X5: When every node of the projected graph has coordinates and every edge
    is at least as long as the planar distance between its end nodes, the
    heuristic is consistent, towards every destination. *)
Theorem heuristic_consistent_of_lengths (G Gp : street_graph) (dest : node) :
  (forall u, is_Some (n_x (g_nodes Gp u)) /\ is_Some (n_y (g_nodes Gp u))) ->
  (forall u v attrs c, In (v, attrs) (g_succ G u) -> length_weight attrs = Some c ->
                       h Gp u v <= c) ->
  consistent_heuristic G Gp dest.
Proof.
  intros Hcoords Hlen u v attrs c Hin Hc.
  destruct (Hcoords v) as [Hx Hy].
  pose proof (heuristic_triangle Gp u v dest Hx Hy).
  specialize (Hlen u v attrs c Hin Hc). lra.
Qed.

Lemma detour_h12 : h (detour_projected 0) 1 2 = 1.
Proof.
  unfold h, hypot. cbn [detour_projected g_nodes n_x n_y Z.eqb Pos.eqb].
  replace ((0 - 0) * (0 - 0) + (1 - 2) * (1 - 2)) with 1 by lra. apply sqrt_1.
Qed.

Lemma heuristic_consistent_of_lengths_witness : consistent_heuristic detour (detour_projected 0) 3.
Proof.
  apply (heuristic_consistent_of_lengths detour (detour_projected 0) 3).
  - intros u. split; cbn; eauto.
  - intros u v attrs c Hin Hc. cbn in Hin.
    destruct (detour_succ_cases u v attrs Hin) as [(-> & -> & ->)|[(-> & -> & ->)|(-> & -> & ->)]];
      cbn in Hc; injection Hc as <-.
    + rewrite detour_h1. lra.
    + rewrite detour_h12. lra.
    + rewrite detour_h2. replace (0 * 0 + 1) with 1 by lra. rewrite sqrt_1. lra.
Defined.


(** ** More on the cost model *)

Lemma sample_count_pos (L : R) : (1 <= sample_count L)%nat.
Proof. unfold sample_count. lia. Qed.

(** X6: The samples of an edge: at least two, the first at the start node and
    the last at the end node. *)
Theorem samples_ends (uy ux vy vx L : R) :
  let pts := samples uy ux vy vx (sample_count L) in
  (2 <= List.length pts)%nat /\
  hd_error pts = Some (uy, ux) /\
  List.last pts (0, 0) = (vy, vx).
Proof.
  intros pts. unfold pts. pose proof (sample_count_pos L) as Hn.
  set (n := sample_count L) in *. repeat split.
  - rewrite samples_length. lia.
  - unfold samples. replace (n + 1)%nat with (S n) by lia. cbn [seq map hd_error].
    f_equal. unfold sample_point. cbn [INR]. unfold Rdiv. f_equal; ring.
  - unfold samples. rewrite Nat.add_1_r, seq_S, map_app. cbn [map Nat.add].
    rewrite last_last. unfold sample_point.
    assert (INR n <> 0) by (apply not_0_INR; lia).
    f_equal; field; done.
Qed.

Lemma gaussian_le_1 (sigma d : R) : sigma <> 0 -> gaussian sigma d <= 1.
Proof.
  intros Hs. unfold gaussian. rewrite <- exp_0.
  assert (Hle : - (d * d) / (2 * (sigma * sigma)) <= 0).
  { assert (0 < sigma * sigma) by nra.
    unfold Rdiv. assert (0 < / (2 * (sigma * sigma))) by (apply Rinv_0_lt_compat; lra).
    nra. }
  destruct Hle as [Hlt|Heq]; [left; now apply exp_increasing|rewrite Heq; lra].
Qed.

Lemma lighting_density_le (lights : list light) (loc : R * R) :
  lighting_density_at lights loc <= INR (List.length lights).
Proof.
  unfold lighting_density_at. induction lights as [|l lights IH].
  - cbn [List.filter map List.length INR]. rewrite Rsum_nil. lra.
  - cbn [List.filter]. change (List.length (l :: lights)) with (S (List.length lights)).
    rewrite S_INR. destruct (bool_decide _); cbn [map]; rewrite ?Rsum_cons; [|lra].
    pose proof (gaussian_le_1 40 (_haversine loc l)). lra.
Qed.

Lemma average_bound (l : list R) (b : R) :
  0 <= b -> Forall (fun x => x <= b) l -> average l <= b.
Proof.
  intros Hb Hall. unfold average. destruct l as [|x l]; [rewrite Rsum_nil; cbn [List.length INR]; lra|].
  assert (Hn : 0 < INR (List.length (x :: l))) by (apply lt_0_INR; cbn; lia).
  assert (Hs : Rsum (x :: l) <= INR (List.length (x :: l)) * b).
  { clear Hn. induction Hall as [|y l' Hy _ IH]; [rewrite Rsum_nil; cbn [List.length INR]; lra|].
    rewrite Rsum_cons. change (List.length (y :: l')) with (S (List.length l')).
    rewrite S_INR. lra. }
  apply Rmult_le_reg_r with (r := INR (List.length (x :: l))); [done|].
  unfold Rdiv. rewrite Rmult_assoc, Rinv_l by lra. lra.
Qed.

(** X7: The density of an edge lies between 0 and the number of lights. *)
Theorem edge_density_range (G : street_graph) (lights : list light) (u v : node) :
  0 <= _edge_density G lights u v <= INR (List.length lights).
Proof.
  split; [apply edge_density_nonneg|].
  destruct (edge_density_cases G lights u v) as [-> | ->]; [|apply pos_INR].
  unfold density_spec. destruct (edge_samples G u v) as [pts|]; [|apply pos_INR].
  apply average_bound; [apply pos_INR|].
  apply List.Forall_forall. intros x Hx. apply in_map_iff in Hx as (loc & <- & _).
  apply lighting_density_le.
Qed.

(** X8: The darkness term is positive and never more than [2 / eps]. *)
Theorem dark_term_range (G : street_graph) (lights : list light) (u v : node) :
  0 < dark_term G lights u v <= 2000000.
Proof.
  rewrite darkness_eq. pose proof (edge_density_nonneg G lights u v) as Hd.
  split.
  - unfold darkness_of. apply Rmult_lt_0_compat; [|case_decide; lra].
    apply Rdiv_lt_0_compat; lra.
  - apply Rle_trans with (darkness_of 0); [apply darkness_of_antitone; lra|].
    unfold darkness_of. rewrite decide_True by lra.
    replace (1 / 1000000 + 3 * 0) with (1 / 1000000) by lra.
    right. field.
Qed.

(** X9: Lights farther than [4 * sigma] from every sample of the edge do not
    change its density: dropping them leaves it as it is. *)
Theorem edge_density_far_lights (G : street_graph) (lights : list light) (u v : node)
    (keep : light -> bool) :
  (forall pts l loc, edge_samples G u v = Some pts -> In l lights -> keep l = false ->
                     In loc pts -> _haversine loc l > 4 * 40) ->
  _edge_density G (List.filter keep lights) u v = _edge_density G lights u v.
Proof.
  intros Hfar.
  destruct (edge_coords G u v) as [[[[uy ux] vy] vx]|] eqn:Hc.
  2:{ rewrite !edge_density_degenerate; auto. }
  destruct (decide (0 < _haversine (uy, ux) (vy, vx))) as [HL|HL].
  2:{ rewrite !edge_density_degenerate; auto; right; exists uy, ux, vy, vx; split; auto; lra. }
  rewrite !(edge_density_main G _ u v uy ux vy vx) by done.
  unfold density_spec. destruct (edge_samples G u v) as [pts|] eqn:Hs; [|done].
  f_equal. apply map_ext_in. intros loc Hloc.
  specialize (Hfar pts). unfold lighting_density_at.
  clear Hc HL Hs. induction lights as [|l lights IH]; [done|].
  cbn [List.filter].
  assert (IH' : Rsum (map (fun l0 => gaussian 40 (_haversine loc l0))
                      (List.filter (fun l0 => bool_decide (_haversine loc l0 <= 4 * 40))
                                   (List.filter keep lights)))
                = Rsum (map (fun l0 => gaussian 40 (_haversine loc l0))
                        (List.filter (fun l0 => bool_decide (_haversine loc l0 <= 4 * 40)) lights))).
  { apply IH. intros l0 loc0 Hs0 Hin. apply Hfar; auto. now right. }
  destruct (keep l) eqn:Hk.
  - cbn [List.filter]. destruct (bool_decide _); cbn [map]; rewrite ?Rsum_cons; now rewrite IH'.
  - rewrite bool_decide_eq_false_2; [exact IH'|].
    specialize (Hfar l loc eq_refl (or_introl eq_refl) Hk Hloc). lra.
Qed.

(** The weight that a "length" search gives an edge is the least of the
    lengths of its parallel edges (1 for an edge without length), and there
    is none only for an empty dict. *)
Lemma length_weight_least (attrs : multi_edge) :
  match length_weight attrs with
  | Some c => (forall ka, In ka attrs -> c <= attr_length (snd ka)) /\
              (exists ka, In ka attrs /\ attr_length (snd ka) = c)
  | None => attrs = []
  end.
Proof.
  destruct attrs as [|[k a] rest]; [reflexivity|]. cbn [length_weight].
  assert (Hfold : forall m,
             let c := fold_left (fun m ka => py_min m (attr_length (snd ka))) rest m in
             c <= m /\ (forall ka, In ka rest -> c <= attr_length (snd ka)) /\
             (c = m \/ exists ka, In ka rest /\ attr_length (snd ka) = c)).
  { induction rest as [|[k' a'] rest IH]; intros m; cbn [fold_left snd].
    - split; [lra|]. split; [intros ? []|now left].
    - specialize (IH (py_min m (attr_length a'))). cbv zeta in IH.
      destruct IH as (Hle & Hall & Hex).
      assert (Hmin : py_min m (attr_length a') <= m /\ py_min m (attr_length a') <= attr_length a' /\
                     (py_min m (attr_length a') = m \/ py_min m (attr_length a') = attr_length a'))
        by (unfold py_min; case_decide; lra).
      destruct Hmin as (Hm1 & Hm2 & Hm3).
      split; [lra|]. split.
      + intros ka [<-|Hin]; [cbn; lra|auto].
      + destruct Hex as [Heq|(ka & Hin & Hka)].
        * destruct Hm3 as [Hm3|Hm3]; [left; congruence|].
          right. exists (k', a'). split; [now left|]. cbn. congruence.
        * right. exists ka. split; [now right|done]. }
  specialize (Hfold (attr_length a)). cbv zeta in Hfold. destruct Hfold as (Hle & Hall & Hex).
  split.
  - intros ka [<-|Hin]; [cbn; lra|auto].
  - destruct Hex as [Heq|(ka & Hin & Hka)].
    + exists (k, a). split; [now left|]. cbn. congruence.
    + exists ka. split; [now right|done].
Qed.

Lemma edge_density_far_lights_witness :
  _edge_density (two_nodes 1) (List.filter (fun _ => false) [(90, 0)]) 1%Z 2%Z
  = _edge_density (two_nodes 1) [(90, 0)] 1%Z 2%Z.
Proof.
  apply (edge_density_far_lights (two_nodes 1) [(90, 0)] 1%Z 2%Z (fun _ => false)).
  intros pts l loc Hs [<-|[]] _ Hloc.
  unfold edge_samples in Hs. cbn in Hs. injection Hs as <-.
  unfold samples in Hloc. apply in_map_iff in Hloc as (i & <- & _).
  unfold sample_point. rewrite haversine_pole by lra.
  pose proof PI2_3_2. lra.
Defined.


(** ** More on the hazard term *)

Lemma ped_round_positive (loc : R * R) (ped_pts : list hazard) (sp : R * R) :
  fold_left (ped_round loc) (List.filter (fun hz : hazard => bool_decide (0 < snd hz)) ped_pts) sp
  = fold_left (ped_round loc) ped_pts sp.
Proof.
  revert sp. induction ped_pts as [|[[py px] score] rest IH]; intros sp; [reflexivity|].
  cbn [List.filter snd]. destruct (decide (0 < score)) as [Hs|Hs].
  - rewrite bool_decide_eq_true_2 by done. cbn [fold_left]. apply IH.
  - rewrite bool_decide_eq_false_2 by done. cbn [fold_left]. rewrite IH.
    f_equal. unfold ped_round. rewrite decide_True by lra. reflexivity.
Qed.

Lemma fold_left_ext_fun {A B : Type} (f g : A -> B -> A) (l : list B) (a : A) :
  (forall x y, f x y = g x y) -> fold_left f l a = fold_left g l a.
Proof. intros H. revert a. induction l as [|y l IH]; intros a; cbn; [done|]. now rewrite H, IH. Qed.

Lemma ped_sample_none (pts : list (R * R)) (a pk : R) :
  fold_left (ped_sample_round []) pts (a, pk) = (a, pk).
Proof.
  revert a. induction pts as [|loc pts IH]; intros a; cbn [fold_left]; [done|].
  unfold ped_sample_round at 2. cbn [fold_left fst snd]. rewrite IH. f_equal. lra.
Qed.

(** Dropping the danger points with a score of 0 or less leaves the hazard
    statistics of an edge as they are. *)
Lemma ped_stats_filter_positive (G : street_graph) (ped_pts : list hazard) (u v : node) :
  _edge_ped_stats G (List.filter (fun hz : hazard => bool_decide (0 < snd hz)) ped_pts) u v
  = _edge_ped_stats G ped_pts u v.
Proof.
  set (pos := List.filter _ ped_pts).
  assert (Hround : forall ap loc, ped_sample_round pos ap loc = ped_sample_round ped_pts ap loc).
  { intros ap loc. unfold ped_sample_round, pos. now rewrite ped_round_positive. }
  unfold _edge_ped_stats.
  destruct (edge_coords G u v) as [[[[uy ux] vy] vx]|]; [|now destruct pos, ped_pts].
  destruct (decide (_haversine (uy, ux) (vy, vx) <= 0)); [now destruct pos, ped_pts|].
  destruct ped_pts as [|hz rest] eqn:Hp; [reflexivity|]. rewrite <- Hp in *.
  rewrite <- (fold_left_ext_fun _ _ _ _ Hround).
  destruct pos as [|hz' rest']; [|reflexivity].
  rewrite ped_sample_none. cbn [fst snd]. f_equal. unfold Rdiv. lra.
Qed.

(** X10: A danger point with a score of 0 or less has no effect on the hazard
    statistics of an edge, wherever it stands in the danger set. *)
Theorem edge_ped_stats_positive (G : street_graph) (l1 l2 : list hazard) (hz : hazard)
    (u v : node) :
  snd hz <= 0 ->
  _edge_ped_stats G (l1 ++ hz :: l2) u v = _edge_ped_stats G (l1 ++ l2) u v.
Proof.
  intros Hs.
  rewrite <- (ped_stats_filter_positive G (l1 ++ hz :: l2)),
          <- (ped_stats_filter_positive G (l1 ++ l2)).
  rewrite !List.filter_app. cbn [List.filter].
  now rewrite (bool_decide_eq_false_2 (0 < snd hz)) by lra.
Qed.

Lemma edge_ped_stats_positive_witness :
  _edge_ped_stats (two_nodes 1) ([(0, 0, 1)] ++ (0, 1, 0) :: []) 1%Z 2%Z
  = _edge_ped_stats (two_nodes 1) ([(0, 0, 1)] ++ []) 1%Z 2%Z.
Proof.
  apply (edge_ped_stats_positive (two_nodes 1) [(0, 0, 1)] [] (0, 1, 0)).
  cbn. lra.
Defined.

Lemma filter_sublist {A : Type} (p : A -> bool) (l1 l2 : list A) :
  sublist l1 l2 -> sublist (List.filter p l1) (List.filter p l2).
Proof.
  induction 1 as [|x l1 l2 _ IH|x l1 l2 _ IH]; cbn [List.filter].
  - constructor.
  - destruct (p x); [now constructor|done].
  - destruct (p x); [now constructor|done].
Qed.

Lemma hazard_density_nonneg (ped_pts : list hazard) (loc : R * R) :
  0 <= hazard_density_at ped_pts loc.
Proof.
  unfold hazard_density_at. apply Rsum_nonneg. apply List.Forall_forall.
  intros x Hx. apply in_map_iff in Hx as (hz & <- & _).
  pose proof (gaussian_pos 30 (_haversine loc (fst hz))). pose proof (pow2_ge_0 (snd hz)). nra.
Qed.

Lemma hazard_density_sublist (l1 l2 : list hazard) (loc : R * R) :
  sublist l1 l2 -> hazard_density_at l1 loc <= hazard_density_at l2 loc.
Proof.
  unfold hazard_density_at. induction 1 as [|x l1 l2 _ IH|x l1 l2 _ IH]; cbn [List.filter].
  - lra.
  - destruct (bool_decide _); cbn [map]; rewrite ?Rsum_cons; lra.
  - destruct (bool_decide _); cbn [map]; rewrite ?Rsum_cons; [|lra].
    pose proof (gaussian_pos 30 (_haversine loc (fst x))). pose proof (pow2_ge_0 (snd x)). nra.
Qed.

Lemma existsb_sublist {A : Type} (p : A -> bool) (l1 l2 : list A) :
  sublist l1 l2 -> existsb p l1 = true -> existsb p l2 = true.
Proof.
  induction 1 as [|x l1 l2 _ IH|x l1 l2 _ IH]; cbn [existsb]; [done| |].
  - destruct (p x); cbn [orb]; auto.
  - intros H. rewrite (IH H). now destruct (p x).
Qed.

Lemma high_risk_sublist (high : R -> bool) (l1 l2 : list hazard) (pts : list (R * R)) :
  sublist l1 l2 -> high_risk_near high l1 pts = true -> high_risk_near high l2 pts = true.
Proof.
  intros Hs. unfold high_risk_near. induction pts as [|loc pts IH]; cbn [existsb]; [done|].
  intros H. apply orb_true_iff in H as [H|H]; apply orb_true_iff.
  - left. now apply (existsb_sublist _ l1 l2).
  - right. now apply IH.
Qed.

Lemma hazard_of_nonneg (high : R -> bool) (ped_pts : list hazard) (pts : list (R * R)) :
  0 <= hazard_of high ped_pts pts.
Proof.
  unfold hazard_of.
  assert (0 <= average (map (hazard_density_at ped_pts) pts)).
  { apply average_nonneg. apply List.Forall_forall. intros x Hx.
    apply in_map_iff in Hx as (loc & <- & _). apply hazard_density_nonneg. }
  destruct (high_risk_near _ _ _); lra.
Qed.

Lemma hazard_of_sublist (high : R -> bool) (l1 l2 : list hazard) (pts : list (R * R)) :
  sublist l1 l2 -> hazard_of high l1 pts <= hazard_of high l2 pts.
Proof.
  intros Hs. unfold hazard_of.
  assert (average (map (hazard_density_at l1) pts) <= average (map (hazard_density_at l2) pts)).
  { apply average_le. induction pts as [|loc pts IH]; cbn [map]; constructor; [|done].
    now apply hazard_density_sublist. }
  pose proof (high_risk_sublist high l1 l2 pts Hs).
  destruct (high_risk_near high l1 pts); [rewrite H0 by done; lra|].
  destruct (high_risk_near high l2 pts); lra.
Qed.

Lemma ped_term_positive (G : street_graph) (ped_pts : list hazard) (u v : node) :
  ped_term G (List.filter (fun hz : hazard => bool_decide (0 < snd hz)) ped_pts) u v
  = ped_term G ped_pts u v.
Proof. unfold ped_term. now rewrite ped_stats_filter_positive. Qed.

(** The hazard term of an edge is never negative, and taking danger points
    away never raises it. *)
Theorem ped_term_sublist (G : street_graph) (l1 l2 : list hazard) (u v : node) :
  sublist l1 l2 -> 0 <= ped_term G l1 u v <= ped_term G l2 u v.
Proof.
  intros Hs.
  destruct (edge_coords G u v) as [[[[uy ux] vy] vx]|] eqn:Hc.
  2:{ rewrite !hazard_term_degenerate by auto. lra. }
  destruct (decide (0 < _haversine (uy, ux) (vy, vx))) as [HL|HL].
  2:{ rewrite !hazard_term_degenerate; [lra| |]; right; exists uy, ux, vy, vx; split; auto; lra. }
  rewrite <- (ped_term_positive G l1), <- (ped_term_positive G l2).
  set (pos := fun hz : hazard => bool_decide (0 < snd hz)).
  assert (Hpos : forall l, Forall (fun hz : hazard => 0 <= snd hz) (List.filter pos l)).
  { intros l. apply List.Forall_forall. intros hz Hin. apply filter_In in Hin as [_ Hp].
    unfold pos in Hp. apply bool_decide_eq_true_1 in Hp. lra. }
  assert (Hval : forall l, ped_term G (List.filter pos l) u v
                           = hazard_of at_least_threshold (List.filter pos l)
                               (samples uy ux vy vx (sample_count (_haversine (uy, ux) (vy, vx))))).
  { intros l. unfold ped_term.
    rewrite (edge_ped_stats_main G _ u v uy ux vy vx Hc HL (Hpos l)).
    unfold hazard_of, PEDS_WEIGHT, HIGH_RISK_JUMP. destruct (high_risk_near _ _ _); lra. }
  rewrite !Hval. split; [apply hazard_of_nonneg|].
  apply hazard_of_sublist. now apply filter_sublist.
Qed.

(** X11: Reporting more danger never makes an edge cheaper: for every
    preference the cost of an edge with some danger points taken away is at
    most its cost with all of them. *)
Theorem edge_weight_hazard_monotone (pref : string) (G : street_graph) (lights : list light)
    (l1 l2 : list hazard) (u v : node) (attrs : multi_edge) (c1 c2 : R) :
  sublist l1 l2 ->
  _edge_weight pref G lights l1 u v attrs = Some c1 ->
  _edge_weight pref G lights l2 u v attrs = Some c2 ->
  c1 <= c2.
Proof.
  intros Hs. unfold _edge_weight. destruct (base_weight attrs) as [base|]; [|done].
  destruct (String.eqb pref "short"); [intros [= <-] [= <-]; lra|].
  destruct (_ && _); [|intros [= <-] [= <-]; lra].
  intros [= <-] [= <-]. pose proof (ped_term_sublist G l1 l2 u v Hs).
  unfold py_max. repeat case_decide; lra.
Qed.

(** X12: Lighting the streets never makes an edge dearer under the safe
    preference: with lights taken away (some left) the cost is at least
    the cost with all of them. *)
Theorem edge_weight_light_antitone (G : street_graph) (l1 l2 : list light)
    (ped_pts : list hazard) (u v : node) (attrs : multi_edge) (c1 c2 : R) :
  sublist l1 l2 -> l1 <> [] ->
  _edge_weight "safe" G l1 ped_pts u v attrs = Some c1 ->
  _edge_weight "safe" G l2 ped_pts u v attrs = Some c2 ->
  c2 <= c1.
Proof.
  intros Hs Hne. unfold _edge_weight. destruct (base_weight attrs) as [base|]; [|done].
  cbn [String.eqb Ascii.eqb Bool.eqb andb].
  assert (l2 <> []) by (intros ->; apply sublist_nil_r in Hs; done).
  rewrite !bool_decide_eq_false_2 by done. cbn [negb].
  intros [= <-] [= <-].
  assert (dark_term G l2 u v <= dark_term G l1 u v).
  { rewrite !darkness_eq. apply darkness_of_antitone; [apply edge_density_nonneg|].
    now apply edge_density_sublist. }
  unfold py_max. repeat case_decide; lra.
Qed.

Lemma edge_weight_hazard_monotone_witness :
  exists c1 c2,
    _edge_weight "safe" (two_nodes 1) [(0, 0)] [] 1%Z 2%Z (attrs_of 1) = Some c1 /\
    _edge_weight "safe" (two_nodes 1) [(0, 0)] [(0, 0, 1)] 1%Z 2%Z (attrs_of 1) = Some c2 /\
    c1 <= c2.
Proof.
  eexists _, _. split; [reflexivity|]. split; [reflexivity|].
  apply (edge_weight_hazard_monotone "safe" (two_nodes 1) [(0, 0)] [] [(0, 0, 1)] 1%Z 2%Z
           (attrs_of 1)).
  - apply sublist_nil_l.
  - reflexivity.
  - reflexivity.
Defined.

Lemma edge_weight_light_antitone_witness :
  exists c1 c2,
    _edge_weight "safe" (two_nodes 1) [(0, 1)] [] 1%Z 2%Z (attrs_of 1) = Some c1 /\
    _edge_weight "safe" (two_nodes 1) [(0, 0); (0, 1)] [] 1%Z 2%Z (attrs_of 1) = Some c2 /\
    c2 <= c1.
Proof.
  eexists _, _. split; [reflexivity|]. split; [reflexivity|].
  apply (edge_weight_light_antitone (two_nodes 1) [(0, 1)] [(0, 0); (0, 1)] [] 1%Z 2%Z
           (attrs_of 1)).
  - apply sublist_cons. apply sublist_skip. apply sublist_nil.
  - discriminate.
  - reflexivity.
  - reflexivity.
Defined.


(** ** More on the hazards store *)

Lemma clamp_maxmin_idem (sc : R) : clamp_maxmin (clamp_maxmin sc) = clamp_maxmin sc.
Proof. unfold clamp_maxmin, py_max, py_min. repeat case_decide; lra. Qed.

Lemma item_of_saved_feature (it : item) :
  item_of_feature (saved_feature it)
  = Emit {| it_lat := it_lat it; it_lon := it_lon it; it_score := clamp_maxmin (it_score it) |}.
Proof. reflexivity. Qed.

Lemma collect_saved_features (items : list item) :
  collect item_of_feature (map saved_feature items)
  = Some (map (fun it => {| it_lat := it_lat it; it_lon := it_lon it;
                            it_score := clamp_maxmin (it_score it) |}) items).
Proof.
  induction items as [|it items IH]; [reflexivity|].
  cbn [map collect]. rewrite item_of_saved_feature, IH. reflexivity.
Qed.

(** X13: After a POST /hazards that succeeds, GET /hazards returns the body of the
    response, and posting that body again stores and returns the same
    collection: the stored form is a fixed point. *)
Theorem post_hazards_fixed_point (p : payload) (old new : option document) (body : document) :
  post_hazards p old = (new, Ok body) ->
  get_hazards new = Ok body /\
  exists feats, body = Doc (Val feats) /\
                forall old', post_hazards (PDict (Val feats)) old' = (new, Ok body).
Proof.
  unfold post_hazards. destruct (payload_items p) as [items|]; [|done].
  intros [= <- <-]. split; [reflexivity|].
  exists (map saved_feature items). split; [reflexivity|]. intros old'.
  cbn [payload_items]. rewrite collect_saved_features. cbv zeta.
  assert (Hsame : _save_hazards (map (fun it => {| it_lat := it_lat it; it_lon := it_lon it;
                                                   it_score := clamp_maxmin (it_score it) |}) items)
                  = _save_hazards items).
  { unfold _save_hazards. do 2 f_equal. rewrite List.map_map. apply map_ext. intros it.
    unfold saved_feature. cbn [it_lat it_lon it_score]. now rewrite clamp_maxmin_idem. }
  now rewrite Hsame.
Qed.

Lemma post_hazards_fixed_point_witness :
  let body := _save_hazards [{| it_lat := 47; it_lon := 8; it_score := 2 |}] in
  get_hazards (Some body) = Ok body /\
  exists feats, body = Doc (Val feats) /\
                forall old', post_hazards (PDict (Val feats)) old' = (Some body, Ok body).
Proof.
  cbv zeta.
  apply (post_hazards_fixed_point
           (PList [HPModel {| hp_lat := 47; hp_lon := 8; hp_score := 2 |}]) None).
  reflexivity.
Defined.

Lemma collect_raises {A B : Type} (f : A -> step B) (l : list A) :
  collect f l = None <-> Exists (fun a => f a = Raise) l.
Proof.
  induction l as [|a l IH]; cbn [collect].
  - split; [done|]. intros H. inversion H.
  - destruct (f a) eqn:Hf.
    + rewrite IH. split; [now constructor 2|]. intros H. inversion H; congruence.
    + split; [now constructor 1|done].
    + destruct (collect f l) as [bs|].
      * split; [done|]. intros H. inversion H; [congruence|]. apply IH in H1. done.
      * split; [|done]. intros _. constructor 2. now apply IH.
Qed.

(** X15: A feature whose score cannot be read ends the loading: the hazards
    after it in the file are not loaded, whatever they are. *)
Theorem load_hazards_truncates (good rest : list feature) (bad : feature) :
  hazard_of_feature bad = Raise ->
  _load_hazards (Some (Doc (Val (good ++ bad :: rest))))
  = _load_hazards (Some (Doc (Val good))).
Proof.
  intros Hbad. cbn [_load_hazards]. generalize (@nil hazard) as pts.
  induction good as [|f good IH]; intros pts; cbn [app load_hazard_features].
  - now rewrite Hbad.
  - destruct (hazard_of_feature f); auto.
Qed.

Lemma load_hazards_truncates_witness :
  _load_hazards (Some (Doc (Val ([point_feature 8 47 []]
                                 ++ point_feature 8 47 [("score"%string, VStr "high" None)]
                                 :: [point_feature 9 46 []]))))
  = _load_hazards (Some (Doc (Val [point_feature 8 47 []]))).
Proof.
  apply (load_hazards_truncates [point_feature 8 47 []] [point_feature 9 46 []]
           (point_feature 8 47 [("score"%string, VStr "high" None)])).
  reflexivity.
Defined.


(** ** The process state across requests *)

Lemma ped_of_feature_range (f : feature) (hz : hazard) :
  ped_of_feature f = Emit hz -> 0 <= snd hz <= 1.
Proof.
  unfold ped_of_feature. destruct (is_Point _); [|done].
  destruct (f_geometry f) as [| |g]; try done.
  destruct (g_coordinates g) as [| |[|lon [|lat more]]]; try done;
    destruct (f_properties f); try done; intros [= <-]; cbn [snd];
    rewrite clamp_seq_spec; apply clamp01_range.
Qed.

Lemma collect_range {A : Type} (f : A -> step hazard) (l : list A) (pts : list hazard) :
  (forall a hz, f a = Emit hz -> 0 <= snd hz <= 1) ->
  collect f l = Some pts -> Forall (fun hz => 0 <= snd hz <= 1) pts.
Proof.
  intros Hf. revert pts. induction l as [|a l IH]; intros pts; cbn [collect].
  - intros [= <-]. constructor.
  - destruct (f a) as [| |hz] eqn:Ha; [auto|done|].
    destruct (collect f l) as [bs|]; [|done]. intros [= <-].
    constructor; [now apply (Hf a)|now apply IH].
Qed.

(** X17: A load of the pedestrians file that succeeds is cached: the next call,
    with the files as they are, returns the same list object and leaves the
    state alone.  A load that does not succeed returns a new empty list and
    leaves the cache as it was. *)
Theorem load_pedestrians_cached (fs : files) (p p1 : proc) (r : nat) :
  _load_pedestrians fs p = (r, p1) ->
  (ped_cache_pts p1 = Some r /\ _load_pedestrians fs p1 = (r, p1)) \/
  (deref r p1 = [] /\ ped_cache_pts p1 = ped_cache_pts p /\
   ped_cache_mtime p1 = ped_cache_mtime p).
Proof.
  unfold _load_pedestrians.
  destruct (first_existing (pedestrians_files fs)) as [[mtime doc]|] eqn:Hfile.
  2:{ intros [= <- <-]. right. split; [apply deref_alloc|done]. }
  assert (Hfresh : forall res,
             res = match doc with
                   | Doc Absent => let '(r', p') := alloc [] p in (r', set_ped_cache r' mtime p')
                   | Doc (Val feats) =>
                       match collect ped_of_feature feats with
                       | Some pts => let '(r', p') := alloc pts p in (r', set_ped_cache r' mtime p')
                       | None => alloc [] p
                       end
                   | _ => alloc [] p
                   end ->
             (ped_cache_pts res.2 = Some res.1 /\ ped_cache_mtime res.2 = Some mtime) \/
             (deref res.1 res.2 = [] /\ ped_cache_pts res.2 = ped_cache_pts p /\
              ped_cache_mtime res.2 = ped_cache_mtime p)).
  { intros res ->. destruct doc as [|[| |feats]];
      try (right; split; [apply deref_alloc|done]); [left; done|].
    destruct (collect ped_of_feature feats) as [pts|].
    - left. done.
    - right. split; [apply deref_alloc|done]. }
  assert (Hhit : forall r0 p0, ped_cache_pts p0 = Some r0 -> ped_cache_mtime p0 = Some mtime ->
                               match ped_cache_pts p0 with
                               | Some r' =>
                                   if decide (ped_cache_mtime p0 = Some mtime) then (r', p0)
                                   else match doc with
                                        | Doc Absent => let '(r', p') := alloc [] p0 in (r', set_ped_cache r' mtime p')
                                        | Doc (Val feats) =>
                                            match collect ped_of_feature feats with
                                            | Some pts => let '(r', p') := alloc pts p0 in (r', set_ped_cache r' mtime p')
                                            | None => alloc [] p0
                                            end
                                        | _ => alloc [] p0
                                        end
                               | None =>
                                   match doc with
                                   | Doc Absent => let '(r', p') := alloc [] p0 in (r', set_ped_cache r' mtime p')
                                   | Doc (Val feats) =>
                                       match collect ped_of_feature feats with
                                       | Some pts => let '(r', p') := alloc pts p0 in (r', set_ped_cache r' mtime p')
                                       | None => alloc [] p0
                                       end
                                   | _ => alloc [] p0
                                   end
                               end = (r0, p0)).
  { intros r0 p0 -> ->. now rewrite decide_True. }
  intros Hres.
  destruct (ped_cache_pts p) as [r0|] eqn:Hcache.
  - destruct (decide (ped_cache_mtime p = Some mtime)) as [Hm|Hm].
    + injection Hres as <- <-. left. split; [done|]. apply Hhit; done.
    + destruct (Hfresh _ (eq_sym Hres)) as [[H1 H2]|H1]; cbn [fst snd] in *.
      * left. split; [done|]. now apply Hhit.
      * right. done.
  - destruct (Hfresh _ (eq_sym Hres)) as [[H1 H2]|H1]; cbn [fst snd] in *.
    + left. split; [done|]. now apply Hhit.
    + right. done.
Qed.

Lemma load_pedestrians_cached_witness :
  let res := _load_pedestrians fs_hazard proc_init in
  (ped_cache_pts res.2 = Some res.1 /\ _load_pedestrians fs_hazard res.2 = (res.1, res.2)) \/
  (deref res.1 res.2 = [] /\ ped_cache_pts res.2 = ped_cache_pts proc_init /\
   ped_cache_mtime res.2 = ped_cache_mtime proc_init).
Proof.
  cbv zeta. apply (load_pedestrians_cached fs_hazard proc_init). reflexivity.
Defined.

(** X18: The lighting document is memoised on the modification time of the cache
    file alone: once loaded, it is served again, and the state left alone,
    for any content of the file as long as that time is the same. *)
Theorem lighting_memo_stale (fs fs' : files) (p p1 : proc) (d : document) :
  _load_lighting_cached fs p = (d, p1) ->
  fst <$> lighting_cache_file fs' = fst <$> lighting_cache_file fs ->
  _load_lighting_cached fs' p1 = (d, p1).
Proof.
  unfold _load_lighting_cached. intros Hload Hkey. rewrite Hkey.
  set (key := fst <$> lighting_cache_file fs) in *.
  assert (Hmemo : lighting_memo p1 = Some (key, d)).
  { destruct (lighting_memo p) as [[k d0]|] eqn:Hm.
    - destruct (decide (k = key)) as [->|Hne]; injection Hload as <- <-; [done|reflexivity].
    - injection Hload as <- <-. reflexivity. }
  rewrite Hmemo. now rewrite decide_True.
Qed.

Lemma lighting_memo_stale_witness :
  let fs := {| hazards_file := None; pedestrians_files := [];
               lighting_cache_file := Some (1, Doc (Val [point_feature 8 47 []])) |} in
  let fs' := {| hazards_file := None; pedestrians_files := [];
                lighting_cache_file := Some (1, Doc (Val [])) |} in
  let res := _load_lighting_cached fs proc_init in
  _load_lighting_cached fs' res.2 = (Doc (Val [point_feature 8 47 []]), res.2).
Proof.
  cbv zeta.
  apply (lighting_memo_stale
           {| hazards_file := None; pedestrians_files := [];
              lighting_cache_file := Some (1, Doc (Val [point_feature 8 47 []])) |}
           _ proc_init).
  - reflexivity.
  - reflexivity.
Defined.


(** ** What the answers of the search mean *)

Section Answers.

Context {E : Type}.
Variable succ : node -> list (node * E).
Variable weight : node -> node -> E -> option R.
Variable heuristic : node -> node -> R.
Variables source target : node.
Hypothesis Hcons : consistent succ weight heuristic target.

#[local] Abbreviation inv := (run_inv succ weight heuristic source target).

(** With an empty queue every node a walk from an explored node leads to
    is explored. *)
Lemma explored_closed (cur : node) (st : state) (u t : node) (r : R) :
  inv cur [] st -> queue st = [] ->
  walk succ weight u t r -> is_Some (explored st !! u) -> is_Some (explored st !! t).
Proof.
  intros Hinv Hq Hw. induction Hw as [u|u v t e c r Hin Hc _ IH]; [done|].
  intros Hu. apply IH.
  destruct (ri_cover _ _ _ _ _ _ _ _ Hinv u v e c Hu Hin Hc) as [[_ []]|[Hv|(x & Hx & _)]];
    [done|]. rewrite Hq in Hx. destruct Hx.
Qed.

Lemma search_no_path (fuel : nat) (st : state) (cur : node) (r : R) :
  inv cur [] st ->
  search succ weight heuristic target fuel st = NoPath ->
  ~ walk succ weight source target r.
Proof.
  revert st cur. induction fuel as [|fuel IH]; intros st cur Hinv Hs; cbn in Hs; [discriminate|].
  destruct (extract_min (queue st)) as [[x q']|] eqn:Hpop.
  - destruct (decide (e_node x = target)) as [Hxt|Hxt].
    { destruct (trace_back _ _ _ _); discriminate. }
    destruct (explored st !! e_node x) as [[par|]|] eqn:Hex.
    + destruct (enqueued st !! e_node x) as [[qcost h']|] eqn:Hq; [|discriminate].
      assert (Hsome : is_Some (explored st !! e_node x)) by (rewrite Hex; eauto).
      destruct (decide (qcost < e_dist x)) as [Hlt|Hge].
      * eapply IH; [|exact Hs]. eapply run_inv_drop; eauto.
      * exfalso. apply Hge.
        assert (Hne : e_node x <> source).
        { intros Heq. rewrite Heq, (ri_source _ _ _ _ _ _ _ _ Hinv) in Hex. discriminate. }
        pose proof (ri_stale _ _ _ _ _ _ _ _ Hinv x (popped_self _ _ _ Hpop) Hsome Hne) as Hst.
        unfold AstarInv.gval in Hst. rewrite decide_False, Hq in Hst by done. exact Hst.
    + eapply IH; [|exact Hs]. eapply run_inv_drop; eauto.
    + destruct (expand_node succ weight heuristic target x (set_queue q' st)) as [st2|] eqn:Hexp;
        [|discriminate].
      destruct (run_inv_explore succ weight heuristic source target Hcons cur st x q'
                  Hinv Hpop Hex Hxt) as [Hinv' Hg].
      eapply IH; [|exact Hs]. eapply expand_inv; [exact Hinv'|].
      rewrite gval_explored, Hg. exact Hexp.
  - intros Hw. apply extract_min_none in Hpop.
    assert (Hsrc : is_Some (explored st !! source))
      by (rewrite (ri_source _ _ _ _ _ _ _ _ Hinv); eauto).
    pose proof (explored_closed cur st source target r Hinv Hpop Hw Hsrc) as Ht.
    rewrite (ri_target _ _ _ _ _ _ _ _ Hinv) in Ht. now destruct Ht.
Qed.

(** When the search answers that there is no path, no walk leads from the
    source to the target. *)
Lemma astar_no_path (fuel : nat) (r : R) :
  astar_path succ weight heuristic source target fuel = NoPath ->
  ~ walk succ weight source target r.
Proof.
  unfold astar_path. destruct fuel as [|fuel]; [discriminate|].
  cbn. destruct (decide (source = target)) as [Heq|Hne].
  { destruct (trace_back _ _ _ _); discriminate. }
  rewrite lookup_empty.
  destruct (expand_node _ _ _ _ _ _) as [st2|] eqn:Hexp; [|discriminate].
  intros Hs. eapply search_no_path; [|exact Hs].
  eapply expand_inv; [apply (run_inv_init succ weight heuristic source target Hcons Hne)|].
  unfold expand_node in Hexp. cbn [e_node e_dist e_parent] in Hexp.
  rewrite gval_explored. unfold AstarInv.gval at 1. rewrite decide_True by done. exact Hexp.
Qed.

(** *** No failure when every edge has a weight *)

Hypothesis Hweight : forall u v e, In (v, e) (succ u) -> is_Some (weight u v e).

Lemma expand_total (cur : node) (dist : R) (nbrs : list (node * E)) (st : state) :
  (forall ve, In ve nbrs -> In ve (succ cur)) ->
  is_Some (expand weight heuristic target cur dist nbrs st).
Proof.
  revert st. induction nbrs as [|[v e] nbrs IH]; intros st Hsub; cbn [expand]; [eauto|].
  destruct (Hweight cur v e (Hsub _ (or_introl eq_refl))) as [c ->].
  assert (Hsub' : forall ve, In ve nbrs -> In ve (succ cur)) by (intros ve H; apply Hsub; now right).
  destruct (enqueued st !! v) as [[qcost h']|]; [case_decide|]; now apply IH.
Qed.

Lemma search_no_failure (fuel : nat) (st : state) (cur : node) :
  inv cur [] st ->
  search succ weight heuristic target fuel st <> Failed.
Proof.
  revert st cur. induction fuel as [|fuel IH]; intros st cur Hinv; cbn; [discriminate|].
  destruct (extract_min (queue st)) as [[x q']|] eqn:Hpop; [|discriminate].
  destruct (decide (e_node x = target)) as [Hxt|Hxt].
  - destruct (ri_queue _ _ _ _ _ _ _ _ Hinv x (popped_self _ _ _ Hpop))
      as (p & e & c & q & Hpar & Hp & Hin & Hw & Hd & _).
    destruct (ri_chain _ _ _ _ _ _ _ _ Hinv p Hp) as (l & Hl & Hn & Hlen & Hhd).
    rewrite Hpar, (trace_back_chain source _ _ _ _ _ Hl Hlen). discriminate.
  - destruct (explored st !! e_node x) as [[par|]|] eqn:Hex.
    + assert (Hsome : is_Some (explored st !! e_node x)) by (rewrite Hex; eauto).
      assert (Hne : e_node x <> source).
      { intros Heq. rewrite Heq, (ri_source _ _ _ _ _ _ _ _ Hinv) in Hex. discriminate. }
      destruct (ri_enq _ _ _ _ _ _ _ _ Hinv _ Hsome Hne) as [[qcost h'] Hq]. rewrite Hq.
      destruct (decide (qcost < e_dist x)) as [Hlt|Hge].
      * eapply IH. eapply run_inv_drop; eauto.
      * exfalso. apply Hge.
        pose proof (ri_stale _ _ _ _ _ _ _ _ Hinv x (popped_self _ _ _ Hpop) Hsome Hne) as Hst.
        unfold AstarInv.gval in Hst. rewrite decide_False, Hq in Hst by done. exact Hst.
    + eapply IH. eapply run_inv_drop; eauto.
    + destruct (run_inv_explore succ weight heuristic source target Hcons cur st x q'
                  Hinv Hpop Hex Hxt) as [Hinv' Hg].
      unfold expand_node.
      destruct (expand_total (e_node x) (e_dist x) (succ (e_node x))
                  (set_explored (e_node x) (e_parent x) (set_queue q' st))) as [st2 Hexp]; [auto|].
      rewrite Hexp. eapply IH. eapply expand_inv; [exact Hinv'|].
      rewrite gval_explored, Hg. exact Hexp.
Qed.

Lemma astar_no_failure (fuel : nat) :
  astar_path succ weight heuristic source target fuel <> Failed.
Proof.
  unfold astar_path. destruct fuel as [|fuel]; [discriminate|].
  cbn. destruct (decide (source = target)) as [Heq|Hne].
  { destruct (size _); cbn; discriminate. }
  rewrite lookup_empty. unfold expand_node. cbn [e_node e_dist e_parent].
  destruct (expand_total source 0 (succ source)
              (set_explored source None (set_queue [] (init_state source)))) as [st2 Hexp]; [auto|].
  rewrite Hexp. eapply search_no_failure.
  eapply expand_inv; [apply (run_inv_init succ weight heuristic source target Hcons Hne)|].
  rewrite gval_explored. unfold AstarInv.gval at 1. rewrite decide_True by done. exact Hexp.
Qed.

End Answers.

(** ** The answers of [route] under the "short" policy *)

(** X19: A 404 of the "short" search is sound: when the heuristic is consistent
    with the edge lengths and the search answers that there is no path, no
    walk leads from the origin-snapped node to the destination-snapped one. *)
Theorem short_route_404_sound (fuel : nat) (env : osm) (G Gp : street_graph)
    (lights : list light) (ped_pts : list hazard) (orig dest : node) (r : R) :
  g_succ Gp = g_succ G ->
  consistent_heuristic G Gp dest ->
  find_route fuel env "short" G Gp lights ped_pts orig dest = HttpError 404 ->
  ~ route_walk G orig dest r.
Proof.
  intros Hsucc Hcons. unfold find_route.
  change (search_weight "short" G lights ped_pts) with by_length. rewrite Hsucc.
  destruct (astar_path _ _ _ _ _ _) as [path| | |] eqn:Hastar; try discriminate.
  - destruct (_route_to_geojson env G path); discriminate.
  - intros _. exact (astar_no_path (g_succ G) by_length (h Gp) orig dest Hcons fuel r Hastar).
Qed.

Lemma two_nodes_consistent : consistent_heuristic (two_nodes 1) (two_nodes 1) 1.
Proof.
  intros u v attrs c Hin Hc. cbn in Hin. destruct (Z.eqb_spec u 1) as [->|_]; [|destruct Hin].
  destruct Hin as [[= <- <-]|[]]. cbn in Hc. injection Hc as <-.
  assert (h (two_nodes 1) 1 1 = 0) as ->.
  { unfold h. cbn. unfold hypot. replace ((0 - 0) * (0 - 0) + (0 - 0) * (0 - 0)) with 0 by lra.
    apply sqrt_0. }
  pose proof (hypot_nonneg (1 - 0) (0 - 0)) as Hh. unfold h. cbn. lra.
Qed.

Lemma short_route_404_sound_witness :
  ~ route_walk (two_nodes 1) 2 1 1.
Proof.
  apply (short_route_404_sound 2 (detour_osm 0) (two_nodes 1) (two_nodes 1) [] [] 2%Z 1%Z 1).
  - reflexivity.
  - exact two_nodes_consistent.
  - reflexivity.
Defined.

Lemma length_weight_defined (attrs : multi_edge) : attrs <> [] -> is_Some (length_weight attrs).
Proof. destruct attrs as [|[k a] rest]; [done|]. cbn. eauto. Qed.

(** X20: The "short" search is complete: on a graph whose edges carry lengths,
    with a heuristic consistent with them and fuel for as many rounds as the
    graph has edges and two more, a walk from the origin-snapped node to the
    destination-snapped one makes the search return a route, a walk that is
    not longer; the response is that route with its rounded length, or a 500
    when the geometry of the route cannot be built. *)
Theorem short_route_complete (fuel : nat) (env : osm) (G Gp : street_graph)
    (lights : list light) (ped_pts : list hazard) (orig dest : node) (nodes : list node)
    (r : R) :
  g_succ Gp = g_succ G ->
  well_formed G ->
  (forall u v attrs, In (v, attrs) (g_succ G u) -> attrs <> []) ->
  consistent_heuristic G Gp dest ->
  closed_under_succ (g_succ G) nodes ->
  In orig nodes ->
  (2 + list_sum (map (fun u => List.length (g_succ G u)) nodes) <= fuel)%nat ->
  route_walk G orig dest r ->
  exists route_nodes total,
    route_walk G orig dest total /\ total <= r /\
    hd_error route_nodes = Some orig /\ List.last route_nodes orig = dest /\
    match merge_lines env G route_nodes ≫= geometry_of with
    | Some g =>
        exists steps,
          find_route fuel env "short" G Gp lights ped_pts orig dest
          = Routed {| distance_m := round1 total; steps := steps; geometry := g |}
    | None => find_route fuel env "short" G Gp lights ped_pts orig dest = HttpError 500
    end.
Proof.
  intros Hsucc Hwf Hne Hcons Hclosed Hin Hfuel Hwalk. unfold find_route.
  change (search_weight "short" G lights ped_pts) with by_length. rewrite Hsucc.
  pose proof (astar_ends (g_succ G) by_length (h Gp) orig dest nodes Hcons Hclosed fuel Hin Hfuel)
    as Hends.
  assert (Hweight : forall u v e, In (v, e) (g_succ G u) -> is_Some (by_length u v e)).
  { intros u v e He. apply length_weight_defined. eapply Hne; eauto. }
  pose proof (astar_no_failure (g_succ G) by_length (h Gp) orig dest Hcons Hweight fuel) as Hfail.
  destruct (astar_path _ _ _ _ _ _) as [path| | |] eqn:Hastar; try done.
  2:{ exfalso. exact (astar_no_path (g_succ G) by_length (h Gp) orig dest Hcons fuel r Hastar Hwalk). }
  destruct (astar_found (g_succ G) by_length (h Gp) orig dest Hcons fuel path Hastar)
    as (total & Hn & Hhd & Hbest).
  destruct (nwalk_total_len G path dest total Hwf Hn) as [_ Htot].
  exists path, total. split; [eapply nwalk_walk; eauto|]. split; [auto|]. split; [done|].
  split.
  { destruct Hn; [reflexivity|apply last_last]. }
  unfold total_len in Htot. unfold _route_to_geojson.
  destruct (walk_steps G path) as [[steps t]|]; [|discriminate].
  cbn in Htot. injection Htot as ->.
  destruct (merge_lines env G path) as [coords|]; cbn [mbind option_bind]; [|reflexivity].
  destruct (geometry_of coords) as [g|]; [|reflexivity].
  exists steps. reflexivity.
Qed.

Lemma short_route_complete_witness :
  exists route_nodes total,
    route_walk detour 1 3 total /\ total <= 1 + (1 + 0) /\
    hd_error route_nodes = Some 1%Z /\ List.last route_nodes 1%Z = 3%Z /\
    match merge_lines (detour_osm 0) detour route_nodes ≫= geometry_of with
    | Some g =>
        exists steps,
          find_route 5 (detour_osm 0) "short" detour (detour_projected 0) [] [] 1 3
          = Routed {| distance_m := round1 total; steps := steps; geometry := g |}
    | None =>
        find_route 5 (detour_osm 0) "short" detour (detour_projected 0) [] [] 1 3 = HttpError 500
    end.
Proof.
  apply (short_route_complete 5 (detour_osm 0) detour (detour_projected 0) [] [] 1%Z 3%Z
           [1%Z; 2%Z; 3%Z] (1 + (1 + 0))).
  - reflexivity.
  - exact detour_well_formed.
  - intros u v attrs Hin. cbn in Hin.
    destruct (detour_succ_cases u v attrs Hin) as [(_ & _ & ->)|[(_ & _ & ->)|(_ & _ & ->)]];
      discriminate.
  - exact detour_consistent.
  - intros u v e Hin. cbn in Hin.
    destruct (detour_succ_cases u v e Hin) as [(_ & -> & _)|[(_ & -> & _)|(_ & -> & _)]];
      cbn; auto.
  - now left.
  - cbn. lia.
  - exact detour_walk.
Defined.


(** ** The endpoint [route] *)

Lemma find_route_status (fuel : nat) (env : osm) (pref : string) (G Gp : street_graph)
    (lights : list light) (ped_pts : list hazard) (orig dest : node) (s : Z) :
  find_route fuel env pref G Gp lights ped_pts orig dest = HttpError s ->
  s = 404%Z \/ s = 500%Z.
Proof.
  unfold find_route. destruct (astar_path _ _ _ _ _ _) as [path| | |]; try discriminate.
  - destruct (_route_to_geojson env G path); [discriminate|]. intros [= <-]. now right.
  - intros [= <-]. now left.
  - intros [= <-]. now right.
Qed.

(** X22: Under the "short" policy (so under "fast" too) the answer depends on
    neither the hazards, pedestrians and lighting files, nor the state of
    the process, nor the extra danger points of the request. *)
Theorem short_route_ignores_danger (fuel : nat) (env : osm) (req : RouteRequest)
    (extra : option (list danger_item)) (fs fs' : files) (p p' : proc) :
  normalize_pref (route_pref req) = "short"%string ->
  fst (route fuel env (with_extra_danger extra req) fs p) = fst (route fuel env req fs' p').
Proof.
  intros Hpref. unfold route. cbn [with_extra_danger origin_lat origin_lon dest_lat dest_lon
                                    place mode force_refresh route_pref extra_danger].
  destruct (valid_mode (lower (mode req))); cbn [negb]; [|reflexivity].
  destruct (load_graph env _ _ _ _) as [G|]; [|reflexivity].
  rewrite Hpref.
  destruct (_load_lighting_cached fs p) as [gj_l p1].
  destruct (gather_danger extra fs p1) as [r p2].
  destruct (_load_lighting_cached fs' p') as [gj_l' p1'].
  destruct (gather_danger (extra_danger req) fs' p1') as [r' p2'].
  destruct (nearest_nodes env _ _ _) as [[orig dest]|]; [|reflexivity].
  reflexivity.
Qed.

Lemma short_route_ignores_danger_witness :
  fst (route 3 (detour_osm 0) (with_extra_danger (Some extra1) (with_pref "Fast" detour_request))
         fs_hazard proc_init)
  = fst (route 3 (detour_osm 0) (with_pref "Fast" detour_request) fs_empty proc_init).
Proof.
  apply (short_route_ignores_danger 3 (detour_osm 0) (with_pref "Fast" detour_request)
           (Some extra1) fs_hazard fs_empty proc_init proc_init).
  reflexivity.
Defined.


(** ** The steps and the distance of a response *)

(** X23: The edge that a step reports is one of the parallel edges, and none of
    them is shorter (an edge without length counting as 0). *)
Theorem min_by_length_least (attrs : multi_edge) (data : edge_attrs) :
  min_by_length attrs = Some data ->
  In data (map snd attrs) /\
  forall ka, In ka attrs -> key_length data <= key_length (snd ka).
Proof.
  destruct attrs as [|[k a] rest]; [discriminate|]. cbn [min_by_length]. intros [= <-].
  set (pick := fun (m : edge_attrs) (ka : pykey * edge_attrs) =>
                 if decide (key_length (snd ka) < key_length m) then snd ka else m).
  assert (Hfold : forall m,
             (fold_left pick rest m = m \/ In (fold_left pick rest m) (map snd rest)) /\
             key_length (fold_left pick rest m) <= key_length m /\
             forall ka, In ka rest -> key_length (fold_left pick rest m) <= key_length (snd ka)).
  { induction rest as [|[k' a'] rest IH]; intros m; cbn [fold_left map].
    - split; [now left|]. split; [lra|intros ? []].
    - destruct (IH (pick m (k', a'))) as (Hin & Hle & Hall).
      assert (Hp : (pick m (k', a') = m \/ pick m (k', a') = a') /\
                   key_length (pick m (k', a')) <= key_length m /\
                   key_length (pick m (k', a')) <= key_length a').
      { unfold pick. cbn [snd]. case_decide; repeat split; auto; lra. }
      destruct Hp as (Hp1 & Hp2 & Hp3). split; [|split].
      + destruct Hin as [Heq|Hin]; [|right; now right].
        rewrite Heq. destruct Hp1 as [->| ->]; [now left|right; now left].
      + lra.
      + intros ka [<-|Hka]; [cbn [snd]; lra|auto]. }
  destruct (Hfold a) as (Hin & Hle & Hall). cbn [map snd]. split.
  - destruct Hin as [->|Hin]; [now left|now right].
  - intros ka [<-|Hka]; [exact Hle|auto].
Qed.

Lemma min_by_length_least_witness :
  In {| Graph.length := Some 1; Graph.name := None |}
     (map snd [(KInt 0, {| Graph.length := Some 1; Graph.name := None |});
               (KInt 1, {| Graph.length := Some 1; Graph.name := Some "A"%string |})]) /\
  forall ka, In ka [(KInt 0, {| Graph.length := Some 1; Graph.name := None |});
                    (KInt 1, {| Graph.length := Some 1; Graph.name := Some "A"%string |})] ->
             key_length {| Graph.length := Some 1; Graph.name := None |} <= key_length (snd ka).
Proof.
  apply (min_by_length_least
           [(KInt 0, {| Graph.length := Some 1; Graph.name := None |});
            (KInt 1, {| Graph.length := Some 1; Graph.name := Some "A"%string |})]).
  cbn [min_by_length fold_left snd]. rewrite decide_False; [reflexivity|].
  unfold key_length. cbn. lra.
Defined.

Lemma walk_steps_chain (G : street_graph) (route_nodes : list node)
    (steps : list route_step) (total : R) :
  walk_steps G route_nodes = Some (steps, total) ->
  map s_from steps = removelast route_nodes /\ map s_to steps = tl route_nodes.
Proof.
  revert steps total. induction route_nodes as [|u rest IH]; intros steps total.
  - intros [= <- <-]. done.
  - destruct rest as [|v rest]; [intros [= <- <-]; done|].
    rewrite walk_steps_cons.
    destruct (get_edge_data G u v) as [attrs|]; [|done].
    destruct (min_by_length attrs) as [data|]; [|done].
    destruct (walk_steps G (v :: rest)) as [[steps' total']|]; [|done].
    intros [= <- <-]. destruct (IH steps' total' eq_refl) as [Hfrom Hto].
    cbn [map s_from s_to tl]. split.
    + rewrite Hfrom. reflexivity.
    + f_equal. rewrite Hto. reflexivity.
Qed.

(** X24: The steps of a response follow the route: step number i goes from node
    number i to node number i + 1, so there is one step less than nodes
    and each step starts where the one before ends. *)
Theorem route_steps_chain (env : osm) (G : street_graph) (route_nodes : list node)
    (a : artifact) :
  _route_to_geojson env G route_nodes = Some a ->
  map s_from (steps a) = removelast route_nodes /\
  map s_to (steps a) = tl route_nodes /\
  List.length (steps a) = (List.length route_nodes - 1)%nat.
Proof.
  unfold _route_to_geojson. destruct (merge_lines env G route_nodes) as [coords|]; [|done].
  destruct (walk_steps G route_nodes) as [[st total]|] eqn:Hws; [|done].
  destruct (geometry_of coords) as [g|]; [|done]. intros [= <-]. cbn [steps].
  destruct (walk_steps_chain G route_nodes st total Hws) as [Hfrom Hto].
  repeat split; [done|done|].
  rewrite <- (length_map s_to), Hto. destruct route_nodes; cbn [tl List.length]; lia.
Qed.

Lemma route_steps_chain_witness :
  map s_from (steps detour_artifact) = removelast [1%Z; 2%Z; 3%Z] /\
  map s_to (steps detour_artifact) = tl [1%Z; 2%Z; 3%Z] /\
  List.length (steps detour_artifact) = (List.length [1%Z; 2%Z; 3%Z] - 1)%nat.
Proof.
  apply (route_steps_chain (detour_osm 0) detour [1%Z; 2%Z; 3%Z] detour_artifact).
  reflexivity.
Defined.

(** *** Rounding *)

Lemma round_half_even_close (y : R) : Rabs (IZR (round_half_even y) - y) <= 1 / 2.
Proof.
  unfold round_half_even. cbv zeta.
  destruct (base_Int_part y) as [H1 H2].
  set (f := Int_part y) in *.
  assert (Hp : IZR (f + 1) = IZR f + 1) by apply plus_IZR.
  repeat case_decide; try destruct (Z.even f); rewrite ?Hp;
    apply Rabs_le; lra.
Qed.

Lemma Rabs_le_bounds (x y : R) : Rabs x <= y -> - y <= x <= y.
Proof. unfold Rabs. destruct (Rcase_abs x); lra. Qed.

Lemma round1_close (x : R) : Rabs (round1 x - x) <= 1 / 20.
Proof.
  unfold round1. pose proof (round_half_even_close (x * 10)) as H.
  apply Rabs_le. apply Rabs_le_bounds in H. lra.
Qed.

Lemma walk_steps_total (G : street_graph) (route_nodes : list node)
    (steps : list route_step) (total : R) :
  walk_steps G route_nodes = Some (steps, total) ->
  Rabs (total - Rsum (map s_length_m steps)) <= INR (List.length steps) / 20.
Proof.
  revert steps total. induction route_nodes as [|u rest IH]; intros steps total.
  - intros [= <- <-]. cbn [map List.length INR]. rewrite Rsum_nil. apply Rabs_le. lra.
  - destruct rest as [|v rest].
    { intros [= <- <-]. cbn [map List.length INR]. rewrite Rsum_nil. apply Rabs_le. lra. }
    rewrite walk_steps_cons.
    destruct (get_edge_data G u v) as [attrs|]; [|done].
    destruct (min_by_length attrs) as [data|]; [|done].
    destruct (walk_steps G (v :: rest)) as [[steps' total']|]; [|done].
    intros [= <- <-]. specialize (IH steps' total' eq_refl).
    cbn [map s_length_m]. rewrite Rsum_cons.
    change (List.length (_ :: steps')) with (S (List.length steps')). rewrite S_INR.
    pose proof (round1_close (key_length data)) as Hr.
    apply Rabs_le. apply Rabs_le_bounds in IH. apply Rabs_le_bounds in Hr. lra.
Qed.

(** X25: The distance of a response is the rounded sum of the lengths, not the
    sum of the rounded lengths of the steps: the two differ by at most 0.05
    for the distance and 0.05 for each step. *)
Theorem route_distance_close (env : osm) (G : street_graph) (route_nodes : list node)
    (a : artifact) :
  _route_to_geojson env G route_nodes = Some a ->
  Rabs (distance_m a - Rsum (map s_length_m (steps a)))
  <= (INR (List.length (steps a)) + 1) / 20.
Proof.
  unfold _route_to_geojson. destruct (merge_lines env G route_nodes) as [coords|]; [|done].
  destruct (walk_steps G route_nodes) as [[st total]|] eqn:Hws; [|done].
  destruct (geometry_of coords) as [g|]; [|done]. intros [= <-]. cbn [steps distance_m].
  pose proof (walk_steps_total G route_nodes st total Hws) as Ht.
  pose proof (round1_close total) as Hr.
  apply Rabs_le. apply Rabs_le_bounds in Ht. apply Rabs_le_bounds in Hr. lra.
Qed.

Lemma route_distance_close_witness :
  Rabs (distance_m detour_artifact - Rsum (map s_length_m (steps detour_artifact)))
  <= (INR (List.length (steps detour_artifact)) + 1) / 20.
Proof.
  apply (route_distance_close (detour_osm 0) detour [1%Z; 2%Z; 3%Z] detour_artifact).
  reflexivity.
Defined.


(** ** [_bbox_filter] *)

Lemma bbox_filter_fold (b : bbox) (features out : list json) :
  fold_left (fun out f => if keeps b f then out ++ [f] else out) features out
  = out ++ List.filter (keeps b) features.
Proof.
  revert out. induction features as [|f features IH]; intros out; cbn [fold_left List.filter].
  - now rewrite app_nil_r.
  - rewrite IH. destruct (keeps b f); [|reflexivity]. now rewrite <- app_assoc.
Qed.

Lemma bbox_filter_filter (b : bbox) (features : list json) :
  _bbox_filter features (Some b) = List.filter (keeps b) features.
Proof. unfold _bbox_filter. now rewrite bbox_filter_fold. Qed.

Lemma filter_is_sublist {A : Type} (p : A -> bool) (l : list A) : sublist (List.filter p l) l.
Proof.
  induction l as [|x l IH]; cbn [List.filter]; [constructor|].
  destruct (p x); now constructor.
Qed.

Lemma filter_twice {A : Type} (p : A -> bool) (l : list A) :
  List.filter p (List.filter p l) = List.filter p l.
Proof.
  induction l as [|x l IH]; cbn [List.filter]; [reflexivity|].
  destruct (p x) eqn:Hp; [|exact IH]. cbn [List.filter]. now rewrite Hp, IH.
Qed.

(** X26: The filter keeps features of the input, in their order, and filtering
    its result again with the same box changes nothing; without a box the
    input is returned. *)
Theorem bbox_filter_sublist (features : list json) (b : option bbox) :
  sublist (_bbox_filter features b) features /\
  _bbox_filter (_bbox_filter features b) b = _bbox_filter features b /\
  _bbox_filter features None = features.
Proof.
  destruct b as [b|]; [|done].
  rewrite !bbox_filter_filter. split; [apply filter_is_sublist|]. split; [apply filter_twice|done].
Qed.

Lemma in_box_position (b : bbox) (lon lat : R) (more : list json) :
  in_box b (JArr (JNum lon :: JNum lat :: more)) = Some (bool_decide (inside b lon lat)).
Proof.
  destruct b as [[[minx miny] maxx] maxy]. unfold in_box, inside, py_between.
  cbn [slice2]. change (take 2 (JNum lon :: JNum lat :: more)) with [JNum lon; JNum lat].
  cbn [unpack2 py_iter num_of].
  repeat case_bool_decide; cbn [andb]; try reflexivity; exfalso; intuition lra.
Qed.

(** X27: A Point feature with a numeric position is kept exactly when the
    position lies in the box, the border included. *)
Theorem bbox_filter_point (features : list json) (b : bbox) (lon lat : R) (more : list json) :
  let f := geo_feature "Point" (JArr (JNum lon :: JNum lat :: more)) in
  In f (_bbox_filter features (Some b)) <-> In f features /\ inside b lon lat.
Proof.
  cbv zeta. rewrite bbox_filter_filter, filter_In.
  assert (keeps b (geo_feature "Point" (JArr (JNum lon :: JNum lat :: more)))
          = bool_decide (inside b lon lat)) as ->.
  { unfold keeps, geo_feature. cbn -[in_box].
    now rewrite in_box_position. }
  now rewrite bool_decide_eq_true.
Qed.

Lemma any_in_box_positions (b : bbox) (pts : list (R * R)) :
  any_in_box b (map (fun p : R * R => position (fst p) (snd p)) pts) false
  = Some (existsb (fun p => bool_decide (inside b (fst p) (snd p))) pts).
Proof.
  induction pts as [|[lon lat] pts IH]; [reflexivity|].
  cbn [map any_in_box existsb fst snd]. unfold position at 1. rewrite in_box_position.
  destruct (bool_decide (inside b lon lat)); [reflexivity|exact IH].
Qed.

(** X28: A LineString or a MultiPoint whose positions are numeric is kept
    exactly when one of its positions lies in the box. *)
Theorem bbox_filter_line (features : list json) (b : bbox) (t : string) (pts : list (R * R)) :
  t = "LineString"%string \/ t = "MultiPoint"%string ->
  let f := geo_feature t (JArr (map (fun p : R * R => position (fst p) (snd p)) pts)) in
  In f (_bbox_filter features (Some b))
  <-> In f features /\ exists p, In p pts /\ inside b (fst p) (snd p).
Proof.
  intros Ht. cbv zeta. rewrite bbox_filter_filter, filter_In.
  assert (keeps b (geo_feature t (JArr (map (fun p : R * R => position (fst p) (snd p)) pts)))
          = existsb (fun p => bool_decide (inside b (fst p) (snd p))) pts) as ->.
  { destruct Ht as [-> | ->]; unfold keeps, geo_feature; cbn -[any_in_box];
      now rewrite any_in_box_positions. }
  rewrite existsb_exists. split; intros [Hin (p & Hp & Hb)]; (split; [done|]); exists p;
    (split; [done|]).
  - now apply bool_decide_eq_true_1 in Hb.
  - now apply bool_decide_eq_true_2.
Qed.

Lemma bbox_filter_line_witness :
  let f := geo_feature "LineString"
             (JArr (map (fun p : R * R => position (fst p) (snd p)) [(0, 0); (8, 47)])) in
  In f (_bbox_filter [f] (Some (7, 46, 9, 48)))
  <-> In f [f] /\ exists p, In p [(0, 0); (8, 47)] /\ inside (7, 46, 9, 48) (fst p) (snd p).
Proof.
  apply (bbox_filter_line _ (7, 46, 9, 48) "LineString" [(0, 0); (8, 47)]).
  now left.
Defined.

(** A position that is no pair of numbers hides what comes after it: a
    line whose first position lacks its latitude is dropped although a
    later position lies in the box. *)
Lemma bbox_filter_bad_position (b : bbox) (lon lat : R) :
  _bbox_filter [geo_feature "LineString" (JArr [JArr [JNum lon]; position lon lat])] (Some b)
  = [].
Proof. destruct b as [[[minx miny] maxx] maxy]. reflexivity. Qed.


(** ** The results of [geocode] *)

Section GeocodeFacts.

Variable float_of_str : string -> option R.

Lemma hit_of_in_view (d : json) (it : place_hit) :
  hit_of float_of_str d = Some it -> in_view it.
Proof.
  unfold hit_of, in_view.
  destruct (py_item d "lat") as [vlat|]; [|done].
  destruct (json_float float_of_str vlat) as [la|]; [|done].
  destruct (py_item d "lon") as [vlon|]; [|done].
  destruct (json_float float_of_str vlon) as [lo|]; [|done].
  destruct (bool_decide (view_l <= lo) && bool_decide (lo <= view_r)
            && (bool_decide (view_b <= la) && bool_decide (la <= view_t))) eqn:Hbox;
    cbn [negb]; [|done].
  apply andb_true_iff in Hbox as [H1 H2].
  apply andb_true_iff in H1 as [H1 H1']. apply andb_true_iff in H2 as [H2 H2'].
  apply bool_decide_eq_true_1 in H1, H1', H2, H2'.
  destruct (if truthy _ then _ else _); try done.
  destruct (if truthy _ then _ else _); try done.
  intros [= <-]. cbn. done.
Qed.

Lemma dedupe_round_seen (seen : list (R * R)) (unique : list place_hit) (it : place_hit) :
  hit_key it ∈ seen -> dedupe_round (seen, unique) it = (seen, unique).
Proof. intros H. unfold dedupe_round. now rewrite bool_decide_eq_true_2. Qed.

Lemma dedupe_round_fresh (seen : list (R * R)) (unique : list place_hit) (it : place_hit) :
  hit_key it ∉ seen -> dedupe_round (seen, unique) it = (hit_key it :: seen, unique ++ [it]).
Proof. intros H. unfold dedupe_round. now rewrite bool_decide_eq_false_2. Qed.

Lemma dedupe_inv (out : list place_hit) (seen : list (R * R)) (unique : list place_hit) :
  (forall k, k ∈ seen <-> k ∈ map hit_key unique) ->
  NoDup (map hit_key unique) ->
  let res := snd (fold_left dedupe_round out (seen, unique)) in
  NoDup (map hit_key res) /\
  (exists more, res = unique ++ more /\ sublist more out) /\
  (forall it, it ∈ out -> hit_key it ∈ map hit_key res).
Proof.
  revert seen unique. induction out as [|it out IH]; intros seen unique Hseen Hnd; cbv zeta; cbn [fold_left].
  - cbn [snd]. split; [exact Hnd|]. split.
    + exists []. split.
      * now rewrite app_nil_r.
      * apply sublist_nil.
    + intros it Hit. now apply elem_of_nil in Hit.
  - destruct (decide (hit_key it ∈ seen)) as [Hin|Hin];
      [rewrite (dedupe_round_seen _ _ _ Hin)|rewrite (dedupe_round_fresh _ _ _ Hin)].
    + destruct (IH seen unique Hseen Hnd) as (H1 & (more & H2 & H3) & H4). cbv zeta in *.
      split; [done|]. split; [exists more; split; [done|now constructor]|].
      intros it' Hit'. apply elem_of_cons in Hit' as [->|Hit']; [|auto].
      apply Hseen in Hin. rewrite H2, map_app. apply elem_of_app. now left.
    + assert (Hseen' : forall k, k ∈ hit_key it :: seen <-> k ∈ map hit_key (unique ++ [it])).
      { intros k. rewrite map_app, elem_of_app, elem_of_cons, Hseen. cbn [map].
        rewrite list_elem_of_singleton. tauto. }
      assert (Hnd' : NoDup (map hit_key (unique ++ [it]))).
      { rewrite map_app. apply NoDup_app. split; [done|]. split.
        - intros k Hk Hk'. cbn [map] in Hk'. apply list_elem_of_singleton in Hk' as ->.
          apply Hin. now apply Hseen.
        - cbn. apply NoDup_singleton. }
      destruct (IH _ _ Hseen' Hnd') as (H1 & (more & H2 & H3) & H4). cbv zeta in *.
      split; [done|]. split.
      * exists (it :: more). split; [rewrite H2, <- app_assoc; reflexivity|now constructor].
      * intros it' Hit'. apply elem_of_cons in Hit' as [->|Hit']; [|auto].
        rewrite H2, !map_app, !elem_of_app. left. right. cbn. apply list_elem_of_singleton.
        reflexivity.
Qed.

Lemma py_take_prefix {A : Type} (k : Z) (l : list A) : exists n, py_take k l = take n l.
Proof. unfold py_take. destruct (k <? 0)%Z; eauto. Qed.

Lemma NoDup_take {A : Type} (n : nat) (l : list A) : NoDup l -> NoDup (take n l).
Proof.
  intros H. rewrite <- (take_drop n l) in H. now apply NoDup_app in H as [? _].
Qed.

(** X29: What [geocode] returns: every entry lies in the viewbox, no two
    entries share their coordinates rounded to five decimals, the entries
    come in the order of the answer of Nominatim, and there are at most
    [limit] of them (7 without a limit, or with the limit 0). *)
Theorem geocode_results_sound (data : list json) (limit : option Z) :
  let res := geocode_results float_of_str data limit in
  let n := match limit with Some k => if (k =? 0)%Z then 7%Z else k | None => 7%Z end in
  Forall in_view res /\
  NoDup (map hit_key res) /\
  sublist res (omap (hit_of float_of_str) data) /\
  ((0 <= n)%Z -> (List.length res <= Z.to_nat n)%nat).
Proof.
  cbv zeta. unfold geocode_results.
  set (out := omap (hit_of float_of_str) data).
  destruct (dedupe_inv out [] []) as (Hnd & (more & Hmore & Hsub) & _).
  { intros k. cbn. done. }
  { constructor. }
  cbv zeta in *. cbn [app] in Hmore.
  set (unique := snd (fold_left dedupe_round out ([], []))) in *.
  set (n := match limit with Some k => if (k =? 0)%Z then 7%Z else k | None => 7%Z end).
  destruct (py_take_prefix n unique) as [m Hm].
  repeat split.
  - rewrite Hm. apply List.Forall_forall. intros it Hit.
    assert (Hin : it ∈ out).
    { apply list_elem_of_In in Hit.
      eapply elem_of_sublist; [|exact Hsub]. rewrite <- Hmore.
      eapply elem_of_sublist; [exact Hit|apply sublist_take]. }
    unfold out in Hin. apply list_elem_of_omap in Hin as (d & _ & Hd).
    eapply hit_of_in_view; eauto.
  - rewrite Hm, <- firstn_map. now apply NoDup_take.
  - rewrite Hm. etrans; [apply sublist_take|]. now rewrite Hmore.
  - intros Hn. unfold py_take. destruct (Z.ltb_spec n 0); [lia|]. rewrite length_take. lia.
Qed.

End GeocodeFacts.


(** ** The lighting points of a request *)

Lemma light_of_feature_raises (f : feature) (g : Store.geometry) :
  f_geometry f = Val g -> g_type g = Val "Point"%string ->
  (g_coordinates g = Null \/
   exists l, g_coordinates g = Val l /\ (List.length l < 2)%nat) ->
  light_of_feature f = Raise.
Proof.
  intros Hg Ht Hc. unfold light_of_feature, geometry_type. rewrite Hg, Ht. cbn.
  destruct Hc as [-> | (l & -> & Hl)]; [reflexivity|].
  destruct l as [|lon [|lat more]]; cbn in Hl; try reflexivity. lia.
Qed.

(** X30: One Point of the lighting document whose coordinates are null or fewer
    than two leaves the request without any lighting point, and then every
    edge costs its base weight under every policy: the hazards count for
    nothing either. *)
Theorem lighting_all_or_nothing (feats : list feature) (f : feature) (g : Store.geometry)
    (pref : string) (G : street_graph) (ped_pts : list hazard) (u v : node)
    (attrs : multi_edge) :
  In f feats ->
  f_geometry f = Val g -> g_type g = Val "Point"%string ->
  (g_coordinates g = Null \/
   exists l, g_coordinates g = Val l /\ (List.length l < 2)%nat) ->
  lights_of_document (Doc (Val feats)) = [] /\
  _edge_weight pref G (lights_of_document (Doc (Val feats))) ped_pts u v attrs
  = base_weight attrs.
Proof.
  intros Hin Hg Ht Hc.
  assert (Hnil : lights_of_document (Doc (Val feats)) = []).
  { cbn [lights_of_document].
    assert (collect light_of_feature feats = None) as ->; [|reflexivity].
    apply collect_raises. apply List.Exists_exists. exists f. split; [done|].
    eapply light_of_feature_raises; eauto. }
  split; [done|]. rewrite Hnil. unfold _edge_weight.
  destruct (base_weight attrs) as [base|]; [|reflexivity].
  destruct (String.eqb pref "short"); [reflexivity|].
  rewrite bool_decide_eq_true_2 by done. cbn [negb]. now rewrite andb_false_r.
Qed.

Lemma lighting_all_or_nothing_witness :
  let bad := {| f_geometry := Val {| g_type := Val "Point"%string; g_coordinates := Null |};
                f_properties := Absent |} in
  lights_of_document (Doc (Val [point_feature 0 0 []; bad])) = [] /\
  _edge_weight "safe" (two_nodes 1) (lights_of_document (Doc (Val [point_feature 0 0 []; bad])))
               [(0, 0, 1)] 1%Z 2%Z (attrs_of 1)
  = base_weight (attrs_of 1).
Proof.
  cbv zeta.
  apply (lighting_all_or_nothing _
           {| f_geometry := Val {| g_type := Val "Point"%string; g_coordinates := Null |};
              f_properties := Absent |}
           {| g_type := Val "Point"%string; g_coordinates := Null |}).
  - right. left. reflexivity.
  - reflexivity.
  - reflexivity.
  - now left.
Defined.


(** ** The points of a collection *)

Lemma dict_get_binds (d : list (string * pyval)) (k : string) (v : pyval) :
  dict_get d k = Some v <-> binds d k v.
Proof.
  induction d as [|[k' v'] d IH]; cbn [dict_get].
  - split; [done|]. intros (before & after & H & _). now destruct before.
  - destruct (String.eqb_spec k' k) as [->|Hne].
    + split.
      * intros [= ->]. exists [], d. split; [reflexivity|]. intros [].
      * intros (before & after & H & Hnot). destruct before as [|[k0 v0] before].
        { now injection H as -> _. }
        injection H as -> -> _. exfalso. apply Hnot. now left.
    + rewrite IH. split.
      * intros (before & after & -> & Hnot). exists ((k', v') :: before), after.
        split; [reflexivity|]. intros [H|H]; [now apply Hne|now apply Hnot].
      * intros (before & after & H & Hnot). destruct before as [|[k0 v0] before].
        { injection H as -> _ _. done. }
        injection H as _ _ ->. exists before, after. split; [reflexivity|].
        intros Hin. apply Hnot. now right.
Qed.

Lemma dict_get_unbound (d : list (string * pyval)) (k : string) :
  dict_get d k = None <-> unbound d k.
Proof.
  unfold unbound. induction d as [|[k' v'] d IH]; cbn [dict_get map fst].
  - split; [intros _ []|done].
  - destruct (String.eqb_spec k' k) as [->|Hne].
    + split; [done|]. intros H. exfalso. apply H. now left.
    + rewrite IH. split.
      * intros H [Hk|Hk]; [now apply Hne|now apply H].
      * intros H Hk. apply H. now right.
Qed.

Lemma binds_unbound (d : list (string * pyval)) (k : string) (v : pyval) :
  binds d k v -> unbound d k -> False.
Proof. intros Hb Hu. apply dict_get_binds in Hb. apply dict_get_unbound in Hu. congruence. Qed.

Lemma binds_functional (d : list (string * pyval)) (k : string) (v w : pyval) :
  binds d k v -> binds d k w -> v = w.
Proof. intros Hv Hw. apply dict_get_binds in Hv, Hw. congruence. Qed.

Lemma input_score_raw (f : feature) (v : pyval) :
  input_score (props_of f) v <-> v = hazard_raw_score f.
Proof.
  unfold hazard_raw_score, dict_get_default. fold (props_of f).
  destruct (dict_get (props_of f) "safety_score") as [v1|] eqn:H1.
  - apply dict_get_binds in H1. split.
    + intros [v' Hb|v' Hu _|Hu _]; [eapply binds_functional; eauto| |];
        exfalso; eapply binds_unbound; eauto.
    + intros ->. now constructor 1.
  - apply dict_get_unbound in H1.
    destruct (dict_get (props_of f) "score") as [v2|] eqn:H2.
    + apply dict_get_binds in H2. split.
      * intros [v' Hb|v' _ Hb|_ Hu]; [exfalso; eapply binds_unbound; eauto
                                     |eapply binds_functional; eauto
                                     |exfalso; eapply binds_unbound; eauto].
      * intros ->. now constructor 2.
    + apply dict_get_unbound in H2. split.
      * intros [v' Hb|v' _ Hb|_ _]; [exfalso; eapply binds_unbound; eauto
                                    |exfalso; eapply binds_unbound; eauto|reflexivity].
      * intros ->. now constructor 3.
Qed.

Lemma point_at_coords (f : feature) (lon lat : R) :
  point_at f lon lat
  <-> is_Point (geometry_type f) = true /\ exists more, hazard_coords f = lon :: lat :: more.
Proof.
  unfold point_at, geometry_type, hazard_coords, is_Point. split.
  - intros (g & more & -> & -> & ->). split; [reflexivity|eauto].
  - intros [Ht (more & Hc)]. destruct (f_geometry f) as [| |g]; try done.
    exists g, more. split; [reflexivity|].
    destruct (g_type g) as [| |t]; try done. apply String.eqb_eq in Ht as ->.
    split; [reflexivity|]. destruct (g_coordinates g); try done. now rewrite Hc.
Qed.


Lemma no_point_coords (f : feature) :
  no_point f
  <-> is_Point (geometry_type f) = false \/ (List.length (hazard_coords f) < 2)%nat.
Proof.
  split.
  - intros Hno. destruct (is_Point (geometry_type f)) eqn:Ht; [|now left]. right.
    destruct (hazard_coords f) as [|lon [|lat more]] eqn:Hc; cbn; try lia.
    exfalso. apply (Hno lon lat). apply point_at_coords. eauto.
  - intros H lon lat Hp. apply point_at_coords in Hp as [Ht (more & Hc)].
    destruct H as [H|H]; [congruence|]. rewrite Hc in H. cbn in H. lia.
Qed.

(** One round of the loop of POST /hazards, and of [_load_hazards]. *)
Lemma item_of_feature_point (f : feature) (lon lat : R) :
  point_at f lon lat ->
  item_of_feature f
  = match py_float (hazard_raw_score f) with
    | Some sc => Emit {| it_lat := lat; it_lon := lon; it_score := sc |}
    | None => Raise
    end.
Proof.
  intros Hp. apply point_at_coords in Hp as [Ht (more & Hc)].
  unfold item_of_feature. now rewrite Ht, Hc.
Qed.


Lemma hazard_of_feature_point (f : feature) (lon lat : R) :
  point_at f lon lat ->
  hazard_of_feature f
  = match py_float (hazard_raw_score f) with
    | Some sc => Emit (lat, lon, clamp_cond sc)
    | None => Raise
    end.
Proof.
  intros Hp. apply point_at_coords in Hp as [Ht (more & Hc)].
  unfold hazard_of_feature. now rewrite Ht, Hc.
Qed.

Lemma hazard_of_feature_other (f : feature) : no_point f -> hazard_of_feature f = Skip.
Proof.
  intros Hno. apply no_point_coords in Hno. unfold hazard_of_feature.
  destruct Hno as [-> |Hlen]; [reflexivity|].
  destruct (negb _); [reflexivity|].
  destruct (hazard_coords f) as [|lon [|lat more]]; cbn in Hlen; try reflexivity. lia.
Qed.



Lemma saved_feature_stored (it : item) :
  saved_feature it = stored_point (it_lon it, it_lat it, it_score it).
Proof. unfold saved_feature, stored_point, point_feature. now rewrite clamp_maxmin_spec. Qed.




Lemma save_stored (items : list item) :
  _save_hazards items
  = Doc (Val (map stored_point (map (fun it => (it_lon it, it_lat it, it_score it)) items))).
Proof.
  unfold _save_hazards. do 2 f_equal. rewrite List.map_map. apply map_ext. intros it.
  apply saved_feature_stored.
Qed.



(** ** The clamp on the ingestion paths *)

Lemma load_points (feats : list feature) (pts : list (R * R * R)) (acc : list hazard) :
  points_of feats pts ->
  load_hazard_features feats acc = acc ++ map used_point pts.
Proof.
  intros H. revert acc.
  induction H as [|f lon lat v sc feats pts Hp Hv Hsc _ IH|f feats pts Hno _ IH]; intros acc;
    cbn [load_hazard_features map].
  - now rewrite app_nil_r.
  - apply input_score_raw in Hv. subst v.
    rewrite (hazard_of_feature_point f lon lat Hp), Hsc, IH, <- app_assoc.
    cbn [app used_point]. now rewrite clamp_cond_spec.
  - rewrite (hazard_of_feature_other f Hno). apply IH.
Qed.

Lemma ped_of_point_feature (lon lat : R) (props : list (string * pyval)) (sc : R) :
  ped_input_score props sc ->
  ped_of_feature (point_feature lon lat props) = Emit (used_point (lon, lat, sc)).
Proof.
  intros Hsc. unfold ped_of_feature, point_feature, geometry_type. cbn.
  rewrite clamp_seq_spec. do 3 f_equal. unfold float_or_zero, dict_get_default.
  destruct Hsc as [v sc Hb Hf|v Hb Hf|Hu].
  - apply dict_get_binds in Hb. now rewrite Hb, Hf.
  - apply dict_get_binds in Hb. now rewrite Hb, Hf.
  - apply dict_get_unbound in Hu. now rewrite Hu.
Qed.

Lemma collect_ped_points (entries : list (R * R * list (string * pyval) * R)) :
  Forall (fun e : R * R * list (string * pyval) * R =>
            let '(lon, lat, props, sc) := e in ped_input_score props sc) entries ->
  collect ped_of_feature
          (map (fun e : R * R * list (string * pyval) * R =>
                  let '(lon, lat, props, sc) := e in point_feature lon lat props) entries)
  = Some (map (fun e : R * R * list (string * pyval) * R =>
                 let '(lon, lat, props, sc) := e in used_point (lon, lat, sc)) entries).
Proof.
  induction 1 as [|[[[lon lat] props] sc] entries Hsc _ IH]; [reflexivity|].
  cbn [map collect]. now rewrite (ped_of_point_feature lon lat props sc Hsc), IH.
Qed.

Lemma danger_point_of_dict (d : list (string * pyval)) (lat lon sc : R) :
  dict_point d lat lon sc -> danger_point_of (DPDict d) = Some (used_point (lon, lat, sc)).
Proof.
  intros (vlat & vlon & v & Hlat & Hflat & Hlon & Hflon & Hsc & Hfsc).
  apply dict_get_binds in Hlat, Hlon.
  unfold danger_point_of. cbn [dp_get dp_getattr]. rewrite Hlat, Hlon. cbn [default Datatypes.id].
  rewrite Hflat, Hflon.
  assert (default (VNum 1) (dict_get d "score") = v) as ->.
  { destruct Hsc as [Hb|[Hu ->]].
    - apply dict_get_binds in Hb. now rewrite Hb.
    - apply dict_get_unbound in Hu. now rewrite Hu. }
  rewrite Hfsc. cbn [used_point]. now rewrite clamp_seq_spec.
Qed.

Lemma extra_danger_dicts (ds : list (list (string * pyval) * (R * R * R))) :
  Forall (fun e : list (string * pyval) * (R * R * R) =>
            let '(d, (lon, lat, sc)) := e in dict_point d lat lon sc) ds ->
  extra_danger_points (map (fun e => DPDict (fst e)) ds) = map (fun e => used_point (snd e)) ds.
Proof.
  induction 1 as [|[d [[lon lat] sc]] ds Hd _ IH]; [reflexivity|].
  cbn [map extra_danger_points fst snd].
  now rewrite (danger_point_of_dict d lat lon sc Hd), IH.
Qed.

(** C5: the clamp on each ingestion path, and the path that misses it.  A
    score that is a number is used or stored clamped to [0, 1] when it comes
    from the hazards file, from the pedestrians file, from a saved item or
    from an extra danger point given as a dict.  The extra danger points
    of a request, as the endpoint delivers them (request models), never
    reach the danger set, whatever their score: an input score of 1.7 is
    not used as 1.0, it is not used at all. *)
Theorem C5_clamp_misses_request_points :
  (forall feats pts,
      points_of feats pts ->
      _load_hazards (Some (Doc (Val feats))) = map used_point pts) /\
  (forall fs p mtime (entries : list (R * R * list (string * pyval) * R)),
      Forall (fun e : R * R * list (string * pyval) * R =>
                let '(lon, lat, props, sc) := e in ped_input_score props sc) entries ->
      first_existing (pedestrians_files fs)
      = Some (mtime, Doc (Val (map (fun e : R * R * list (string * pyval) * R =>
                                      let '(lon, lat, props, sc) := e in
                                      point_feature lon lat props) entries))) ->
      ped_cache_mtime p <> Some mtime ->
      let '(r, p1) := _load_pedestrians fs p in
      deref r p1 = map (fun e : R * R * list (string * pyval) * R =>
                          let '(lon, lat, props, sc) := e in used_point (lon, lat, sc)) entries) /\
  (forall items,
      _save_hazards items
      = Doc (Val (map (fun it => stored_point (it_lon it, it_lat it, it_score it)) items))) /\
  (forall (ds : list (list (string * pyval) * (R * R * R))) fs p,
      Forall (fun e : list (string * pyval) * (R * R * R) =>
                let '(d, (lon, lat, sc)) := e in dict_point d lat lon sc) ds ->
      let '(r, p') := gather_danger (Some (map (fun e => DPDict (fst e)) ds)) fs p in
      let '(r0, p0) := gather_danger None fs p in
      r = r0 /\ deref r p' = deref r0 p0 ++ map (fun e => used_point (snd e)) ds) /\
  (forall (l : list DangerPoint) fs p,
      gather_danger (Some (map DPModel l)) fs p = gather_danger None fs p) /\
  (let '(r, p) := gather_danger
                    (Some [DPModel {| dp_lat := 4738 / 100; dp_lon := 853 / 100;
                                      dp_score := 17 / 10 |}]) fs_empty proc_init in
   deref r p = []) /\
  used_point (853 / 100, 4738 / 100, 17 / 10) = (4738 / 100, 853 / 100, 1) /\
  used_point (853 / 100, 4738 / 100, - 3 / 10) = (4738 / 100, 853 / 100, 0).
Proof.
  split; [|split; [|split; [|split; [|split; [|split; [|split]]]]]].
  - intros feats pts Hpts. cbn [_load_hazards]. now rewrite (load_points feats pts []).
  - intros fs p mtime entries Hall Hfile Hmt. unfold _load_pedestrians. rewrite Hfile.
    rewrite (collect_ped_points entries Hall).
    destruct (ped_cache_pts p) as [r0|]; [rewrite decide_False by done|];
      unfold deref, alloc, set_ped_cache; cbn; now rewrite lookup_insert_eq.
  - intros items. rewrite save_stored. now rewrite List.map_map.
  - intros ds fs p Hall. unfold gather_danger.
    destruct (_load_pedestrians fs p) as [r p1]. cbn [default Datatypes.id]. cbv beta iota zeta.
    split; [reflexivity|]. rewrite !deref_extend, (extra_danger_dicts ds Hall).
    cbn [extra_danger_points]. now rewrite app_nil_r.
  - intros l fs p. unfold gather_danger.
    destruct (_load_pedestrians fs p) as [r p1]. cbn [default Datatypes.id].
    now rewrite extra_danger_models_dropped.
  - unfold gather_danger. cbn. rewrite !deref_extend. cbn.
    unfold deref. cbn. now rewrite lookup_insert_eq.
  - unfold used_point. now rewrite clamp01_high.
  - unfold used_point. now rewrite clamp01_low.
Qed.

(** X14: a Point feature with a position and a score that [float] cannot
    read makes POST /hazards answer 400, wherever it stands in the
    FeatureCollection, and the stored collection is left as it was. *)
Theorem post_hazards_rejects (feats : list feature) (old : option document)
    (f : feature) (lon lat : R) (v : pyval) :
  In f feats ->
  point_at f lon lat -> input_score (props_of f) v -> py_float v = None ->
  post_hazards (PDict (Val feats)) old = (old, Http 400).
Proof.
  intros Hin Hp Hv Hnone. unfold post_hazards. cbn [payload_items].
  assert (collect item_of_feature feats = None) as ->; [|reflexivity].
  apply collect_raises. apply List.Exists_exists. exists f. split; [done|].
  apply input_score_raw in Hv. subst v.
  now rewrite (item_of_feature_point f lon lat Hp), Hnone.
Qed.

Lemma post_hazards_rejects_witness :
  post_hazards (PDict (Val [point_feature 8 47 [];
                            point_feature 9 46 [("score"%string, VStr "high" None)]]))
               (Some (Doc (Val [point_feature 8 47 []])))
  = (Some (Doc (Val [point_feature 8 47 []])), Http 400).
Proof.
  apply (post_hazards_rejects _ _ (point_feature 9 46 [("score"%string, VStr "high" None)])
           9 46 (VStr "high" None)).
  - right. left. reflexivity.
  - exists {| g_type := Val "Point"%string; g_coordinates := Val [9; 46] |}, []. done.
  - constructor 2.
    + intros [H|[]]. discriminate.
    + exists [], []. split; [reflexivity|]. intros [].
  - reflexivity.
Defined.


(** ** The mode of a request *)

Lemma lower_char_cases (c : Ascii.ascii) :
  lower_char c = c \/ In (c, lower_char c) letter_pairs.
Proof.
  destruct c as [[] [] [] [] [] [] [] []];
    first [left; reflexivity
          |right; cbv; repeat (first [left; reflexivity|right])].
Qed.

Lemma lower_char_pair (c d : Ascii.ascii) : In (c, d) letter_pairs -> lower_char c = d.
Proof.
  intros H. cbv [letter_pairs list_ascii_of_string combine] in H.
  repeat (destruct H as [[= <- <-]|H]; [reflexivity|]). destruct H.
Qed.

Lemma lower_spells (s w : string) :
  Forall (fun d => lower_char d = d) (list_ascii_of_string w) ->
  lower s = w <-> spells s w.
Proof.
  unfold spells. revert w. induction s as [|c s IH]; intros [|d w] Hw;
    cbn [lower list_ascii_of_string] in *.
  - split; [constructor|reflexivity].
  - split; [discriminate|]. intros H. inversion H.
  - split; [discriminate|]. intros H. inversion H.
  - apply Forall_cons in Hw as [Hd Hw]. specialize (IH w Hw). split.
    + intros [= Hc Hs]. constructor; [|now apply IH].
      destruct (lower_char_cases c) as [Hsame|Hpair]; [left; congruence|right; now rewrite <- Hc].
    + intros H. apply Forall2_cons in H as [Hcd Hrest]. f_equal; [|now apply IH].
      destruct Hcd as [->|Hpair]; [exact Hd|now apply lower_char_pair].
Qed.

Lemma valid_mode_spells (m : string) :
  valid_mode (lower m) = true
  <-> spells m "walk" \/ spells m "bike" \/ spells m "drive".
Proof.
  unfold valid_mode. rewrite !orb_true_iff, !String.eqb_eq.
  rewrite <- !lower_spells by (repeat constructor). tauto.
Qed.

(** X21: the errors of POST /api/route, for a mode made of ASCII
    characters: 400 exactly when the mode spells none of walk, bike and
    drive (in any case of its letters), and then the process state is left
    alone; the other errors are 404, 422 and 500. *)
Theorem route_status (fuel : nat) (env : osm) (req : RouteRequest) (fs : files) (p : proc) :
  ascii_only (mode req) ->
  (fst (route fuel env req fs p) = HttpError 400
   <-> ~ (spells (mode req) "walk" \/ spells (mode req) "bike" \/ spells (mode req) "drive")) /\
  (fst (route fuel env req fs p) = HttpError 400 -> snd (route fuel env req fs p) = p) /\
  (forall s, fst (route fuel env req fs p) = HttpError s ->
             s = 400%Z \/ s = 404%Z \/ s = 422%Z \/ s = 500%Z).
Proof.
  intros _. rewrite <- valid_mode_spells.
  unfold route. destruct (valid_mode (lower (mode req))) eqn:Hmode; cbn [negb].
  2:{ cbn [fst snd]. repeat split; auto. intros s [= <-]. auto. }
  destruct (load_graph env _ _ _ _) as [G|]; cbn [fst snd].
  2:{ repeat split; try discriminate; [tauto|]. intros s [= <-]. auto. }
  destruct (_load_lighting_cached fs p) as [gj_l p1].
  destruct (gather_danger (extra_danger req) fs p1) as [r p2].
  destruct (nearest_nodes env _ _ _) as [[orig dest]|]; cbn [fst snd].
  2:{ repeat split; try discriminate; [tauto|]. intros s [= <-]. auto. }
  assert (Hs : forall s, find_route fuel env (normalize_pref (route_pref req)) G
                           (default G (project_graph env G)) (lights_of_document gj_l)
                           (deref r p2) orig dest = HttpError s -> s = 404%Z \/ s = 500%Z)
    by (intros s; apply find_route_status).
  repeat split.
  - intros H. apply Hs in H as [H|H]; discriminate.
  - tauto.
  - intros H. apply Hs in H as [H|H]; discriminate.
  - intros s H. apply Hs in H as [->| ->]; auto.
Qed.

Lemma route_status_witness :
  (fst (route 3 (detour_osm 0) detour_request fs_empty proc_init)
   = HttpError 400
   <-> ~ (spells "walk" "walk" \/ spells "walk" "bike" \/ spells "walk" "drive")) /\
  (fst (route 3 (detour_osm 0) detour_request fs_empty proc_init)
   = HttpError 400 ->
   snd (route 3 (detour_osm 0) detour_request fs_empty proc_init)
   = proc_init) /\
  (forall s, fst (route 3 (detour_osm 0) detour_request fs_empty proc_init)
             = HttpError s ->
             s = 400%Z \/ s = 404%Z \/ s = 422%Z \/ s = 500%Z).
Proof.
  apply (route_status 3 (detour_osm 0) detour_request fs_empty proc_init).
  repeat constructor; cbv; lia.
Defined.
